(** * pyrate: sequential ray tracing and pilot-ray linearization

    A shallow embedding of [core/optical_element.py] and of the
    dispersion-formula container of [core/glasscatalog.py], with the
    properties of the specification stated and proved against it.

    Python objects with identity (materials, ray bundles) are references
    into explicit stores; dictionaries are association lists with the
    dictionary operations written out; exceptions are values of a small
    error monad; numpy matrices are MathComp matrices over a field. *)

From HB Require Import structures.
From Stdlib Require Import String Ascii Lia.
From mathcomp Require Import ssreflect ssrfun ssrbool eqtype ssrnat seq.
From mathcomp Require Import choice fintype finfun bigop ssralg matrix.
From mathcomp Require Import order ssrnum ssrint rat.

Set Implicit Arguments.
Unset Strict Implicit.
Unset Printing Implicit Defensive.

Module Pyrate.

(** Dictionary keys of the program are Python strings. *)
HB.instance Definition _ := hasDecEq.Build string String.eqb_spec.

(** ** Exceptions *)

(** The exceptions the modelled code can raise. *)
Inductive PyError : Type :=
| KeyError
| IndexError
| AttributeError
| NotImplementedError
| LinAlgError.

Inductive result (A : Type) : Type :=
| Ok (a : A)
| Raise (e : PyError).

Arguments Ok {A} a.
Arguments Raise {A} e.

Definition bind {A B : Type} (m : result A) (f : A -> result B) : result B :=
  match m with
  | Ok a => f a
  | Raise e => Raise e
  end.

Declare Scope py_scope.
Delimit Scope py_scope with py.
Notation "x <-- m ;; k" := (bind m (fun x => k))
  (at level 61, m at next level, right associativity) : py_scope.
Notation "' p <-- m ;; k" := (bind m (fun x => let p := x in k))
  (at level 61, p pattern, m at next level, right associativity) : py_scope.
Local Open Scope py_scope.

Definition is_ok {A : Type} (m : result A) : bool :=
  if m is Ok _ then true else false.

Definition raises {A : Type} (m : result A) : bool :=
  if m is Raise _ then true else false.

(** ** Dictionaries *)

Section Dict.
Variables (K : eqType) (V : Type).

(** A Python dict as an association list; the first binding of a key is
    the live one. *)
Definition dict : Type := seq (K * V).

Fixpoint dict_get (d : dict) (k : K) : option V :=
  if d is (k', v) :: d' then if k' == k then Some v else dict_get d' k
  else None.

(** [d.get(k, default)] *)
Definition dict_get_default (d : dict) (k : K) (dflt : V) : V :=
  if dict_get d k is Some v then v else dflt.

(** [d[k]], raising [KeyError] on a missing key *)
Definition dict_item (d : dict) (k : K) : result V :=
  if dict_get d k is Some v then Ok v else Raise KeyError.

(** [d[k] = v] *)
Fixpoint dict_set (d : dict) (k : K) (v : V) : dict :=
  if d is (k', v') :: d' then
    if k' == k then (k, v) :: d' else (k', v') :: dict_set d' k v
  else [:: (k, v)].

End Dict.

(** ** [glasscatalog.py]: [IndexFormulaContainer] *)

Module GlassCatalog.

(** The local functions of [set_n_function], and the interpolant that
    [scipy.interpolate.interp1d] builds. *)
Inductive n_func : Type :=
| Interp1d
| Sellmeier
| Sellmeier2
| Polynomial
| refractiveindex_dot_info_formula_with_9_or_less_coefficients
| refractiveindex_dot_info_formula_with_11_or_more_coefficients
| Cauchy
| Gases
| Herzberger
| Retro
| Exotic.

Inductive k_func : Type :=
| Interp1d_k
| Lossless.

Section Container.

(** Floating-point numbers and coefficient arrays are those of numpy;
    the arithmetic of the implemented formulas is kept abstract. *)
Variable num : Type.
Variable coeffs : Type.
(** [len(self.n_coeff)] *)
Variable len : coeffs -> nat.
(** [0.001 * wavelength] *)
Variable milli : num -> num.
(** the value an implemented formula computes with numpy *)
Variable numpy_formula : n_func -> coeffs -> num -> result num.
(** [scipy.interpolate.interp1d(c[0,:], c[1,:])] may reject its data *)
Variable interp1d : coeffs -> result unit.
Variable interp1d_k_value : coeffs -> num -> result num.
Variable zero : num.

(** The instance attributes. An attribute that has never been assigned
    is [None]; [n_fucntion] is the attribute the source assigns in the
    branch of "formula  8". *)
Record IndexFormulaContainer : Type := mkContainer {
  n_coeff : option coeffs;
  n_function : option n_func;
  n_fucntion : option n_func;
  k_coeff : option coeffs;
  k_function : option k_func
}.

Definition new_object : IndexFormulaContainer :=
  mkContainer None None None None None.

Definition set_n_function (self : IndexFormulaContainer) (n_typ : string)
    (n_coeff' : coeffs) : result IndexFormulaContainer :=
  let self := mkContainer (Some n_coeff') (n_function self) (n_fucntion self)
                (k_coeff self) (k_function self) in
  let assign f := Ok (mkContainer (n_coeff self) (Some f) (n_fucntion self)
                        (k_coeff self) (k_function self)) in
  if n_typ == "tabulated n"%string then
    _ <-- interp1d n_coeff' ;; assign Interp1d
  else if n_typ == "formula  1"%string then assign Sellmeier
  else if n_typ == "formula  2"%string then assign Sellmeier2
  else if n_typ == "formula  3"%string then assign Polynomial
  else if n_typ == "formula  4"%string then
    if 10 < len n_coeff' then
      assign refractiveindex_dot_info_formula_with_11_or_more_coefficients
    else
      assign refractiveindex_dot_info_formula_with_9_or_less_coefficients
  else if n_typ == "formula  5"%string then assign Cauchy
  else if n_typ == "formula  6"%string then assign Gases
  else if n_typ == "formula  7"%string then assign Herzberger
  else if n_typ == "formula  8"%string then
    Ok (mkContainer (n_coeff self) (n_function self) (Some Retro)
          (k_coeff self) (k_function self))
  else if n_typ == "formula  9"%string then assign Exotic
  else Ok self.

(** [k_typ] defaults to the integer 0, which equals no string: [None]
    stands for that default. *)
Definition set_k_function (self : IndexFormulaContainer)
    (k_typ : option string) (k_coeff' : coeffs) : result IndexFormulaContainer :=
  let assign f := Ok (mkContainer (n_coeff self) (n_function self)
                        (n_fucntion self) (Some k_coeff') (Some f)) in
  if k_typ == Some "tabulated k"%string then
    _ <-- interp1d k_coeff' ;; assign Interp1d_k
  else assign Lossless.

(** [IndexFormulaContainer(n_typ, n_coeff, k_typ, k_coeff)] *)
Definition init (n_typ : string) (n_coeff' : coeffs)
    (k_typ : option string) (k_coeff' : coeffs) : result IndexFormulaContainer :=
  self <-- set_n_function new_object n_typ n_coeff' ;;
  set_k_function self k_typ k_coeff'.

(** Calling one of the local functions of [set_n_function]. *)
Definition call_n_func (self : IndexFormulaContainer) (f : n_func)
    (w_um : num) : result num :=
  match f with
  | Retro => Raise NotImplementedError
  | Exotic => Raise NotImplementedError
  | _ => if n_coeff self is Some c then numpy_formula f c w_um
         else Raise AttributeError
  end.

(** [self.n_function(w_um = 0.001 * wavelength)]: the attribute is
    looked up first. *)
Definition get_n (self : IndexFormulaContainer) (wavelength : num) : result num :=
  if n_function self is Some f then call_n_func self f (milli wavelength)
  else Raise AttributeError.

Definition get_k (self : IndexFormulaContainer) (wavelength : num) : result num :=
  match k_function self with
  | Some Lossless => Ok zero
  | Some Interp1d_k =>
      if k_coeff self is Some c then interp1d_k_value c (milli wavelength)
      else Raise AttributeError
  | None => Raise AttributeError
  end.

End Container.

End GlassCatalog.

(** ** [optical_element.py]: sequences and hit lists *)

(** The values an options dictionary holds, with Python's truth value. *)
Inductive pyvalue : Type :=
| PyNone
| PyBool (b : bool)
| PyInt (n : nat)
| PyStr (s : string).

Definition truthy (v : pyvalue) : bool :=
  match v with
  | PyNone => false
  | PyBool b => b
  | PyInt n => n != 0
  | PyStr s => s != EmptyString
  end.

Definition options : Type := dict string pyvalue.

(** A sequence is a list of [(surface key, options)] pairs. *)
Definition Sequence : Type := seq (string * options).

(** A hit [(start key, end key, hit index)]. *)
Definition hit : Type := (string * string * nat)%type.

Definition hit_pair (h : hit) : string * string := h.1.
Definition hit_index (h : hit) : nat := h.2.

(** [s[:-1]] *)
Definition all_but_last {T : Type} (s : seq T) : seq T := take (size s).-1 s.

(** The body of the loop of [sequence_to_hitlist], over the zipped
    consecutive pairs. *)
Fixpoint hitlist_loop (pairs : seq ((string * options) * (string * options)))
    (hitlist_dict : dict (string * string)%type nat) (hitlist : seq hit)
    (optionshitlistdict : dict hit (options * options)%type)
    : seq hit * dict hit (options * options)%type :=
  if pairs is ((sb, optsb), (se, optse)) :: pairs' then
    let hit := dict_get_default hitlist_dict (sb, se) 0 in
    let hit := hit.+1 in
    let hitlist_dict := dict_set hitlist_dict (sb, se) hit in
    hitlist_loop pairs' hitlist_dict (rcons hitlist (sb, se, hit))
      (dict_set optionshitlistdict (sb, se, hit) (optsb, optse))
  else (hitlist, optionshitlistdict).

Definition sequence_to_hitlist (sequence : Sequence)
    : seq hit * dict hit (options * options)%type :=
  let surfnames := [seq (e.1, e.2) | e <- sequence] in
  hitlist_loop (zip (all_but_last surfnames) (behead surfnames)) [::] [::] [::].

(** The hit indices the hit list gives to one ordered pair of keys, in
    hit-list order. *)
Definition hits_of (p : string * string) (hitlist : seq hit) : seq nat :=
  [seq hit_index h | h <- hitlist & hit_pair h == p].

(** ** [optical_element.py]: the sequential tracer *)

(** Material objects are compared by [id]: a material is a reference. *)
Definition MatRef : Type := nat.

(** Ray bundles are mutable objects: a bundle is a location of the
    store. *)
Definition loc : Type := nat.

(** Modelled from the spec: the class [RayPath] of [ray.py], which is not
    among the sources: an ordered history of ray bundles, created from one
    initial bundle and grown by [appendRayBundle]. *)
Record RayPath : Type := mkRayPath { raybundles : seq loc }.

Lemma raybundlesK : cancel raybundles mkRayPath.
Proof. by case. Qed.

HB.instance Definition _ := Equality.copy RayPath (can_type raybundlesK).

Definition appendRayBundle (rp : RayPath) (rb : loc) : RayPath :=
  mkRayPath (rcons (raybundles rp) rb).

(** [s[-1]] and [s[0]] *)
Definition getitem_last {T : Type} (s : seq T) : result T :=
  if s is x :: s' then Ok (last x s') else Raise IndexError.

Definition getitem_first {T : Type} (s : seq T) : result T :=
  if s is x :: _ then Ok x else Raise IndexError.

(** The optical element: its three private dictionaries. *)
Record OpticalElement (Surface : Type) : Type := mkOpticalElement {
  surfaces : dict string Surface;
  materials : dict string MatRef;
  surf_mat_connection : dict string (string * string)%type
}.

(** The last bundle of a path, [rp.raybundles[-1]] of a non-empty path. *)
Definition last_bundle (rp : RayPath) : loc := last 0 (raybundles rp).

(** All the bundles that some path of a list refers to. *)
Definition locs_of (rps : seq RayPath) : seq loc :=
  flatten [seq raybundles rp | rp <- rps].

(** Whether the options of an entry make it a reflection:
    [surfoptions.get("is_mirror", False)]. *)
Definition is_mirror (surfoptions : options) : bool :=
  truthy (dict_get_default surfoptions "is_mirror"%string (PyBool false)).

Definition findoutWhichMaterial (mat1 mat2 current_mat : MatRef) : MatRef :=
  if mat1 == current_mat then mat2 else mat1.

(** The calls made to the materials, recorded in order (ghost state). *)
Inductive call : Type :=
| CallPropagate (m : MatRef) (b : loc)
| CallRefract (m : MatRef) (b : loc)
| CallReflect (m : MatRef) (b : loc).

Definition is_refract_call (c : call) : bool :=
  if c is CallRefract _ _ then true else false.

Inductive interaction : Type := Refraction | Reflection.

Definition call_of (op : interaction) : MatRef -> loc -> call :=
  if op is Refraction then CallRefract else CallReflect.

(** Locations allocated while the store grows from size [a] to size [b]:
    pairwise distinct and within these bounds. *)
Definition fresh_in (a b : nat) (ls : seq loc) : bool :=
  uniq ls && all (fun l => a <= l < b) ls.

Section SeqTrace.

Variables (Bundle Surface : Type).

(** Modelled from the spec: the Material contract. [propagate] advances
    the bundle it is given in place; [refract] and [reflect] return a
    list of newly built bundles. *)
Record Material : Type := mkMaterial {
  propagate : Bundle -> Surface -> Bundle;
  refract : Bundle -> Surface -> bool -> seq Bundle;
  reflect : Bundle -> Surface -> bool -> seq Bundle
}.

(** The material object a reference denotes. *)
Variable material_at : MatRef -> Material.

Definition Store : Type := seq Bundle.

Record state : Type := mkState {
  store : Store;
  current_material : MatRef;
  rpaths : seq RayPath;
  calls : seq call
}.

Variable self : OpticalElement Surface.
(** The bundle handed to [seqtrace]; it also fills the store where a
    reference dangles, which never happens for a path of the tracer. *)
Variable raybundle : Bundle.
Variable background_medium : MatRef.
Variable splitup : bool.

Definition deref (st : Store) (l : loc) : Bundle := nth raybundle st l.

(** The bundles of a path, by value. *)
Definition path_contents (st : Store) (rp : RayPath) : seq Bundle :=
  [seq deref st l | l <- raybundles rp].

(** New objects are allocated at the end of the store. *)
Definition alloc (st : Store) (bs : seq Bundle) : Store * seq loc :=
  (st ++ bs, iota (size st) (size bs)).

(** [deepcopy(rp)]: every bundle of the path is copied to a new object;
    a bundle occurring twice in the path is copied once. *)
Definition deepcopy (st : Store) (rp : RayPath) : Store * RayPath :=
  let ls := undup (raybundles rp) in
  (st ++ [seq deref st l | l <- ls],
   mkRayPath [seq size st + index l ls | l <- raybundles rp]).

(** [for rp in rpaths: current_material.propagate(rp.raybundles[-1], surface)] *)
Fixpoint propagate_all (m : MatRef) (current_surface : Surface) (st : Store)
    (cs : seq call) (rps : seq RayPath) : result (Store * seq call) :=
  if rps is rp :: rps' then
    current_bundle <-- getitem_last (raybundles rp) ;;
    let b := propagate (material_at m) (deref st current_bundle) current_surface in
    propagate_all m current_surface (set_nth raybundle st current_bundle b)
      (rcons cs (CallPropagate m current_bundle)) rps'
  else Ok (st, cs).

(** [for rb in raybundles[1:]: rpathprime = deepcopy(rp); ...] *)
Fixpoint branch (st : Store) (rp : RayPath) (rbs : seq loc)
    (rpaths_new : seq RayPath) : Store * seq RayPath :=
  if rbs is rb :: rbs' then
    let: (st', rpathprime) := deepcopy st rp in
    branch st' rp rbs' (rcons rpaths_new (appendRayBundle rpathprime rb))
  else (st, rpaths_new).

Definition interact (op : interaction) (m : Material)
    : Bundle -> Surface -> bool -> seq Bundle :=
  if op is Refraction then refract m else reflect m.

(** The loop over the live paths in either branch of [if refract_flag].
    [finished] collects the paths already extended in place. *)
Fixpoint interact_all (op : interaction) (m : MatRef) (current_surface : Surface)
    (st : Store) (cs : seq call) (finished rpaths_new : seq RayPath)
    (rps : seq RayPath)
    : result (Store * seq call * seq RayPath * seq RayPath) :=
  if rps is rp :: rps' then
    current_bundle <-- getitem_last (raybundles rp) ;;
    let: (st1, rbs) :=
      alloc st (interact op (material_at m) (deref st current_bundle)
                  current_surface splitup) in
    let: (st2, rpaths_new') := branch st1 rp (behead rbs) rpaths_new in
    rb0 <-- getitem_first rbs ;;
    interact_all op m current_surface st2
      (rcons cs (call_of op m current_bundle))
      (rcons finished (appendRayBundle rp rb0)) rpaths_new' rps'
  else Ok (st, cs, finished, rpaths_new).

(** One iteration of [for (surfkey, surfoptions) in sequence]. *)
Definition seqtrace_entry (s : state) (entry : string * options) : result state :=
  let: (surfkey, surfoptions) := entry in
  let refract_flag := ~~ is_mirror surfoptions in
  current_surface <-- dict_item (surfaces self) surfkey ;;
  mats <-- dict_item (surf_mat_connection self) surfkey ;;
  let mnmat := dict_get_default (materials self) mats.1 background_medium in
  let pnmat := dict_get_default (materials self) mats.2 background_medium in
  r <-- propagate_all (current_material s) current_surface (store s) (calls s)
         (rpaths s) ;;
  if refract_flag then
    let current_material' :=
      findoutWhichMaterial mnmat pnmat (current_material s) in
    r' <-- interact_all Refraction current_material' current_surface r.1 r.2
            [::] [::] (rpaths s) ;;
    let: (st, cs, finished, rpaths_new) := r' in
    Ok (mkState st current_material' (finished ++ rpaths_new) cs)
  else
    r' <-- interact_all Reflection (current_material s) current_surface r.1 r.2
            [::] [::] (rpaths s) ;;
    let: (st, cs, finished, rpaths_new) := r' in
    Ok (mkState st (current_material s) (finished ++ rpaths_new) cs).

(** Whether locations refer to objects of a store. *)
Definition in_store (st : Store) (ls : seq loc) : bool :=
  all (fun l => l < size st) ls.

(** A path that, taken alone, is a non-empty list of distinct objects of
    the store. *)
Definition path_ok (st : Store) (rp : RayPath) : bool :=
  [&& uniq (raybundles rp), in_store st (raybundles rp)
    & 0 < size (raybundles rp)].

(** The bundles [refract] or [reflect] returns for a path, from the store
    in which it is called. *)
Definition outgoing (op : interaction) (m : MatRef) (current_surface : Surface)
    (st : Store) (rp : RayPath) : seq Bundle :=
  interact op (material_at m) (deref st (last_bundle rp)) current_surface splitup.

(** Paths are well formed in a store when they are not empty, refer to
    objects of the store, and no bundle object occurs twice in them,
    neither in one path nor in two. *)
Definition wf_paths (st : Store) (rps : seq RayPath) : bool :=
  [&& uniq (locs_of rps), all (fun l => l < size st) (locs_of rps)
    & all (fun rp => 0 < size (raybundles rp)) rps].

Fixpoint seqtrace_loop (s : state) (sequence : Sequence) : result state :=
  if sequence is entry :: sequence' then
    s' <-- seqtrace_entry s entry ;; seqtrace_loop s' sequence'
  else Ok s.

(** The state before the loop: the caller's bundle is the only object,
    and [RayPath(raybundle)] the only path. *)
Definition initial_state : state :=
  mkState [:: raybundle] background_medium [:: mkRayPath [:: 0]] [::].

(** [seqtrace] returns the list of paths; the store that goes with it is
    what the references of the paths mean. *)
Definition seqtrace (sequence : Sequence) : result (Store * seq RayPath) :=
  s <-- seqtrace_loop initial_state sequence ;; Ok (store s, rpaths s).

End SeqTrace.

(** ** [optical_element.py]: the pilot linearizer *)

(** What the logger receives. The texts of the warnings are those of the
    source; the formatted numbers of [info] and [debug] are left out. *)
Inductive log_event : Type :=
| Warning (msg : string)
| Info
| Debug.

Definition is_warning (ev : log_event) : bool :=
  if ev is Warning _ then true else false.

(** A computation that logs and may raise; what was logged before an
    exception stays logged. *)
Definition logged (A : Type) : Type := (seq log_event * result A)%type.

Definition lret {A : Type} (a : A) : logged A := ([::], Ok a).

Definition lbind {A B : Type} (m : logged A) (f : A -> logged B) : logged B :=
  match m with
  | (l, Ok a) => let: (l', r) := f a in (l ++ l', r)
  | (l, Raise e) => (l, Raise e)
  end.

Definition emit (ev : log_event) : logged unit := ([:: ev], Ok tt).

Definition lift {A : Type} (r : result A) : logged A := ([::], r).

Notation "x <== m ;; k" := (lbind m (fun x => k))
  (at level 61, m at next level, right associativity) : py_scope.

(** [s[i]] *)
Definition getitem {T : Type} (s : seq T) (i : nat) : result T :=
  if i < size s then
    if drop i s is x :: _ then Ok x else Raise IndexError
  else Raise IndexError.

Import GRing.Theory.
Local Open Scope ring_scope.

(** In 6-row mode a reduced state has two position rows, two rows of real
    parts and two rows of imaginary parts of the direction; in 4-row mode
    two position rows and two direction rows. *)
Definition kdim (use6x6 : bool) : nat := if use6x6 then (2 + 2)%N else 2%N.
Definition rows (use6x6 : bool) : nat := (2 + kdim use6x6)%N.

Section Linearizer.

(** The numbers of numpy, complex ones included, with exact arithmetic. *)
Variable C : fieldType.
(** [z.real] and [z.imag], and [complex(0, 1)] *)
Variables (Re Im : C -> C) (imag_unit : C).
(** How [np.linalg.norm(M)] compares with [numerical_tolerance], a
    constant of [globalconstants.py]. *)
Variable compare_norm : forall m n : nat, 'M[C]_(m, n) -> comparison.

Definition norm_lt_tolerance (m n : nat) (M : 'M[C]_(m, n)) : bool :=
  if compare_norm M is Lt then true else false.

Definition norm_gt_tolerance (m n : nat) (M : 'M[C]_(m, n)) : bool :=
  if compare_norm M is Gt then true else false.

(** [np.einsum('ij, kj', A, B)]: the output indices are [i] and [k]. *)
Definition einsum_ij_kj (r1 r2 n : nat) (A : 'M[C]_(r1, n)) (B : 'M[C]_(r2, n))
    : 'M[C]_(r1, r2) :=
  \matrix_(i, k) \sum_j A i j * B k j.

(** [np.linalg.inv] in exact arithmetic: the inverse of an invertible
    matrix, [LinAlgError] on a singular one. Rounding is not modelled:
    in floating point numpy raises only when its factorization meets a
    pivot that is exactly zero, and what it returns is the inverse up to
    rounding. *)
Definition linalg_inv (r : nat) (A : 'M[C]_r) : result 'M[C]_r :=
  if A \in unitmx then Ok (invmx A) else Raise LinAlgError.

(** [A[4:, 4:] = np.eye(2)], index by index *)
Definition set_eye_from_4 (r : nat) (A : 'M[C]_r) : 'M[C]_r :=
  \matrix_(i, j) if (4 <= i)%N && (4 <= j)%N then (i == j)%:R else A i j.

(** [X[4:, :]] of a matrix of six rows *)
Definition rows_from_4 (n : nat) (X : 'M[C]_(rows true, n)) : 'M[C]_(2, n) :=
  dsubmx (dsubmx X).

(** [X[2:4, :]] of a matrix of six rows: the real parts of the direction *)
Definition rows_2_to_4 (n : nat) (X : 'M[C]_(rows true, n)) : 'M[C]_(2, n) :=
  usubmx (dsubmx X).

(** The test of [bestfit_transfer] under [if use6x6]: whether [Ximag] or
    [Yimag] has a norm below the tolerance. *)
Definition imag_rows_near_zero (use6x6 : bool) (n : nat)
    : 'M[C]_(rows use6x6, n) -> 'M[C]_(rows use6x6, n) -> bool :=
  match use6x6 with
  | true => fun X Y =>
      let Ximag := rows_from_4 X in
      let Yimag := rows_from_4 Y in
      norm_lt_tolerance Ximag || norm_lt_tolerance Yimag
  | false => fun _ _ => false
  end.

Definition bestfit_transfer (use6x6 : bool) (n : nat)
    (X Y : 'M[C]_(rows use6x6, n)) : logged 'M[C]_(rows use6x6) :=
  let XX := (einsum_ij_kj X X)^T in
  let YX := (einsum_ij_kj X Y)^T in
  normal <== (if use6x6 then
                if imag_rows_near_zero X Y then
                  _ <== emit (Warning
                    "Start or end matrix contain zero rows: setting them to unity") ;;
                  lret (set_eye_from_4 XX, set_eye_from_4 YX)
                else lret (XX, YX)
              else lret (XX, YX)) ;;
  XXinv <== lift (linalg_inv normal.1) ;;
  let transfer := normal.2 *m XXinv in
  _ <== (if ~~ use6x6 then
           if norm_gt_tolerance (map_mx Im (ulsubmx transfer)) then
             emit (Warning
               "The XX transfer part contains imaginary values. please consider using use6x6=True.")
           else lret tt
         else lret tt) ;;
  _ <== emit Debug ;;
  lret transfer.

(** What the end of [bestfit_transfer] logs after the inversion. *)
Definition fit_messages (use6x6 : bool) (transfer : 'M[C]_(rows use6x6))
    : seq log_event :=
  (if ~~ use6x6 && norm_gt_tolerance (map_mx Im (ulsubmx transfer)) then
     [:: Warning
           "The XX transfer part contains imaginary values. please consider using use6x6=True."]
   else [::]) ++ [:: Debug].

End Linearizer.

(** Modelled from the spec: the class [RayBundle] of [ray.py], which is
    not among the sources. A bundle of N rays keeps, per trace step, the
    3 x N positions and directions, the field and the validity mask, and
    once the ray identifiers and the wavelength. *)
Record RayBundle (C : fieldType) (N : nat) : Type := mkRayBundle {
  ray_x : seq 'M[C]_(2 + 1, N);
  ray_k : seq 'M[C]_(2 + 1, N);
  Efield : seq 'M[C]_(2 + 1, N);
  valid : seq 'rV[bool]_N;
  rayID : 'rV[nat]_N;
  wave : C
}.

Section PilotLinearizer.

Variable C : fieldType.
Variables (Re Im : C -> C) (imag_unit : C).
Variable compare_norm : forall m n : nat, 'M[C]_(m, n) -> comparison.

(** Surfaces and their coordinate frames, with the four conversions of a
    frame between global and local coordinates. *)
Variables (Surface Frame : Type).
Variable rootcoordinatesystem : Surface -> Frame.
Variable returnGlobalToLocalPoints :
  Frame -> forall N : nat, 'M[C]_(2 + 1, N) -> 'M[C]_(2 + 1, N).
Variable returnGlobalToLocalDirections :
  Frame -> forall N : nat, 'M[C]_(2 + 1, N) -> 'M[C]_(2 + 1, N).
Variable returnLocalToGlobalPoints :
  Frame -> forall N : nat, 'M[C]_(2 + 1, N) -> 'M[C]_(2 + 1, N).
Variable returnLocalToGlobalDirections :
  Frame -> forall N : nat, 'M[C]_(2 + 1, N) -> 'M[C]_(2 + 1, N).

(** What [RayBundle(x0, k0, None, ...)] puts in the field and in the
    validity mask of the new bundle; the spec does not say. *)
Variable default_Efield : forall N : nat, 'M[C]_(2 + 1, N).
Variable initial_valid : forall N : nat, 'rV[bool]_N.

(** [RayBundle(x0, k0, Efield0, rayID, wave=wave)] *)
Definition RayBundle_init (N : nat) (x0 k0 : 'M[C]_(2 + 1, N))
    (Efield0 : option 'M[C]_(2 + 1, N)) (rayID0 : 'rV[nat]_N) (wave0 : C)
    : RayBundle C N :=
  mkRayBundle [:: x0] [:: k0]
    [:: if Efield0 is Some E then E else default_Efield N]
    [:: initial_valid N] rayID0 wave0.

(** [bundle.append(xnew, knew, Enew, Vnew)] *)
Definition RayBundle_append (N : nat) (b : RayBundle C N)
    (xnew knew Enew : 'M[C]_(2 + 1, N)) (Vnew : 'rV[bool]_N) : RayBundle C N :=
  mkRayBundle (rcons (ray_x b) xnew) (rcons (ray_k b) knew)
    (rcons (Efield b) Enew) (rcons (valid b) Vnew) (rayID b) (wave b).

(** The pilot bundle has the pilot ray in column 0 and [n] more rays. *)
Variable n : nat.

Local Notation PilotBundle := (RayBundle C (1 + n)).

Variable material_at : MatRef -> Material PilotBundle Surface.
Variable self : OpticalElement Surface.

(** [m - m[:, 0].reshape((3, 1))]: the pilot ray subtracted from every
    column. *)
Definition minus_pilot (m : 'M[C]_(2 + 1, 1 + n)) : 'M[C]_(2 + 1, 1 + n) :=
  \matrix_(i, j) (m i j - m i ord0).

Definition reduce_matrix_x (m : 'M[C]_(2 + 1, 1 + n)) : 'M[C]_(2, n) :=
  rsubmx (usubmx (minus_pilot m)).

Definition reduce_matrix_k (m : 'M[C]_(2 + 1, 1 + n)) : 'M[C]_(2, n) :=
  reduce_matrix_x m.

Definition reduce_matrix_k_real (m : 'M[C]_(2 + 1, 1 + n)) : 'M[C]_(2, n) :=
  map_mx Re (rsubmx (usubmx (minus_pilot m))).

Definition reduce_matrix_k_imag (m : 'M[C]_(2 + 1, 1 + n)) : 'M[C]_(2, n) :=
  map_mx Im (rsubmx (usubmx (minus_pilot m))).

(** [np.vstack((xred, kred_real, kred_imag))] if [use6x6], and
    [np.vstack((xred, kred))] otherwise *)
Definition vstack_state (use6x6 : bool) (N : nat)
    (xred kred kred_real kred_imag : 'M[C]_(2, N)) : 'M[C]_(rows use6x6, N) :=
  col_mx xred
    (match use6x6 return 'M[C]_(kdim use6x6, N) with
     | true => col_mx kred_real kred_imag
     | false => kred
     end).

(** The body of the loop of [calculateXYUV] down to [transfer]; the fit
    of [transfer_comparison] is made, and may raise, but its result is
    not used. *)
Definition interval_transfer (use6x6 : bool) (pb1 pb2 : PilotBundle)
    (surfhit : hit) : logged 'M[C]_(rows use6x6) :=
  let: (s1, s2, numhit) := surfhit in
  surf1 <== lift (dict_item (surfaces self) s1) ;;
  let lcstart := rootcoordinatesystem surf1 in
  surf2 <== lift (dict_item (surfaces self) s2) ;;
  let lcend := rootcoordinatesystem surf2 in
  pb1_x <== lift (getitem_last (ray_x pb1)) ;;
  let startx := returnGlobalToLocalPoints lcstart pb1_x in
  pb1_k <== lift (getitem_last (ray_k pb1)) ;;
  let startk := returnGlobalToLocalDirections lcstart pb1_k in
  pb2_x0 <== lift (getitem_first (ray_x pb2)) ;;
  let fspropx := returnGlobalToLocalPoints lcstart pb2_x0 in
  pb2_k0 <== lift (getitem_first (ray_k pb2)) ;;
  let fspropk := returnGlobalToLocalDirections lcstart pb2_k0 in
  pb2_x <== lift (getitem_last (ray_x pb2)) ;;
  let endx_lcstart := returnGlobalToLocalPoints lcstart pb2_x in
  pb2_k <== lift (getitem_last (ray_k pb2)) ;;
  let endk_lcstart := returnGlobalToLocalDirections lcstart pb2_k in
  let endx := returnGlobalToLocalPoints lcend pb2_x in
  let endk := returnGlobalToLocalDirections lcend pb2_k in
  let reduced x k :=
    vstack_state use6x6 (reduce_matrix_x x) (reduce_matrix_k k)
      (reduce_matrix_k_real k) (reduce_matrix_k_imag k) in
  _ <== emit Debug ;;
  let startmatrix := reduced startx startk in
  let fspropmatrix := reduced fspropx fspropk in
  let endmatrix_lcstart := reduced endx_lcstart endk_lcstart in
  let endmatrix := reduced endx endk in
  _ <== emit Debug ;;
  refractmatrix <== bestfit_transfer Im compare_norm startmatrix fspropmatrix ;;
  _ <== emit Debug ;;
  propagatematrix <==
    bestfit_transfer Im compare_norm fspropmatrix endmatrix_lcstart ;;
  _ <== emit Debug ;;
  coordinatetrafomatrix <==
    bestfit_transfer Im compare_norm endmatrix_lcstart endmatrix ;;
  _ <== emit Debug ;;
  let transfer := coordinatetrafomatrix *m (propagatematrix *m refractmatrix) in
  _ <== emit Debug ;;
  transfer_comparison <== bestfit_transfer Im compare_norm startmatrix endmatrix ;;
  _ <== emit Debug ;;
  _ <== emit Debug ;;
  lret transfer.

(** The two assignments that end the body of the loop. *)
Definition store_transfer (use6x6 : bool)
    (XYUVmatrices : dict hit 'M[C]_(rows use6x6)) (surfhit : hit)
    (transfer : 'M[C]_(rows use6x6))
    : result (dict hit 'M[C]_(rows use6x6)) :=
  let: (s1, s2, numhit) := surfhit in
  let XYUVmatrices := dict_set XYUVmatrices (s1, s2, numhit) transfer in
  transfer_inv <-- linalg_inv transfer ;;
  Ok (dict_set XYUVmatrices (s2, s1, numhit) transfer_inv).

(** [for (pb1, pb2, surfhit) in zip(startpilotbundle, endpilotbundle, hitlist)] *)
Fixpoint calculateXYUV_loop (use6x6 : bool)
    (intervals : seq (PilotBundle * PilotBundle * hit))
    (XYUVmatrices : dict hit 'M[C]_(rows use6x6))
    : logged (dict hit 'M[C]_(rows use6x6)) :=
  if intervals is (pb1, pb2, surfhit) :: intervals' then
    transfer <== interval_transfer use6x6 pb1 pb2 surfhit ;;
    XYUVmatrices' <== lift (store_transfer XYUVmatrices surfhit transfer) ;;
    calculateXYUV_loop intervals' XYUVmatrices'
  else lret XYUVmatrices.

(** The bundles of the pilot path taken two by two, with the hits. *)
Definition pilot_intervals (bundles : seq PilotBundle) (hitlist : seq hit)
    : seq (PilotBundle * PilotBundle * hit) :=
  zip (zip (all_but_last bundles) (behead bundles)) hitlist.

(** [calculateXYUV] returns the pilot path, here with the store its
    references point into, and the table of transfer matrices. *)
Definition calculateXYUV (pilotinitbundle : PilotBundle) (sequence : Sequence)
    (background_medium : MatRef) (pilotraypath_nr : nat) (use6x6 : bool)
    : logged (Store PilotBundle * RayPath * dict hit 'M[C]_(rows use6x6)) :=
  let: (hitlist, optionshitlistdict) := sequence_to_hitlist sequence in
  traced <== lift (seqtrace material_at self pilotinitbundle background_medium
                     true sequence) ;;
  let: (st, pilotraypaths) := traced in
  _ <== emit Info ;;
  _ <== emit Info ;;
  pilotraypath <== lift (getitem pilotraypaths pilotraypath_nr) ;;
  let bundles := path_contents pilotinitbundle st pilotraypath in
  XYUVmatrices <==
    calculateXYUV_loop (pilot_intervals bundles hitlist) [::] ;;
  lret (st, pilotraypath, XYUVmatrices).

(** [A - p] and [A + p] for a single column [p], by broadcasting *)
Definition minus_column (r N : nat) (A : 'M[C]_(r, N)) (p : 'M[C]_(r, 1))
    : 'M[C]_(r, N) :=
  \matrix_(i, j) (A i j - p i ord0).

Definition plus_column (r N : nat) (A : 'M[C]_(r, N)) (p : 'M[C]_(r, 1))
    : 'M[C]_(r, N) :=
  \matrix_(i, j) (A i j + p i ord0).

(** [DX1[2:4] + complex(0, 1) * DX1[4:6]] if [use6x6], [DX1[2:4]]
    otherwise *)
Definition direction_of_state (use6x6 : bool) (N : nat)
    : 'M[C]_(rows use6x6, N) -> 'M[C]_(2, N) :=
  match use6x6 with
  | true => fun DX1 => usubmx (dsubmx DX1) + imag_unit *: dsubmx (dsubmx DX1)
  | false => fun DX1 => dsubmx DX1
  end.

(** [np.vstack((d, np.zeros(num_pts, dtype=complex)))] *)
Definition vstack_zeros (N : nat) (d : 'M[C]_(2, N)) : 'M[C]_(2 + 1, N) :=
  col_mx d (0 : 'M[C]_(1, N)).

(** The local coordinates that the body of the loop of [para_seqtrace]
    converts to global ones: positions [dx1 + px1] and directions
    [dk1 + pk1]. *)
Definition para_local (use6x6 : bool) (N : nat)
    (matrix : 'M[C]_(rows use6x6)) (lcstart lcend : Frame)
    (ps_x ps_k pe_x pe_k : 'M[C]_(2 + 1, 1 + n))
    (x0_glob k0_glob : 'M[C]_(2 + 1, N))
    : 'M[C]_(2 + 1, N) * 'M[C]_(2 + 1, N) :=
  let x0 := returnGlobalToLocalPoints lcstart x0_glob in
  let k0 := returnGlobalToLocalDirections lcstart k0_glob in
  let px0 := returnGlobalToLocalPoints lcstart (col ord0 ps_x) in
  let pk0 := returnGlobalToLocalDirections lcstart (col ord0 ps_k) in
  let px1 := returnGlobalToLocalPoints lcend (col ord0 pe_x) in
  let pk1 := returnGlobalToLocalDirections lcend (col ord0 pe_k) in
  let dx0 := usubmx (minus_column x0 px0) in
  let dk0 := usubmx (minus_column k0 pk0) in
  let DX0 := vstack_state use6x6 dx0 dk0 (map_mx Re dk0) (map_mx Im dk0) in
  let DX1 := matrix *m DX0 in
  let dx1 := usubmx DX1 in
  let dk1 := direction_of_state DX1 in
  let dx1 := vstack_zeros dx1 in
  let dk1 := vstack_zeros dk1 in
  (plus_column dx1 px1, plus_column dk1 pk1).

(** The body of the loop of [para_seqtrace]: the bundle it appends. *)
Definition para_step (use6x6 : bool) (N : nat)
    (matrices : dict hit 'M[C]_(rows use6x6)) (ps pe : PilotBundle)
    (surfhit : hit) (last_bundle : RayBundle C N) : result (RayBundle C N) :=
  let: (surf_start_key, surf_end_key, hit) := surfhit in
  surf_start <-- dict_item (surfaces self) surf_start_key ;;
  surf_end <-- dict_item (surfaces self) surf_end_key ;;
  x0_glob <-- getitem_last (ray_x last_bundle) ;;
  k0_glob <-- getitem_last (ray_k last_bundle) ;;
  let newbundle :=
    RayBundle_init x0_glob k0_glob None (rayID last_bundle) (wave last_bundle) in
  ps_x <-- getitem_last (ray_x ps) ;;
  ps_k <-- getitem_last (ray_k ps) ;;
  pe_x <-- getitem_last (ray_x pe) ;;
  pe_k <-- getitem_last (ray_k pe) ;;
  matrix <-- dict_item matrices surfhit ;;
  let lcstart := rootcoordinatesystem surf_start in
  let lcend := rootcoordinatesystem surf_end in
  let local := para_local matrix lcstart lcend ps_x ps_k pe_x pe_k
                 x0_glob k0_glob in
  let x1 := returnLocalToGlobalPoints lcend local.1 in
  let k1 := returnLocalToGlobalDirections lcend local.2 in
  E0 <-- getitem_first (Efield newbundle) ;;
  Ok (RayBundle_append newbundle x1 k1 E0 (const_mx true)).

(** The loop of [para_seqtrace]; [rpath] holds the bundles of the output
    path by value, the caller's bundle first: the appended bundles are
    new objects that nothing else refers to. *)
Fixpoint para_seqtrace_loop (use6x6 : bool) (N : nat)
    (matrices : dict hit 'M[C]_(rows use6x6))
    (intervals : seq (PilotBundle * PilotBundle * hit))
    (raybundle : RayBundle C N) (rpath : seq (RayBundle C N))
    : result (seq (RayBundle C N)) :=
  if intervals is (ps, pe, surfhit) :: intervals' then
    newbundle <-- para_step matrices ps pe surfhit (last raybundle rpath) ;;
    para_seqtrace_loop matrices intervals' raybundle (rcons rpath newbundle)
  else Ok rpath.

Definition para_seqtrace (N : nat) (pilotbundle : PilotBundle)
    (raybundle : RayBundle C N) (sequence : Sequence)
    (background_medium : MatRef) (pilotraypath_nr : nat) (use6x6 : bool)
    : logged (Store PilotBundle * RayPath * seq (RayBundle C N)) :=
  let rpath := [:: raybundle] in
  linearized <== calculateXYUV pilotbundle sequence background_medium
                   pilotraypath_nr use6x6 ;;
  let: (st, pilotraypath, matrices) := linearized in
  let: (hitlist, optionshitlistdict) := sequence_to_hitlist sequence in
  let bundles := path_contents pilotbundle st pilotraypath in
  rpath' <== lift (para_seqtrace_loop matrices (pilot_intervals bundles hitlist)
                     raybundle rpath) ;;
  lret (st, pilotraypath, rpath').

(** What the specification says of a bundle appended by [para_seqtrace],
    given the frame [lcend] of the surface the hit ends on, the local
    difference state of the rays there (positions [dx1], directions
    [dk1]) and the local coordinates [px1], [pk1] of the pilot ray: the
    difference state is embedded into 3D as [DX] and [DK], whose first
    two rows are [dx1] and [dk1] and whose third row is exactly zero; the
    pilot coordinates are added to them; the last position and direction
    of the bundle are the global coordinates of these sums; and its last
    validity mask is true for every ray. *)
Definition appended_ok (N : nat) (lcend : Frame) (dx1 dk1 : 'M[C]_(2, N))
    (px1 pk1 : 'M[C]_(2 + 1, 1)) (nb : RayBundle C N) : Prop :=
  exists DX DK : 'M[C]_(2 + 1, N),
  [/\ [/\ usubmx DX = dx1, forall j, DX (rshift 2 ord0) j = 0
        & getitem_last (ray_x nb) =
            Ok (returnLocalToGlobalPoints lcend (plus_column DX px1))],
      [/\ usubmx DK = dk1, forall j, DK (rshift 2 ord0) j = 0
        & getitem_last (ray_k nb) =
            Ok (returnLocalToGlobalDirections lcend (plus_column DK pk1))]
    & getitem_last (valid nb) = Ok (const_mx true)].

End PilotLinearizer.


Local Close Scope ring_scope.

End Pyrate.

Import Pyrate.
Local Open Scope py_scope.

(** ** A small system to run the tracer on *)

(** Bundles that only count the surfaces they have crossed; a material
    that leaves a bundle as it is when it propagates it, and returns one
    bundle, or two when it may split. *)
Definition counting_material : Material nat nat :=
  mkMaterial (fun b _ => b)
    (fun b _ splitup => if splitup then [:: b.+1; b.+2] else [:: b.+1])
    (fun b _ _ => [:: b.+1]).

Definition counting_material_at (m : MatRef) : Material nat nat :=
  counting_material.

(** Two surfaces around a glass; the key "air" has no material, so that
    the background medium stands for it. *)
Definition two_surfaces : OpticalElement nat :=
  mkOpticalElement
    [:: ("s1"%string, 1); ("s2"%string, 2)]
    [:: ("glass"%string, 7)]
    [:: ("s1"%string, ("air"%string, "glass"%string));
        ("s2"%string, ("glass"%string, "air"%string))].

Definition through_both : Sequence :=
  [:: ("s1"%string, [::]); ("s2"%string, [::])].

(** The state after the first entry of [through_both], with splitting. *)
Definition after_first_entry : state nat :=
  Eval vm_compute in
    if seqtrace_entry counting_material_at two_surfaces 0 0 true
         (initial_state 0 0) ("s1"%string, [::]) is Ok s
    then s else initial_state 0 0.

(** Bundles that record which material handled them: the material
    denoted by [m] adds [10 * m] when it propagates a bundle, returns
    [b + 100 * m], and its successor when it may split, when it refracts
    [b], and [b + 1000 * m] when it reflects it. *)
Definition marking_material_at (m : MatRef) : Material nat nat :=
  mkMaterial (fun b _ => b + 10 * m)
    (fun b _ splitup =>
       if splitup then [:: b + 100 * m; (b + 100 * m).+1] else [:: b + 100 * m])
    (fun b _ _ => [:: b + 1000 * m]).

(** The state after the first entry of [through_both], with splitting,
    materials that mark the bundles and the background medium 3: two live
    paths, the second one a branch. *)
Definition marked_first : state nat :=
  Eval vm_compute in
    if seqtrace_loop marking_material_at two_surfaces 0 3 true
         (initial_state 0 3) [:: ("s1"%string, [::])] is Ok s
    then s else initial_state 0 3.

(** The second surface as a mirror. *)
Definition as_mirror : options := [:: ("is_mirror"%string, PyBool true)].

(** The states after the second surface, crossed and as a mirror. *)
Definition marked_refracted : state nat :=
  Eval vm_compute in
    if seqtrace_entry marking_material_at two_surfaces 0 3 true
         marked_first ("s2"%string, [::]) is Ok s
    then s else initial_state 0 3.

Definition marked_reflected : state nat :=
  Eval vm_compute in
    if seqtrace_entry marking_material_at two_surfaces 0 3 true
         marked_first ("s2"%string, as_mirror) is Ok s
    then s else initial_state 0 3.

(** ** A small system to linearize *)

Import Order.Theory Num.Theory.
Local Open Scope ring_scope.

(** Real data: rational numbers, which are their own real part and have
    no imaginary part. The norm is the Frobenius norm, compared through
    its square with a tolerance of 1e-14. *)
Definition tolerance_sq_of (digits : nat) : rat := (10%:R ^+ digits)^-1.

Definition tolerance_sq : rat := tolerance_sq_of 28.

Definition frobenius_sq (m n : nat) (M : 'M[rat]_(m, n)) : rat :=
  \sum_i \sum_j (M i j) ^+ 2.

Definition compare_norm_rat (m n : nat) (M : 'M[rat]_(m, n)) : comparison :=
  if frobenius_sq M < tolerance_sq then Lt
  else if frobenius_sq M == tolerance_sq then Eq else Gt.

Definition no_imag (z : rat) : rat := 0.

(** A 6-row state of one ray whose position rows and rows of real parts
    of the direction are zero and whose rows of imaginary parts are not. *)
Definition imag_only : 'M[rat]_(rows true, 1) :=
  col_mx 0 (col_mx 0 (const_mx 1)).

(** Surfaces that all share the global frame. *)
Definition global_frame (lc : unit) (N : nat) (M : 'M[rat]_(2 + 1, N))
    : 'M[rat]_(2 + 1, N) := M.

(** A pilot bundle of the pilot ray and four rays, each displaced by one
    unit in one of the four transverse coordinates. *)
Definition pilot_x0 : 'M[rat]_(2 + 1, 1 + (2 + 2)) :=
  col_mx (row_mx 0 (row_mx 1%:M 0)) 0.

Definition pilot_k0 : 'M[rat]_(2 + 1, 1 + (2 + 2)) :=
  col_mx (row_mx 0 (row_mx 0 1%:M)) 0.

Definition pilot0 : RayBundle rat (1 + (2 + 2)) :=
  mkRayBundle [:: pilot_x0] [:: pilot_k0] [:: 0] [:: const_mx true]
    (const_mx 0%N) 1.

(** The pilot bundle with its positions multiplied by [c]. *)
Definition slab_bundle (c : rat) : RayBundle rat (1 + (2 + 2)) :=
  mkRayBundle [:: c *: pilot_x0] [:: pilot_k0] [:: 0] [:: const_mx true]
    (const_mx 0%N) 1.

(** A material that doubles the positions of a bundle where it refracts
    or reflects it, and propagates it without changing it. *)
Definition magnify (N : nat) (b : RayBundle rat N) : RayBundle rat N :=
  mkRayBundle [seq 2%:R *: x | x <- ray_x b] (ray_k b) (Efield b) (valid b)
    (rayID b) (wave b).

Definition magnifying_material_at (N : nat) (m : MatRef)
    : Material (RayBundle rat N) unit :=
  mkMaterial (fun b _ => b) (fun b _ _ => [:: magnify b])
    (fun b _ _ => [:: magnify b]).

Definition slab : OpticalElement unit :=
  mkOpticalElement
    [:: ("a"%string, tt); ("b"%string, tt)]
    [::]
    [:: ("a"%string, ("air"%string, "glass"%string));
        ("b"%string, ("glass"%string, "air"%string))].

(** Into the slab and back out through the surface of entry. *)
Definition round_trip : Sequence :=
  [:: ("a"%string, [::]); ("b"%string, [::]); ("a"%string, [::])].

(** The transfer matrix that multiplies the two transverse positions by
    [c] and keeps the directions. *)
Definition magnification (c : rat) : 'M[rat]_(rows false) :=
  block_mx c%:M 0 0 1%:M.

(** The table that the linearizer builds on the round trip. *)
Definition round_trip_table : dict hit 'M[rat]_(rows false) :=
  [:: (("a"%string, "b"%string, 1%N), invmx (magnification 2%:R));
      (("b"%string, "a"%string, 1%N), magnification 2%:R)].

(** One ray to propagate along the pilot ray. *)
Definition one_ray : RayBundle rat 1 :=
  mkRayBundle [:: const_mx 1] [:: const_mx 1] [:: 0] [:: const_mx true]
    (const_mx 0%N) 1.

(** Two rays off the plane of the pilot ray: their third coordinates are
    1 and 2, the third components of their directions 1 and 3. *)
Definition two_rays : RayBundle rat (1 + 1) :=
  mkRayBundle [:: row_mx (const_mx 1) (const_mx 2%:R)]
    [:: row_mx (const_mx 1) (const_mx 3%:R)] [:: 0] [:: const_mx true]
    (const_mx 0%N) 1.

Local Close Scope ring_scope.

(** ** [optical_element.py]: from a hit list back to a sequence *)

(** The loop of [hitlist_to_sequence] over [enumerate(hitlist)]; [len] is
    [len(hitlist)], which is at least 1 whenever the body runs, so that
    [len.-1] is [len(hitlist) - 1]. The entries it builds are triples
    [(key, True, options)]. *)
Fixpoint hitlist_to_sequence_loop (len : nat) (items : seq (nat * hit))
    (optionshitlistdict : dict hit (options * options)%type)
    (sequence : seq (string * bool * options))
    : result (seq (string * bool * options)) :=
  if items is (ind, (sb, se, hit)) :: items' then
    opts <-- dict_item optionshitlistdict (sb, se, hit) ;;
    let sequence := rcons sequence (sb, true, opts.1) in
    if ind == len.-1 then
      opts' <-- dict_item optionshitlistdict (sb, se, hit) ;;
      hitlist_to_sequence_loop len items' optionshitlistdict
        (rcons sequence (se, true, opts'.2))
    else hitlist_to_sequence_loop len items' optionshitlistdict sequence
  else Ok sequence.

Definition hitlist_to_sequence
    (arg : seq hit * dict hit (options * options)%type)
    : result (seq (string * bool * options)) :=
  let: (hitlist, optionshitlistdict) := arg in
  hitlist_to_sequence_loop (size hitlist)
    (zip (iota 0 (size hitlist)) hitlist) optionshitlistdict [::].

(** The entry [hitlist_to_sequence] builds for an entry of a sequence. *)
Definition entry_of (e : string * options) : string * bool * options :=
  (e.1, true, e.2).

(** The key under which [calculateXYUV] files the inverse of the transfer
    of a hit: [(s2, s1, numhit)] for the hit [(s1, s2, numhit)]. *)
Definition reverse_hit (h : hit) : hit := (h.1.2, h.1.1, h.2).

(** ** Runs of the tracer on the two surfaces *)

(** The trace through both surfaces with splitting, and the two entries
    of a sequence that crosses the first surface twice. *)
Definition traced_both : Store nat * seq RayPath :=
  Eval vm_compute in
    if seqtrace counting_material_at two_surfaces 0 0 true through_both
    is Ok traced then traced else ([::], [::]).

Definition after_second_crossing : state nat :=
  Eval vm_compute in
    if seqtrace_entry counting_material_at two_surfaces 0 0 true
         after_first_entry ("s1"%string, [::]) is Ok s
    then s else initial_state 0 0.

(** A material whose [refract] and [reflect] return no bundle. *)
Definition absorbing_material_at (m : MatRef) : Material nat nat :=
  mkMaterial (fun b _ => b) (fun _ _ _ => [::]) (fun _ _ _ => [::]).

(** ** Runs of the linearizer on the slab *)

Import GRing.Theory.
Local Open Scope ring_scope.

(** Through the slab once, twice in a row onto its first surface, and
    onto its first surface only. *)
Definition one_crossing : Sequence :=
  [:: ("a"%string, [::]); ("b"%string, [::])].

Definition twice_a : Sequence :=
  [:: ("a"%string, [::]); ("a"%string, [::])].

Definition only_a : Sequence := [:: ("a"%string, [::])].

(** One ray on the pilot ray of [pilot0]. *)
Definition pilot_ray : RayBundle rat 1 :=
  mkRayBundle [:: col ord0 pilot_x0] [:: col ord0 pilot_k0] [:: 0]
    [:: const_mx true] (const_mx 0%N) 1.

Local Close Scope ring_scope.

(** ** [optical_element.py]: building the element *)

(** What [addSurface] and [addMaterial] do: they return, or raise a plain
    [Exception] with a message. *)
Inductive registration (A : Type) : Type :=
| Registered (a : A)
| RaiseException (message : string).

Arguments Registered {A} a.
Arguments RaiseException {A} message.

Section Registration.

(** Surface objects are Python objects with identity: references. *)
Variable Surface : eqType.
Variable Frame : Type.
(** [surface_object.rootcoordinatesystem] and [material_object.lc] *)
Variable rootcoordinatesystem : Surface -> Frame.
Variable lc : MatRef -> Frame.
(** [checkForRootConnection] of the base class
    [LocalCoordinatesTreeBase], which is not among the sources. *)
Variable checkForRootConnection : Frame -> bool.

(** The element together with the attributes its two methods assign on
    other objects: the [name] of a surface object and the [comment] of a
    material object. *)
Record element_state : Type := mkElementState {
  element : OpticalElement Surface;
  surface_name : dict Surface string;
  material_comment : dict MatRef string
}.

(** [self.__surfaces[key]] is then the object just stored, whose [name]
    is assigned. *)
Definition addSurface (self : element_state) (key : string)
    (surface_object : Surface) (materialkeys : string * string)
    (name : string) : registration element_state :=
  let: (minusNmat_key, plusNmat_key) := materialkeys in
  if checkForRootConnection (rootcoordinatesystem surface_object) then
    let surfaces' := dict_set (surfaces (element self)) key surface_object in
    let surface_name' := dict_set (surface_name self) surface_object name in
    Registered
      (mkElementState
         (mkOpticalElement surfaces' (materials (element self))
            (dict_set (surf_mat_connection (element self)) key
               (minusNmat_key, plusNmat_key)))
         surface_name' (material_comment self))
  else
    RaiseException
      "surface coordinate system should be connected to OpticalElement root coordinate system".

Definition addMaterial (self : element_state) (key : string)
    (material_object : MatRef) (comment : string)
    : seq log_event * registration element_state :=
  if checkForRootConnection (lc material_object) then
    if dict_get (materials (element self)) key is None then
      ([::],
       Registered
         (mkElementState
            (mkOpticalElement (surfaces (element self))
               (dict_set (materials (element self)) key material_object)
               (surf_mat_connection (element self)))
            (surface_name self)
            (dict_set (material_comment self) material_object comment)))
    else
      ([:: Warning
             ("Material key " ++ key
              ++ " already taken. Material will not be added.")],
       Registered self)
  else
    ([::],
     RaiseException
       "material coordinate system should be connected to OpticalElement root coordinate system").

End Registration.

(** An element under construction whose objects are all connected. *)
Definition empty_element : element_state nat :=
  mkElementState (mkOpticalElement [::] [::] [::]) [::] [::].

Definition connected (frame : unit) : bool := true.

Definition with_glass : element_state nat :=
  Eval vm_compute in
    if (addMaterial (fun _ => tt) connected empty_element "glass" 7 "first").2
    is Registered s then s else empty_element.

Definition with_front : element_state nat :=
  Eval vm_compute in
    if addSurface (fun _ => tt) connected empty_element "front" 1
         ("air"%string, "glass"%string) "entrance"
    is Registered s then s else empty_element.

Definition with_front_and_back : element_state nat :=
  Eval vm_compute in
    if addSurface (fun _ => tt) connected with_front "back" 1
         ("glass"%string, "air"%string) "exit"
    is Registered s then s else empty_element.

(** ** [glasscatalog.py]: [list2dict] *)

Section List2Dict.

(** The values of the dictionaries that yaml loads; the value under
    [namekey] becomes a key and is hashable. *)
Variable V : eqType.

(** What [x.pop(namekey)] leaves of [x]. *)
Definition dict_pop (x : dict string V) (namekey : string) : dict string V :=
  [seq kv <- x | kv.1 != namekey].

(** The loop of [list2dict]; with [newdict] it returns the list of the
    caller as the loop leaves it, since [pop] changes the dictionaries of
    the list in place and [newdict] holds these same objects. *)
Fixpoint list2dict_loop (yaml_list : seq (dict string V)) (namekey : string)
    (newdict : dict V (dict string V))
    : dict V (dict string V) * seq (dict string V) :=
  if yaml_list is x :: yaml_list' then
    if dict_get x namekey is Some xname then
      let x' := dict_pop x namekey in
      let: (newdict', rest) :=
        list2dict_loop yaml_list' namekey (dict_set newdict xname x') in
      (newdict', x' :: rest)
    else
      let: (newdict', rest) := list2dict_loop yaml_list' namekey newdict in
      (newdict', x :: rest)
  else (newdict, [::]).

Definition list2dict (yaml_list : seq (dict string V)) (namekey : string)
    : dict V (dict string V) * seq (dict string V) :=
  list2dict_loop yaml_list namekey [::].

End List2Dict.

(** ** A container to run [IndexFormulaContainer] on *)

(** Numbers and coefficient arrays as natural numbers and lists; a
    formula that adds the wavelength to the sum of the coefficients. *)
Definition toy_formula (f : GlassCatalog.n_func) (c : seq nat) (w : nat)
    : result nat := Ok (sumn c + w).

Definition toy_init (n_typ : string) (n_coeff : seq nat)
    : result (GlassCatalog.IndexFormulaContainer (seq nat)) :=
  GlassCatalog.init size (fun _ => Ok tt) n_typ n_coeff None [::].

Definition toy_get_n (self : GlassCatalog.IndexFormulaContainer (seq nat))
    (wavelength : nat) : result nat :=
  GlassCatalog.get_n id toy_formula self wavelength.

Definition toy_get_k (self : GlassCatalog.IndexFormulaContainer (seq nat))
    (wavelength : nat) : result nat :=
  GlassCatalog.get_k id (fun _ w => Ok w) 0 self wavelength.

Definition sellmeier_container
    : GlassCatalog.IndexFormulaContainer (seq nat) :=
  Eval vm_compute in
    if toy_init "formula  1" [:: 1; 2; 3] is Ok self then self
    else GlassCatalog.new_object _.

(** The local functions of [set_n_function] that read [self.n_coeff] when
    they are called. *)
Definition reads_n_coeff (f : GlassCatalog.n_func) : bool :=
  match f with
  | GlassCatalog.Interp1d | GlassCatalog.Retro | GlassCatalog.Exotic => false
  | _ => true
  end.

(** The names [set_n_function] knows. *)
Definition known_n_types : seq string :=
  [:: "tabulated n"; "formula  1"; "formula  2"; "formula  3"; "formula  4";
      "formula  5"; "formula  6"; "formula  7"; "formula  8"; "formula  9"]%string.

(** A container built under a name with one blank instead of two. *)
Definition misspelt_container
    : GlassCatalog.IndexFormulaContainer (seq nat) :=
  Eval vm_compute in
    if toy_init "formula 1" [:: 1; 2; 3] is Ok self then self
    else GlassCatalog.new_object _.

(** * Properties *)

(** ** The dispersion-formula container *)

Section GlassCatalogTheory.
Import GlassCatalog.

Variables (num coeffs : Type) (len : coeffs -> nat) (milli : num -> num).
Variable numpy_formula : n_func -> coeffs -> num -> result num.
Variable interp1d : coeffs -> result unit.

Local Notation init := (@init coeffs len interp1d).
Local Notation get_n := (@get_n num coeffs milli numpy_formula).

(** The constructor fails only in [interp1d], that is only for tabulated
    data. *)
Lemma init_formula_ok (n_typ : string) (nc : coeffs) (kt : option string)
    (kc : coeffs) :
  n_typ != "tabulated n"%string -> kt != Some "tabulated k"%string ->
  is_ok (init n_typ nc kt kc).
Proof.
move=> /negbTE n_def /negbTE k_def.
have k_ok self : is_ok (set_k_function interp1d self kt kc).
  by rewrite /set_k_function k_def.
rewrite /GlassCatalog.init /set_n_function n_def.
by do ![case: ifP => _ //=].
Qed.

(** C9: a container built with "formula  8" (Retro) or "formula  9"
    (Exotic) never yields an index: whatever the coefficients and the
    wavelength, [get_n] on the constructed object raises, an
    [AttributeError] for formula 8 (whose function is stored under the
    attribute [n_fucntion], so [n_function] is missing) and a
    [NotImplementedError] for formula 9. The construction itself fails
    only when tabulated extinction data is rejected by [interp1d]. *)
Theorem unimplemented_formula_get_n_raises (nc : coeffs) (kt : option string)
    (kc : coeffs) (wavelength : num) :
  match init "formula  8" nc kt kc with
  | Ok c => get_n c wavelength = Raise AttributeError
  | Raise _ => kt = Some "tabulated k"%string /\ raises (interp1d kc)
  end
  /\
  match init "formula  9" nc kt kc with
  | Ok c => get_n c wavelength = Raise NotImplementedError
  | Raise _ => kt = Some "tabulated k"%string /\ raises (interp1d kc)
  end.
Proof.
rewrite /GlassCatalog.init /set_n_function /set_k_function /=.
by split; case: eqP => [->|_] //=; case: (interp1d kc).
Qed.

End GlassCatalogTheory.

(** ** Dictionaries *)

Section DictTheory.
Variables (K : eqType) (V : Type).
Implicit Types (d : dict K V) (k : K) (v : V).

Lemma dict_set_cons d k v k0 v0 :
  dict_set ((k0, v0) :: d) k v =
  if k0 == k then (k, v) :: d else (k0, v0) :: dict_set d k v.
Proof. by []. Qed.

Lemma dict_get_cons d k k0 v0 :
  dict_get ((k0, v0) :: d) k = if k0 == k then Some v0 else dict_get d k.
Proof. by []. Qed.

Lemma dict_get_set d k v k' :
  dict_get (dict_set d k v) k' = if k == k' then Some v else dict_get d k'.
Proof.
elim: d => [|[k0 v0] d IHd] /=; first by [].
case: (k0 =P k) => [->|ne_k0k] /=; first by case: ifP.
rewrite IHd; case: (k =P k') => [<-|//].
by case: eqP.
Qed.

Lemma dict_get_default_set d k v k' dflt :
  dict_get_default (dict_set d k v) k' dflt =
  if k == k' then v else dict_get_default d k' dflt.
Proof. by rewrite /dict_get_default dict_get_set; case: ifP. Qed.

End DictTheory.

(** ** The hit list *)

Section HitlistTheory.

Implicit Types (hitlist : seq hit) (p : string * string).

Lemma hits_of_rcons p hitlist h :
  hits_of p (rcons hitlist h) =
  if hit_pair h == p then rcons (hits_of p hitlist) (hit_index h)
  else hits_of p hitlist.
Proof. by rewrite /hits_of filter_rcons; case: ifP => _; rewrite ?map_rcons. Qed.

Lemma size_hits_of p hitlist :
  size (hits_of p hitlist) = count (fun h => hit_pair h == p) hitlist.
Proof. by rewrite /hits_of size_map size_filter. Qed.

(** The loop appends one hit per pair, in order. *)
Lemma hitlist_loop_pairs pairs hitlist_dict hitlist optionshitlistdict :
  [seq hit_pair h
     | h <- (hitlist_loop pairs hitlist_dict hitlist optionshitlistdict).1] =
  [seq hit_pair h | h <- hitlist] ++ [seq (e.1.1, e.2.1) | e <- pairs].
Proof.
elim: pairs hitlist_dict hitlist optionshitlistdict
  => [|[[sb optsb] [se optse]] pairs IHp] d hl od /=; first by rewrite cats0.
by rewrite IHp map_rcons -cats1 -catA.
Qed.

(** The counter of a pair is the number of its hits so far, and these
    hits are numbered from 1: the loop keeps both. *)
Lemma hitlist_loop_hits pairs hitlist_dict hitlist optionshitlistdict :
  (forall p, hits_of p hitlist = iota 1 (dict_get_default hitlist_dict p 0)) ->
  forall p, exists n,
    hits_of p (hitlist_loop pairs hitlist_dict hitlist optionshitlistdict).1
    = iota 1 n.
Proof.
elim: pairs hitlist_dict hitlist optionshitlistdict
  => [|[[sb optsb] [se optse]] pairs IHp] d hl od inv p /=.
  by exists (dict_get_default d p 0).
apply: IHp => {}p; rewrite hits_of_rcons dict_get_default_set /hit_pair /=.
case: eqP => [<-|_]; last exact: inv.
rewrite inv; move: (dict_get_default _ _ _) => n. by rewrite -cats1 -[X in _ = iota 1 X]addn1 iotaD add1n.
Qed.

End HitlistTheory.

(** C4: for a sequence of length L >= 1 the hit list has L-1 triples, one
    per consecutive pair of sequence entries and in their order, and for
    every ordered pair of surface keys the hit indices of its triples,
    in hit-list order, are 1, 2, 3, ... *)
Theorem sequence_to_hitlist_hits (s : Sequence) :
  0 < size s ->
  let hitlist := (sequence_to_hitlist s).1 in
  let keys := [seq e.1 | e <- s] in
  [/\ size hitlist = size s - 1,
      [seq hit_pair h | h <- hitlist] = zip (all_but_last keys) (behead keys)
    & forall start_key end_key,
        hits_of (start_key, end_key) hitlist =
        iota 1 (count (fun h => hit_pair h == (start_key, end_key)) hitlist)].
Proof.
move=> s_gt0 hitlist keys.
have pairsE : [seq hit_pair h | h <- hitlist] =
              zip (all_but_last keys) (behead keys).
  rewrite /hitlist /sequence_to_hitlist hitlist_loop_pairs /=.
  have -> : [seq (e.1, e.2) | e <- s] = s by elim: s {s_gt0 hitlist keys} => [|[a b] s /= ->].
  rewrite /keys /all_but_last size_map -map_take behead_map.
  by elim: (take _ s) (behead s) => [|a l IHl] [|b l'] //=; rewrite IHl.
split=> //.
  rewrite -(size_map hit_pair) pairsE size_zip /all_but_last size_take size_behead.
  by rewrite size_map ltn_predL s_gt0 minnn subn1.
move=> sb se; rewrite -size_hits_of.
have [n n_def] := @hitlist_loop_hits
  (zip (all_but_last [seq (e.1, e.2) | e <- s]) (behead [seq (e.1, e.2) | e <- s]))
  [::] [::] [::] (fun=> erefl) (sb, se).
by rewrite -/(sequence_to_hitlist s) -/hitlist in n_def; rewrite n_def size_iota.
Qed.

(** ** The sequential tracer *)

Lemma bind_ok_inv (A B : Type) (m : result A) (f : A -> result B) (b : B) :
  bind m f = Ok b -> exists2 a, m = Ok a & f a = Ok b.
Proof. by case: m => [a|e] //= fa; exists a. Qed.

Lemma getitem_last_ok (T : Type) (x0 : T) (s : seq T) :
  0 < size s -> getitem_last s = Ok (last x0 s).
Proof. by case: s. Qed.

Lemma getitem_last_inv (T : Type) (x0 : T) (s : seq T) (x : T) :
  getitem_last s = Ok x -> 0 < size s /\ x = last x0 s.
Proof. by case: s => [|y s] //= [<-]. Qed.

Lemma getitem_first_inv (T : Type) (x0 : T) (s : seq T) (x : T) :
  getitem_first s = Ok x -> 0 < size s /\ x = head x0 s.
Proof. by case: s => [|y s] //= [<-]. Qed.

Section SeqTraceCalls.

Variables (Bundle Surface : Type).
Variable material_at : MatRef -> Material Bundle Surface.
Variable self : OpticalElement Surface.
Variable raybundle : Bundle.
Variable background_medium : MatRef.
Variable splitup : bool.

Local Notation propagate_all := (propagate_all material_at raybundle).
Local Notation interact_all := (interact_all material_at raybundle splitup).
Local Notation seqtrace_entry :=
  (seqtrace_entry material_at self raybundle background_medium splitup).
Local Notation seqtrace_loop :=
  (seqtrace_loop material_at self raybundle background_medium splitup).
Local Notation seqtrace :=
  (seqtrace material_at self raybundle background_medium splitup).
Local Notation state := (state Bundle).

(** The first loop calls [propagate] once per live path, on its last
    bundle and with the one material it is given. *)
Lemma propagate_all_calls m surf st cs rps st' cs' :
  propagate_all m surf st cs rps = Ok (st', cs') ->
  cs' = cs ++ [seq CallPropagate m (last_bundle rp) | rp <- rps].
Proof.
elim: rps st cs => [|rp rps IHr] st cs /=; first by case=> _ <-; rewrite cats0.
case El: (getitem_last _) => [l|] //=; have [_ ->] := getitem_last_inv 0 El.
by move/IHr=> ->; rewrite -cats1 -catA.
Qed.

(** So does the second loop with [refract] or [reflect]. *)
Lemma interact_all_calls op m surf st cs fin new rps st' cs' fin' new' :
  interact_all op m surf st cs fin new rps = Ok (st', cs', fin', new') ->
  cs' = cs ++ [seq call_of op m (last_bundle rp) | rp <- rps].
Proof.
elim: rps st cs fin new => [|rp rps IHr] st cs fin new /=.
  by case=> _ <- _ _; rewrite cats0.
case El: (getitem_last _) => [l|] //=; have [_ ->] := getitem_last_inv 0 El.
case: (branch _ _ _ _) => st2 new2; case: (getitem_first _) => [rb0|] //=.
by move/IHr=> ->; rewrite -cats1 -catA.
Qed.

(** What one sequence entry does to the cursor and which calls it makes. *)
Lemma seqtrace_entry_calls (s s' : state) (surfkey : string) (surfoptions : options) :
  seqtrace_entry s (surfkey, surfoptions) = Ok s' ->
  exists mats,
  [/\ dict_get (surf_mat_connection self) surfkey = Some mats,
      current_material s' =
        (if is_mirror surfoptions then current_material s
         else findoutWhichMaterial
                (dict_get_default (materials self) mats.1 background_medium)
                (dict_get_default (materials self) mats.2 background_medium)
                (current_material s))
    & calls s' =
        calls s
        ++ [seq CallPropagate (current_material s) (last_bundle rp)
              | rp <- rpaths s]
        ++ [seq call_of (if is_mirror surfoptions then Reflection else Refraction)
                  (current_material s') (last_bundle rp)
              | rp <- rpaths s]].
Proof.
rewrite /seqtrace_entry.
rewrite /dict_item; case: (dict_get (surfaces _) _) => [surf|] //=.
case: (dict_get _ _) => [mats|] //=.
case Ep: (propagate_all _ _ _ _ _) => [[st1 cs1]|] //=.
rewrite (propagate_all_calls Ep).
by case: (is_mirror surfoptions) => /=;
  case Ei: (interact_all _ _ _ _ _ _ _ _) => [[[[st2 cs2] fin] new]|] //= [<-];
  exists mats; rewrite (interact_all_calls Ei) /= catA.
Qed.

End SeqTraceCalls.

(** ** The store of the tracer: allocation and deep copies *)

Lemma map_index_uniq (T : eqType) (s : seq T) :
  uniq s -> [seq index x s | x <- s] = iota 0 (size s).
Proof.
case: s => [|x0 s'] //; set s := x0 :: s' => Us.
apply: (@eq_from_nth _ 0); rewrite size_map ?size_iota // => i lt_i.
by rewrite (nth_map x0) // index_uniq // nth_iota.
Qed.

Lemma all_flatten_all (T : Type) (p : pred T) (ss : seq (seq T)) :
  all p (flatten ss) = all (all p) ss.
Proof. by elim: ss => [|s ss IHs] //=; rewrite all_cat IHs. Qed.

Lemma fresh_in_perm a b ls ls' :
  perm_eq ls ls' -> fresh_in a b ls = fresh_in a b ls'.
Proof. by move=> eq_ls; rewrite /fresh_in (perm_uniq eq_ls) (perm_all _ eq_ls). Qed.

Lemma fresh_in_cat a b c ls ls' :
  fresh_in a b ls -> fresh_in b c ls' -> a <= b -> b <= c ->
  fresh_in a c (ls ++ ls').
Proof.
case/andP=> Uls /allP in_ab /andP[Uls' /allP in_bc] le_ab le_bc.
rewrite /fresh_in cat_uniq Uls Uls' all_cat /= andbT; apply/and3P; split.
- apply/hasPn=> l /in_bc /andP[le_bl _]; apply/negP=> /in_ab /andP[_].
  by rewrite ltnNge le_bl.
- by apply/allP=> l /in_ab /andP[-> /leq_trans ->].
- by apply/allP=> l /in_bc /andP[/(leq_trans le_ab) -> ->].
Qed.

Lemma fresh_in_iota a n : fresh_in a (a + n) (iota a n).
Proof.
rewrite /fresh_in iota_uniq; apply/allP=> l.
by rewrite mem_iota.
Qed.

Lemma fresh_in_widen a b a' b' ls :
  a' <= a -> b <= b' -> fresh_in a b ls -> fresh_in a' b' ls.
Proof.
move=> le_a le_b /andP[Uls /allP in_ab]; rewrite /fresh_in Uls.
apply/allP=> l /in_ab /andP[le_al lt_lb].
by rewrite (leq_trans le_a le_al) (leq_trans lt_lb le_b).
Qed.

Section SeqTraceStore.

Variables (Bundle Surface : Type).
Variable material_at : MatRef -> Material Bundle Surface.
Variable raybundle : Bundle.
Variable splitup : bool.

Local Notation Store := (Store Bundle).
Local Notation deref := (deref raybundle).
Local Notation path_contents := (path_contents raybundle).
Local Notation deepcopy := (deepcopy raybundle).
Local Notation branch := (branch raybundle).
Local Notation propagate_all := (propagate_all material_at raybundle).
Local Notation interact_all := (interact_all material_at raybundle splitup).
Local Notation outgoing := (outgoing material_at raybundle splitup).

Implicit Types (st ext : Store) (rp : RayPath) (rps : seq RayPath) (l : loc).

Lemma deref_cat st ext l : l < size st -> deref (st ++ ext) l = deref st l.
Proof. by rewrite /Pyrate.deref nth_cat => ->. Qed.

Lemma derefs_cat st ext (ls : seq loc) :
  in_store st ls -> [seq deref (st ++ ext) l | l <- ls] = [seq deref st l | l <- ls].
Proof. by move/allP=> in_st; apply/eq_in_map=> l /in_st; exact: deref_cat. Qed.

Lemma in_store_cat st ext ls : in_store st ls -> in_store (st ++ ext) ls.
Proof.
move/allP=> in_st; apply/allP=> l /in_st lt_l.
by rewrite size_cat (leq_trans lt_l) ?leq_addr.
Qed.

(** The objects just allocated hold the values they were allocated for. *)
Lemma derefs_alloc st (bs : seq Bundle) ext :
  [seq deref (st ++ bs ++ ext) l | l <- iota (size st) (size bs)] = bs.
Proof.
apply: (@eq_from_nth _ raybundle); rewrite size_map size_iota // => i lt_i.
rewrite (nth_map 0) ?size_iota // nth_iota // /Pyrate.deref nth_cat.
by rewrite ltnNge leq_addr /= addKn nth_cat lt_i.
Qed.

(** A deep copy of a path without repeated bundles: one new object per
    bundle, in order, with the same value. *)
Lemma deepcopy_uniq st rp :
  uniq (raybundles rp) ->
  deepcopy st rp =
  (st ++ path_contents st rp, mkRayPath (iota (size st) (size (raybundles rp)))).
Proof.
move=> Urp; rewrite /Pyrate.deepcopy undup_id //; congr (_, mkRayPath _).
by rewrite -[size st in RHS]addn0 iotaDl -map_index_uniq // -map_comp.
Qed.

Lemma branch_cons st rp rb rbs new :
  branch st rp (rb :: rbs) new =
  let: (st', rpathprime) := deepcopy st rp in
  branch st' rp rbs (rcons new (appendRayBundle rpathprime rb)).
Proof. by []. Qed.

(** The inner loop over [raybundles[1:]]: every bundle of [rbs] ends a
    new path that starts with a copy of [rp] made of new objects. *)
Lemma branchP st rp rbs new :
  uniq (raybundles rp) -> in_store st (raybundles rp) ->
  exists ext (copies : seq (seq loc)),
  [/\ branch st rp rbs new =
        (st ++ ext, new ++ [seq mkRayPath (rcons cr.1 cr.2) | cr <- zip copies rbs]),
      size copies = size rbs,
      fresh_in (size st) (size st + size ext) (flatten copies)
    & forall c ext', c \in copies ->
        [seq deref (st ++ ext ++ ext') l | l <- c] = path_contents st rp].
Proof.
move=> Urp in_rp; elim: rbs st new in_rp => [|rb rbs IHr] st new in_rp.
  by exists [::], [::]; rewrite /= !cats0 addn0.
rewrite branch_cons deepcopy_uniq //.
have in_rp' := in_store_cat (path_contents st rp) in_rp.
have [ext [copies [-> sz_copies fresh_copies copiesP]]] :=
  IHr (st ++ path_contents st rp) (rcons new (appendRayBundle
         (mkRayPath (iota (size st) (size (raybundles rp)))) rb)) in_rp'.
set c0 := iota (size st) (size (raybundles rp)).
exists (path_contents st rp ++ ext), (c0 :: copies); split.
- by rewrite -catA -cats1 -catA.
- by rewrite /= sz_copies.
- rewrite size_cat addnA /=.
  apply: (@fresh_in_cat _ (size st + size (path_contents st rp))) => //.
  + by rewrite size_map; exact: fresh_in_iota.
  + by rewrite -size_cat.
  + exact: leq_addr.
  + exact: leq_addr.
- move=> c ext'; rewrite in_cons => /orP[/eqP ->|c_in].
    rewrite -catA /c0 -(size_map (deref st) (raybundles rp)).
    exact: derefs_alloc.
  rewrite -catA catA copiesP //.
  exact: derefs_cat.
Qed.

Lemma locs_of_cat rps rps' : locs_of (rps ++ rps') = locs_of rps ++ locs_of rps'.
Proof. by rewrite /locs_of map_cat flatten_cat. Qed.

(** The objects of the additional paths: the copies and the bundles that
    end them. *)
Lemma locs_of_branches (copies : seq (seq loc)) (rs : seq loc) :
  size copies = size rs ->
  perm_eq (locs_of [seq mkRayPath (rcons cr.1 cr.2) | cr <- zip copies rs])
          (rs ++ flatten copies).
Proof.
move=> sz; apply/permP=> a; rewrite /locs_of -map_comp.
elim: copies rs sz => [|c copies IHc] [|r rs] //= [/IHc IH].
rewrite !count_cat /= -cats1 count_cat /= in IH *.
by rewrite IH addn0 -!plusE; lia.
Qed.

Lemma contents_of_branches st (copies : seq (seq loc)) (rs : seq loc)
    (bs pc : seq Bundle) :
  size copies = size rs -> [seq deref st r | r <- rs] = bs ->
  (forall c, c \in copies -> [seq deref st l | l <- c] = pc) ->
  [seq path_contents st (mkRayPath (rcons cr.1 cr.2)) | cr <- zip copies rs] =
  [seq rcons pc b | b <- bs].
Proof.
move=> sz <-; elim: copies rs sz => [|c copies IHc] [|r rs] //= [sz] copiesP.
rewrite IHc // => [c' c'_in|]; first by rewrite copiesP // in_cons c'_in orbT.
by rewrite /Pyrate.path_contents /= map_rcons copiesP // mem_head.
Qed.

Lemma interact_all_cons op m surf st cs fin new rp rps :
  interact_all op m surf st cs fin new (rp :: rps) =
  (current_bundle <-- getitem_last (raybundles rp) ;;
   let: (st1, rbs) :=
     alloc st (interact op (material_at m) (deref st current_bundle) surf splitup) in
   let: (st2, rpaths_new') := branch st1 rp (behead rbs) new in
   rb0 <-- getitem_first rbs ;;
   interact_all op m surf st2 (rcons cs (call_of op m current_bundle))
     (rcons fin (appendRayBundle rp rb0)) rpaths_new' rps).
Proof. by []. Qed.

Lemma last_bundle_in rp : 0 < size (raybundles rp) -> last_bundle rp \in raybundles rp.
Proof. by rewrite /last_bundle; case: (raybundles rp) => [|l ls] //= _; exact: mem_last. Qed.

(** The loop over the live paths, from the store [st0] in which it
    starts: the paths are extended in place by the first returned bundle
    ([heads]); the additional paths hold copies of the histories followed
    by the other returned bundles; everything new is newly allocated. *)
Lemma interact_allP op m surf st0 rps st cs fin new ext0 :
  st = st0 ++ ext0 ->
  all (path_ok st0) rps ->
  all (fun rp => 0 < size (outgoing op m surf st0 rp)) rps ->
  exists ext heads new_add,
  [/\ interact_all op m surf st cs fin new rps =
        Ok (st ++ ext, cs ++ [seq call_of op m (last_bundle rp) | rp <- rps],
            fin ++ [seq appendRayBundle ph.1 ph.2 | ph <- zip rps heads],
            new ++ new_add),
      size heads = size rps,
      [seq deref (st ++ ext) h | h <- heads] =
        [seq head raybundle (outgoing op m surf st0 rp) | rp <- rps],
      [seq path_contents (st ++ ext) q | q <- new_add] =
        flatten [seq [seq rcons (path_contents st0 rp) rb
                        | rb <- behead (outgoing op m surf st0 rp)] | rp <- rps]
    & fresh_in (size st) (size st + size ext) (heads ++ locs_of new_add)].
Proof.
elim: rps st cs fin new ext0 => [|rp rps IHr] st cs fin new ext0 st_def /=.
  by move=> _ _; exists [::], [::], [::]; rewrite !cats0 addn0.
case/andP=> /and3P[Urp in_rp rp_gt0] rps_ok /andP[outs_gt0 outs_ok].
rewrite -/(interact_all _ _ _ _ _ _ _ (rp :: rps)) interact_all_cons.
rewrite (getitem_last_ok 0) //= -/(last_bundle rp).
have -> : deref st (last_bundle rp) = deref st0 (last_bundle rp).
  by rewrite st_def deref_cat // (allP in_rp) // last_bundle_in.
rewrite -/(outgoing op m surf st0 rp); set outs := outgoing _ _ _ _ _ in outs_gt0 *.
have in_rp1 : in_store (st ++ outs) (raybundles rp).
  by rewrite st_def; do 2!apply: in_store_cat.
have [bext [copies [-> sz_copies fresh_copies copiesP]]] :=
  branchP (behead (iota (size st) (size outs))) new Urp in_rp1.
have iotaE : iota (size st) (size outs) = size st :: iota (size st).+1 (size outs).-1.
  by case: (size outs) outs_gt0.
move: sz_copies; rewrite iotaE /=; set rs := iota _ _ => sz_copies.
have st2_def : (st ++ outs) ++ bext = st0 ++ (ext0 ++ outs ++ bext).
  by rewrite st_def -!catA.
set add := [seq mkRayPath _ | cr <- zip _ _].
have [ext [heads [new_add [-> sz_heads headsE new_addE fresh_rest]]]] :=
  IHr ((st ++ outs) ++ bext) (rcons cs (call_of op m (last_bundle rp)))
      (rcons fin (appendRayBundle rp (size st))) (new ++ add)
      _ st2_def rps_ok outs_ok.
exists (outs ++ bext ++ ext), (size st :: heads), (add ++ new_add).
have sz1 : size (st ++ outs) = size st + size outs by rewrite size_cat.
have sz2 : size ((st ++ outs) ++ bext) = size st + size outs + size bext.
  by rewrite size_cat sz1.
have fresh_add : fresh_in (size st) (size st + size outs + size bext)
                   (size st :: locs_of add).
  have perm_add : perm_eq (size st :: locs_of add)
                    (iota (size st) (size outs) ++ flatten copies).
    by rewrite iotaE /= perm_cons; exact: locs_of_branches.
  rewrite (fresh_in_perm _ _ perm_add).
  apply: (fresh_in_cat (fresh_in_iota _ _)); rewrite ?leq_addr //.
  by rewrite -sz1.
have allocE := derefs_alloc st outs (bext ++ ext).
rewrite iotaE /= -/rs !catA in allocE.
split.
- by rewrite -!catA -cats1 -catA /= -cats1 -!catA.
- by rewrite /= sz_heads.
- rewrite /= -headsE !catA; congr (_ :: _).
  by case: (outs) outs_gt0 allocE => [|b bs] //= _ [].
- rewrite map_cat !catA new_addE; congr (_ ++ _).
  rewrite /add -map_comp.
  apply: (@contents_of_branches _ copies rs (behead outs)) => // [|c c_in].
    by case: (outs) outs_gt0 allocE => [|b bs] //= _ [].
  rewrite -(catA (st ++ outs) bext ext) copiesP // st_def.
  by rewrite /Pyrate.path_contents -catA derefs_cat.
- have perm_all : perm_eq ((size st :: heads) ++ locs_of (add ++ new_add))
                    ((size st :: locs_of add) ++ (heads ++ locs_of new_add)).
    by rewrite locs_of_cat /= perm_cons perm_catCA.
  rewrite (fresh_in_perm _ _ perm_all) !size_cat !addnA.
  apply: (fresh_in_cat fresh_add); rewrite -?sz2 ?leq_addr //.
  by rewrite sz2 -!addnA leq_addr.
Qed.

End SeqTraceStore.

Section SeqTraceEntry.

Variables (Bundle Surface : Type).
Variable material_at : MatRef -> Material Bundle Surface.
Variable self : OpticalElement Surface.
Variable raybundle : Bundle.
Variable background_medium : MatRef.
Variable splitup : bool.

Local Notation Store := (Store Bundle).
Local Notation state := (state Bundle).
Local Notation deref := (deref raybundle).
Local Notation path_contents := (path_contents raybundle).
Local Notation propagate_all := (propagate_all material_at raybundle).
Local Notation interact_all := (interact_all material_at raybundle splitup).
Local Notation outgoing := (outgoing material_at raybundle splitup).
Local Notation seqtrace_entry :=
  (seqtrace_entry material_at self raybundle background_medium splitup).
Local Notation seqtrace_loop :=
  (seqtrace_loop material_at self raybundle background_medium splitup).
Local Notation seqtrace :=
  (seqtrace material_at self raybundle background_medium splitup).
Local Notation initial_state := (initial_state raybundle background_medium).

Implicit Types (st : Store) (rp : RayPath) (rps : seq RayPath) (s : state).

(** [propagate] changes bundles in place: no object is created. *)
Lemma propagate_allP m surf st cs rps :
  all (fun rp => 0 < size (raybundles rp)) rps -> in_store st (locs_of rps) ->
  exists2 st', propagate_all m surf st cs rps =
                 Ok (st', cs ++ [seq CallPropagate m (last_bundle rp) | rp <- rps])
             & size st' = size st.
Proof.
elim: rps st cs => [|rp rps IHr] st cs /=; first by exists st; rewrite ?cats0.
case/andP=> rp_gt0 rps_gt0; rewrite /in_store /locs_of /= all_cat.
case/andP=> in_rp in_rps; rewrite (getitem_last_ok 0) //= -/(last_bundle rp).
set st1 := set_nth _ _ _ _.
have sz1 : size st1 = size st.
  rewrite size_set_nth; apply/maxn_idPr.
  by rewrite (allP in_rp) // last_bundle_in.
have [|st' -> sz'] := IHr st1 (rcons cs (CallPropagate m (last_bundle rp))) rps_gt0.
  by rewrite /in_store sz1.
by exists st'; rewrite -?cats1 -?catA // sz'.
Qed.

(** The last bundles of well-formed paths are distinct objects. *)
Lemma wf_paths_live_uniq st rps :
  wf_paths st rps -> uniq [seq last_bundle rp | rp <- rps].
Proof.
case/and3P=> + _; rewrite /locs_of.
elim: rps => [|rp rps IHr] //=; rewrite cat_uniq.
case/and3P=> _ /hasPn disj Urps /andP[rp_gt0 rps_gt0].
rewrite IHr // andbT; apply/mapP=> -[rp' rp'_in last_eq].
have /disj /= : last_bundle rp \in flatten [seq raybundles rp | rp <- rps].
  apply/flattenP; exists (raybundles rp'); first exact: map_f.
  by rewrite last_eq last_bundle_in // (allP rps_gt0).
by rewrite last_bundle_in.
Qed.

(** What [propagate] leaves in the store: the last bundle of every path
    is replaced by what [propagate] of the material [m] makes of it, and
    every other object is as it was. *)
Lemma propagate_all_store m surf st cs rps st' cs' :
  uniq [seq last_bundle rp | rp <- rps] ->
  propagate_all m surf st cs rps = Ok (st', cs') ->
  forall l : loc,
    deref st' l =
      if l \in [seq last_bundle rp | rp <- rps]
      then propagate (material_at m) (deref st l) surf else deref st l.
Proof.
elim: rps st cs => [|rp rps IHr] st cs /=; first by move=> _ [<- _].
case/andP=> last_notin Urps.
case Eg: (getitem_last _) => [lb|] //=.
have {Eg} -> : lb = last_bundle rp.
  by move: Eg; rewrite /getitem_last /last_bundle; case: (raybundles rp) => [|a r] //= [].
move=> /(IHr _ _ Urps) IH l; rewrite IH in_cons /Pyrate.deref nth_set_nth /=.
case: (l =P last_bundle rp) => [->|_] //=.
by rewrite (negPf last_notin).
Qed.

Lemma wf_paths_path_ok st rps : wf_paths st rps -> all (path_ok st) rps.
Proof.
case/and3P=> Urps in_rps rps_gt0; apply/allP=> rp rp_in.
have sub_rp : {subset raybundles rp <= locs_of rps}.
  by move=> l l_in; apply/flattenP; exists (raybundles rp); rewrite ?map_f.
apply/and3P; split; last exact: (allP rps_gt0 _ rp_in).
  move: Urps rp_in; rewrite /locs_of; elim: (rps) => [|rp' rps' IHr] //=.
  rewrite cat_uniq in_cons => /and3P[Urp' _ Urps'] /orP[/eqP -> //|].
  exact: IHr.
by apply/allP=> l /sub_rp l_in; exact: (allP in_rps _ l_in).
Qed.

(** The objects of the paths extended in place. *)
Lemma locs_of_appended rps (heads : seq loc) :
  size heads = size rps ->
  perm_eq (locs_of [seq appendRayBundle ph.1 ph.2 | ph <- zip rps heads])
          (locs_of rps ++ heads).
Proof.
move=> sz; apply/permP=> a; rewrite /locs_of -map_comp.
elim: rps heads sz => [|rp rps IHr] [|h heads] //= [/IHr IH].
rewrite !count_cat /= -cats1 count_cat /= in IH *.
by rewrite IH addn0 -!plusE; lia.
Qed.

(** Paths that share no bundle are independent: assigning to a bundle of
    one of them leaves the bundles of every other one as they were. *)
Lemma wf_paths_independent st rps (i j : nat) (l : loc) (b : Bundle) :
  wf_paths st rps -> i < size rps -> j < size rps -> i != j ->
  l \in raybundles (nth (mkRayPath [::]) rps i) ->
  path_contents (set_nth raybundle st l b) (nth (mkRayPath [::]) rps j) =
  path_contents st (nth (mkRayPath [::]) rps j).
Proof.
case/and3P=> Urps _ _ lt_i lt_j ne_ij l_in; apply/eq_in_map=> l' l'_in.
rewrite /Pyrate.deref nth_set_nth /=; case: eqP => // l'l.
suff /eqP : i = j by rewrite (negPf ne_ij).
rewrite {}l'l in l'_in.
have := Urps; rewrite /locs_of.
move: lt_i lt_j l_in l'_in {ne_ij}.
elim: (rps) i j => [|rp rps' IHr] [|i] [|j] //= lt_i lt_j l_i l_j;
  rewrite cat_uniq => /and3P[_ /hasPn disj Urps'].
- have /disj : l \in flatten [seq raybundles rp | rp <- rps'].
    by apply/flattenP; exists (raybundles (nth (mkRayPath [::]) rps' j));
       rewrite ?map_f ?mem_nth.
  by rewrite l_i.
- have /disj : l \in flatten [seq raybundles rp | rp <- rps'].
    by apply/flattenP; exists (raybundles (nth (mkRayPath [::]) rps' i));
       rewrite ?map_f ?mem_nth.
  by rewrite l_j.
- by congr _.+1; exact: (IHr i j).
Qed.

(** When the loop over the live paths completes, every call has returned
    at least one bundle. *)
Lemma interact_all_nonempty op m surf st0 rps st cs fin new ext0 r :
  st = st0 ++ ext0 -> all (path_ok st0) rps ->
  interact_all op m surf st cs fin new rps = Ok r ->
  all (fun rp => 0 < size (outgoing op m surf st0 rp)) rps.
Proof.
elim: rps st cs fin new ext0 => [|rp rps IHr] st cs fin new ext0 st_def //=.
case/andP=> /and3P[Urp in_rp rp_gt0] rps_ok.
rewrite -/(interact_all _ _ _ _ _ _ _ (rp :: rps)) interact_all_cons.
rewrite (getitem_last_ok 0) //= -/(last_bundle rp).
have -> : deref st (last_bundle rp) = deref st0 (last_bundle rp).
  by rewrite st_def deref_cat // (allP in_rp) // last_bundle_in.
rewrite -/(outgoing op m surf st0 rp); set outs := outgoing _ _ _ _ _.
have in_rp1 : in_store (st ++ outs) (raybundles rp).
  by rewrite st_def; do 2!apply: in_store_cat.
have [bext [copies [-> _ _ _]]] :=
  branchP raybundle (behead (iota (size st) (size outs))) new Urp in_rp1.
case: (size outs) => [|k] //=; apply: IHr rps_ok.
by rewrite st_def -!catA.
Qed.

(** Well-formedness is kept by an entry, and with it the independence of
    the paths. *)
Lemma wf_paths_step st1 ext rps (heads : seq loc) (new_add : seq RayPath) :
  wf_paths st1 rps -> size heads = size rps ->
  fresh_in (size st1) (size st1 + size ext) (heads ++ locs_of new_add) ->
  all (fun rp => 0 < size (raybundles rp)) new_add ->
  wf_paths (st1 ++ ext)
    ([seq appendRayBundle ph.1 ph.2 | ph <- zip rps heads] ++ new_add).
Proof.
case/and3P=> Urps in_rps rps_gt0 sz_heads fresh_new new_gt0.
have perm_locs : perm_eq
    (locs_of ([seq appendRayBundle ph.1 ph.2 | ph <- zip rps heads] ++ new_add))
    (locs_of rps ++ heads ++ locs_of new_add).
  by rewrite locs_of_cat catA perm_cat2r; exact: locs_of_appended.
have fresh_old : fresh_in 0 (size st1) (locs_of rps) by rewrite /fresh_in Urps.
have /andP[Uall in_all] := fresh_in_cat fresh_old fresh_new (leq0n _) (leq_addr _ _).
apply/and3P; split.
- by rewrite (perm_uniq perm_locs).
- rewrite (perm_all _ perm_locs) size_cat.
  by apply: sub_all in_all => l /andP[].
- rewrite all_cat new_gt0 andbT.
  elim: (rps) (heads) sz_heads {Urps in_rps rps_gt0 fresh_new perm_locs fresh_old Uall in_all}
    => [|rp rps' IHr] [|h hs] //= [/IHr ->].
  by rewrite size_rcons.
Qed.

(** What one entry of the sequence does to well-formed live paths: the
    surface it looks up, the propagation, the bundles appended in place,
    the copied paths of the branches and the well-formedness kept. *)
Lemma seqtrace_entry_branches s surfkey surfoptions s' :
  wf_paths (store s) (rpaths s) ->
  seqtrace_entry s (surfkey, surfoptions) = Ok s' ->
  let op := if is_mirror surfoptions then Reflection else Refraction in
  let n := size (rpaths s) in
  exists surf st1 heads,
  let returned rp := outgoing op (current_material s') surf st1 rp in
  [/\ [/\ dict_get (surfaces self) surfkey = Some surf,
          exists cs1, propagate_all (current_material s) surf (store s)
                        (calls s) (rpaths s) = Ok (st1, cs1)
        & all (fun rp => 0 < size (returned rp)) (rpaths s)],
      size (rpaths s') =
        n + sumn [seq (size (returned rp)).-1 | rp <- rpaths s],
      [/\ take n (rpaths s') =
            [seq appendRayBundle ph.1 ph.2 | ph <- zip (rpaths s) heads],
          size heads = n
        & [seq deref (store s') h | h <- heads] =
            [seq head raybundle (returned rp) | rp <- rpaths s]],
      [/\ [seq path_contents (store s') q | q <- drop n (rpaths s')] =
            flatten [seq [seq rcons (path_contents st1 rp) rb
                            | rb <- behead (returned rp)] | rp <- rpaths s]
        & all (fun l => size (store s) <= l)
              (heads ++ locs_of (drop n (rpaths s')))]
    & wf_paths (store s') (rpaths s') /\
      forall (i j : nat) (l : loc) (b : Bundle),
        i < size (rpaths s') -> j < size (rpaths s') -> i != j ->
        l \in raybundles (nth (mkRayPath [::]) (rpaths s') i) ->
        path_contents (set_nth raybundle (store s') l b)
          (nth (mkRayPath [::]) (rpaths s') j) =
        path_contents (store s') (nth (mkRayPath [::]) (rpaths s') j)].
Proof.
move=> wf_s; rewrite /Pyrate.seqtrace_entry /dict_item.
case: (dict_get (surfaces _) _) => [surf|] //=.
case: (dict_get _ _) => [mats|] //=.
have /and3P[_ in_s gt0_s] := wf_s.
have [st1 Ep sz1] := propagate_allP (current_material s) surf (calls s) gt0_s in_s.
rewrite Ep /=; set m' := findoutWhichMaterial _ _ _.
have wf1 : wf_paths st1 (rpaths s) by move: wf_s; rewrite /wf_paths sz1.
have ok1 := wf_paths_path_ok wf1.
have st1_def : st1 = st1 ++ [::] by rewrite cats0.
set cs1 := _ ++ _ in Ep *.
have main op m st' cs' fin' new' :
    interact_all op m surf st1 cs1 [::] [::] (rpaths s) = Ok (st', cs', fin', new') ->
  exists heads, let returned rp := outgoing op m surf st1 rp in
  [/\ all (fun rp => 0 < size (returned rp)) (rpaths s),
      size (fin' ++ new') =
        size (rpaths s) + sumn [seq (size (returned rp)).-1 | rp <- rpaths s],
      [/\ take (size (rpaths s)) (fin' ++ new') =
            [seq appendRayBundle ph.1 ph.2 | ph <- zip (rpaths s) heads],
          size heads = size (rpaths s)
        & [seq deref st' h | h <- heads] =
            [seq head raybundle (returned rp) | rp <- rpaths s]],
      [/\ [seq path_contents st' q | q <- drop (size (rpaths s)) (fin' ++ new')] =
            flatten [seq [seq rcons (path_contents st1 rp) rb
                            | rb <- behead (returned rp)] | rp <- rpaths s]
        & all (fun l => size (store s) <= l)
              (heads ++ locs_of (drop (size (rpaths s)) (fin' ++ new')))]
    & wf_paths st' (fin' ++ new')].
  move=> Ei; have outs_gt0 := interact_all_nonempty st1_def ok1 Ei.
  have [ext [heads [new_add [Ei' sz_heads headsE new_addE fresh_new]]]] :=
    interact_allP cs1 [::] [::] st1_def ok1 outs_gt0.
  move: Ei; rewrite Ei' /= => -[<- _ <- <-] {Ei'}.
  set fin := [seq appendRayBundle _ _ | ph <- _].
  have sz_fin : size fin = size (rpaths s).
    by rewrite size_map size_zip sz_heads minnn.
  have new_gt0 : all (fun rp => 0 < size (raybundles rp)) new_add.
    have : all (fun c => 0 < size c) [seq path_contents (st1 ++ ext) q | q <- new_add].
      rewrite new_addE all_flatten_all all_map; apply/allP=> rp _ /=.
      by rewrite all_map; apply/(all_nthP raybundle)=> i _ /=; rewrite size_rcons.
    by rewrite all_map; apply: sub_all => q /=; rewrite size_map.
  exists heads; split=> //.
  - rewrite size_cat sz_fin; congr (_ + _).
    rewrite -(size_map (path_contents (st1 ++ ext))) new_addE size_flatten.
    rewrite /shape -!map_comp; congr sumn; apply: eq_map => rp /=.
    by rewrite size_map size_behead.
  - by rewrite take_size_cat.
  - by rewrite drop_size_cat //; split=> //; move: fresh_new;
      rewrite sz1 => /andP[_]; apply: sub_all => l /andP[].
  - exact: wf_paths_step.
case: (is_mirror surfoptions) => /=;
  case Ei: (interact_all _ _ _ _ _ _ _ _) => [[[[st2 cs2] fin] new]|] //= [<-] /=;
  have [heads [outs_gt0 sz_new [takeE sz_heads headsE] [dropE fresh] wf']] := main _ _ _ _ _ _ Ei;
  exists surf, st1, heads; split=> //; try (by split=> //; exists cs1);
  by split=> // i j l b; exact: wf_paths_independent.
Qed.

(** The store after an entry extends the store left by the propagation:
    [refract] and [reflect] only build new objects. *)
Lemma seqtrace_entry_store s surfkey surfoptions s' surf st1 cs1 :
  wf_paths (store s) (rpaths s) ->
  seqtrace_entry s (surfkey, surfoptions) = Ok s' ->
  dict_get (surfaces self) surfkey = Some surf ->
  propagate_all (current_material s) surf (store s) (calls s) (rpaths s)
    = Ok (st1, cs1) ->
  exists ext, store s' = st1 ++ ext.
Proof.
move=> wf_s + Es Ep; rewrite /Pyrate.seqtrace_entry /dict_item Es /=.
case: (dict_get _ _) => [mats|] //=; rewrite Ep /=.
have /and3P[_ in_s gt0_s] := wf_s.
have [st1' Ep' sz1] := propagate_allP (current_material s) surf (calls s) gt0_s in_s.
move: Ep'; rewrite Ep => -[st1E _]; rewrite -{st1'}st1E in sz1.
have wf1 : wf_paths st1 (rpaths s) by move: wf_s; rewrite /wf_paths sz1.
have ok1 := wf_paths_path_ok wf1.
have st1_def : st1 = st1 ++ [::] by rewrite cats0.
have main op m st' cs' fin' new' :
    interact_all op m surf st1 cs1 [::] [::] (rpaths s) = Ok (st', cs', fin', new') ->
  exists ext, st' = st1 ++ ext.
  move=> Ei; have outs_gt0 := interact_all_nonempty st1_def ok1 Ei.
  have [ext [heads [new_add [Ei' _ _ _ _]]]] :=
    interact_allP cs1 [::] [::] st1_def ok1 outs_gt0.
  by move: Ei; rewrite Ei' => -[<- _ _ _]; exists ext.
by case: (is_mirror surfoptions) => /=;
  case Ei: (interact_all _ _ _ _ _ _ _ _) => [[[[st2 cs2] fin] new]|] //= [<-] /=;
  exact: main Ei.
Qed.

(** What one entry does to the bundles of well-formed live paths, in
    terms of the stores before and after it: every live path's last
    bundle is advanced in place by [propagate] of the material that is
    current on entry, nothing else that existed changes, and every live
    path is then handed, in that advanced state, to [refract] or
    [reflect] of the one material that is current after the entry. *)
Lemma seqtrace_entry_effects s surfkey surfoptions s' :
  wf_paths (store s) (rpaths s) ->
  seqtrace_entry s (surfkey, surfoptions) = Ok s' ->
  let op := if is_mirror surfoptions then Reflection else Refraction in
  let n := size (rpaths s) in
  let live := [seq last_bundle rp | rp <- rpaths s] in
  exists surf heads,
  let moved rp :=
    propagate (material_at (current_material s))
      (deref (store s) (last_bundle rp)) surf in
  let returned rp :=
    interact op (material_at (current_material s')) (moved rp) surf splitup in
  [/\ dict_get (surfaces self) surfkey = Some surf,
      [/\ size (store s) <= size (store s'),
          [seq deref (store s') l | l <- live] = [seq moved rp | rp <- rpaths s]
        & forall l : loc, l < size (store s) -> l \notin live ->
            deref (store s') l = deref (store s) l],
      [/\ size heads = n,
          take n (rpaths s') =
            [seq appendRayBundle ph.1 ph.2 | ph <- zip (rpaths s) heads]
        & [seq deref (store s') h | h <- heads] =
            [seq head raybundle (returned rp) | rp <- rpaths s]]
    & [seq path_contents (store s') q | q <- drop n (rpaths s')] =
        flatten [seq [seq rcons (path_contents (store s') rp) rb
                        | rb <- behead (returned rp)] | rp <- rpaths s]].
Proof.
move=> wf_s Ee op n live.
have [surf [st1 [heads [[Es [cs1 Ep] _] _ [takeE sz_heads headsE] [dropE _] _]]]] :=
  seqtrace_entry_branches wf_s Ee.
have [ext st'_def] := seqtrace_entry_store wf_s Ee Es Ep.
have /and3P[_ in_s gt0_s] := wf_s.
have [st1' Ep' sz1] := propagate_allP (current_material s) surf (calls s) gt0_s in_s.
move: Ep'; rewrite Ep => -[st1E _]; rewrite -{st1'}st1E in sz1.
have st1P := propagate_all_store (wf_paths_live_uniq wf_s) Ep.
have old l : l < size (store s) -> deref (store s') l = deref st1 l.
  by move=> lt_l; rewrite st'_def deref_cat ?sz1.
have live_in rp : rp \in rpaths s -> last_bundle rp \in live.
  by move=> rp_in; exact: map_f.
have last_lt rp : rp \in rpaths s -> last_bundle rp < size (store s).
  move=> rp_in; apply: (allP in_s); apply/flattenP.
  by exists (raybundles rp); rewrite ?map_f // last_bundle_in // (allP gt0_s).
have movedE rp : rp \in rpaths s ->
    deref st1 (last_bundle rp) =
    propagate (material_at (current_material s))
      (deref (store s) (last_bundle rp)) surf.
  by move=> rp_in; rewrite st1P live_in.
have contentsE rp : rp \in rpaths s ->
    path_contents st1 rp = path_contents (store s') rp.
  move=> rp_in; apply/eq_in_map=> l l_in; rewrite old //.
  by apply: (allP in_s); apply/flattenP; exists (raybundles rp); rewrite ?map_f.
exists surf, heads; split=> //.
- split.
  + by rewrite st'_def size_cat sz1 leq_addr.
  + rewrite /live -map_comp; apply/eq_in_map=> rp rp_in /=.
    by rewrite old ?last_lt // movedE.
  + by move=> l lt_l /negPf l_notin; rewrite old // st1P l_notin.
- split=> //; rewrite headsE; apply/eq_in_map=> rp rp_in.
  by rewrite /Pyrate.outgoing movedE.
- rewrite dropE; congr flatten; apply/eq_in_map=> rp rp_in.
  by rewrite /Pyrate.outgoing movedE // contentsE.
Qed.

(** C2: at a sequence entry that the tracer completes, starting from
    well-formed live paths, let [returned rp] be the list of bundles that
    [refract] (or [reflect], at a mirror) returns for the live path
    [rp]. Every such list is non-empty. The first bundle of each list is
    appended to the existing path, in place. Every further bundle ends a
    new path whose history is a copy, made of new objects, of the history
    of [rp]; these new paths come after the continued ones. So the number
    of live paths grows by (M-1) for each path whose call returns M
    bundles. The paths after the entry are again well formed: no bundle
    object belongs to two of them, so assigning to a bundle of one path
    changes no other path. *)
Theorem seqtrace_entry_branching s surfkey surfoptions s' :
  wf_paths (store s) (rpaths s) ->
  seqtrace_entry s (surfkey, surfoptions) = Ok s' ->
  let op := if is_mirror surfoptions then Reflection else Refraction in
  let n := size (rpaths s) in
  exists surf st1 heads,
  let returned rp := outgoing op (current_material s') surf st1 rp in
  [/\ [/\ dict_get (surfaces self) surfkey = Some surf,
          exists cs1, propagate_all (current_material s) surf (store s)
                        (calls s) (rpaths s) = Ok (st1, cs1)
        & all (fun rp => 0 < size (returned rp)) (rpaths s)],
      size (rpaths s') =
        n + sumn [seq (size (returned rp)).-1 | rp <- rpaths s],
      [/\ take n (rpaths s') =
            [seq appendRayBundle ph.1 ph.2 | ph <- zip (rpaths s) heads],
          size heads = n
        & [seq deref (store s') h | h <- heads] =
            [seq head raybundle (returned rp) | rp <- rpaths s]],
      [/\ [seq path_contents (store s') q | q <- drop n (rpaths s')] =
            flatten [seq [seq rcons (path_contents st1 rp) rb
                            | rb <- behead (returned rp)] | rp <- rpaths s]
        & all (fun l => size (store s) <= l)
              (heads ++ locs_of (drop n (rpaths s')))]
    & wf_paths (store s') (rpaths s') /\
      forall (i j : nat) (l : loc) (b : Bundle),
        i < size (rpaths s') -> j < size (rpaths s') -> i != j ->
        l \in raybundles (nth (mkRayPath [::]) (rpaths s') i) ->
        path_contents (set_nth raybundle (store s') l b)
          (nth (mkRayPath [::]) (rpaths s') j) =
        path_contents (store s') (nth (mkRayPath [::]) (rpaths s') j)].
Proof. exact: seqtrace_entry_branches. Qed.

End SeqTraceEntry.

Section SeqTraceTheory.

Variables (Bundle Surface : Type).
Variable material_at : MatRef -> Material Bundle Surface.
Variable self : OpticalElement Surface.
Variable raybundle : Bundle.
Variable background_medium : MatRef.

Local Notation state := (state Bundle).
Local Notation seqtrace_entry :=
  (seqtrace_entry material_at self raybundle background_medium).
Local Notation seqtrace_loop :=
  (seqtrace_loop material_at self raybundle background_medium).
Local Notation seqtrace :=
  (seqtrace material_at self raybundle background_medium).
Local Notation initial_state := (initial_state raybundle background_medium).

Implicit Types (s : state) (sequence : Sequence) (splitup : bool).

Lemma wf_paths_initial : wf_paths (store initial_state) (rpaths initial_state).
Proof. by []. Qed.

Lemma seqtrace_loop_cons splitup s entry sequence :
  seqtrace_loop splitup s (entry :: sequence) =
  (s' <-- seqtrace_entry splitup s entry ;; seqtrace_loop splitup s' sequence).
Proof. by []. Qed.

(** Every state of a trace is well formed: throughout [seqtrace] no two
    live paths share a bundle. *)
Lemma seqtrace_loop_wf splitup s sequence s' :
  wf_paths (store s) (rpaths s) -> seqtrace_loop splitup s sequence = Ok s' ->
  wf_paths (store s') (rpaths s').
Proof.
elim: sequence s => [|[surfkey surfoptions] sequence IHs] s wf_s.
  by case=> <-.
rewrite seqtrace_loop_cons.
case Ee: (seqtrace_entry _ _ _) => [s1|] // El; apply: IHs El.
by have [surf [st1 [heads [_ _ _ _ []]]]] := seqtrace_entry_branches wf_s Ee.
Qed.

Lemma seqtrace_wf splitup sequence st rps :
  seqtrace splitup sequence = Ok (st, rps) -> wf_paths st rps.
Proof.
rewrite /Pyrate.seqtrace; case El: (seqtrace_loop _ _ _) => [s'|] //= [<- <-].
exact: seqtrace_loop_wf El.
Qed.

(** C3: at a non-mirror entry that the tracer completes, the new current
    material is chosen among the two materials adjacent to the surface
    (each looked up by its key, the background medium standing in for a
    key without material) by identity with the current one: the second
    if the first is the current material, the first otherwise, and so the
    first when the current material is neither of them. It is the
    material every [refract] call of the entry is made on. *)
Theorem seqtrace_entry_material splitup s surfkey surfoptions s' :
  ~~ is_mirror surfoptions ->
  seqtrace_entry splitup s (surfkey, surfoptions) = Ok s' ->
  exists key1 key2,
  let mat1 := dict_get_default (materials self) key1 background_medium in
  let mat2 := dict_get_default (materials self) key2 background_medium in
  [/\ dict_get (surf_mat_connection self) surfkey = Some (key1, key2),
      current_material s' = findoutWhichMaterial mat1 mat2 (current_material s),
      current_material s' = (if mat1 == current_material s then mat2 else mat1),
      mat1 != current_material s -> mat2 != current_material s ->
        current_material s' = mat1
    & [seq c <- drop (size (calls s)) (calls s') | is_refract_call c] =
      [seq CallRefract (current_material s') (last_bundle rp) | rp <- rpaths s]].
Proof.
move=> /negbTE not_mirror Ee; have [[key1 key2] []] := seqtrace_entry_calls Ee.
rewrite not_mirror /= => mats_def cur_def calls_def.
exists key1, key2; split=> //; first by rewrite cur_def /findoutWhichMaterial => /negbTE ->.
rewrite calls_def drop_size_cat // filter_cat !filter_map.
rewrite (@eq_filter _ _ pred0) // filter_pred0 /=.
by rewrite (@eq_filter _ _ predT) // filter_predT.
Qed.

(** C10: one material cursor serves all the live paths of a [seqtrace]
    call. It starts as the background medium. At an entry, reached after
    any part of the sequence and so with any number of live paths,
    branches of earlier entries among them:
    - the cursor after the entry is the cursor on entry at a mirror, and
      [findoutWhichMaterial] of the two adjacent materials at any other
      entry;
    - in the store after the entry, the last bundle of every live path
      is what [propagate] of the material the cursor denoted on entry
      made of it, and every other bundle that existed is as it was;
    - the bundle appended in place to every live path is the first one,
      and the branches made for it end with the further ones, of those
      returned by [refract] ([reflect] at a mirror) of the one material
      the cursor denotes after the entry, called on that propagated
      bundle;
    - the calls are all the [propagate] calls, on the cursor as it stood
      on entry, followed by all the [refract] or [reflect] calls, on the
      cursor as it stands after the entry. *)
Theorem seqtrace_shared_cursor splitup sequence_before surfkey surfoptions s s' :
  seqtrace_loop splitup initial_state sequence_before = Ok s ->
  seqtrace_entry splitup s (surfkey, surfoptions) = Ok s' ->
  let op := if is_mirror surfoptions then Reflection else Refraction in
  let n := size (rpaths s) in
  let live := [seq last_bundle rp | rp <- rpaths s] in
  exists key1 key2 surf heads,
  let mat1 := dict_get_default (materials self) key1 background_medium in
  let mat2 := dict_get_default (materials self) key2 background_medium in
  let moved rp :=
    propagate (material_at (current_material s))
      (deref raybundle (store s) (last_bundle rp)) surf in
  let returned rp :=
    interact op (material_at (current_material s')) (moved rp) surf splitup in
  [/\ [/\ current_material initial_state = background_medium,
          dict_get (surfaces self) surfkey = Some surf,
          dict_get (surf_mat_connection self) surfkey = Some (key1, key2)
        & current_material s' =
            (if is_mirror surfoptions then current_material s
             else findoutWhichMaterial mat1 mat2 (current_material s))],
      [/\ size (store s) <= size (store s'),
          [seq deref raybundle (store s') l | l <- live] =
            [seq moved rp | rp <- rpaths s]
        & forall l : loc, l < size (store s) -> l \notin live ->
            deref raybundle (store s') l = deref raybundle (store s) l],
      [/\ size heads = n,
          take n (rpaths s') =
            [seq appendRayBundle ph.1 ph.2 | ph <- zip (rpaths s) heads],
          [seq deref raybundle (store s') h | h <- heads] =
            [seq head raybundle (returned rp) | rp <- rpaths s]
        & [seq path_contents raybundle (store s') q | q <- drop n (rpaths s')] =
            flatten [seq [seq rcons (path_contents raybundle (store s') rp) rb
                            | rb <- behead (returned rp)] | rp <- rpaths s]]
    & calls s' =
        calls s
        ++ [seq CallPropagate (current_material s) (last_bundle rp)
              | rp <- rpaths s]
        ++ [seq call_of op (current_material s') (last_bundle rp)
              | rp <- rpaths s]].
Proof.
move=> El Ee op n live.
have wf_s := seqtrace_loop_wf wf_paths_initial El.
have [[key1 key2] [mats_def cur_def calls_def]] := seqtrace_entry_calls Ee.
have [surf [heads [Es [sz' movedE keptE] [sz_heads takeE headsE] dropE]]] :=
  seqtrace_entry_effects wf_s Ee.
by exists key1, key2, surf, heads.
Qed.

(** With [splitup=false] and materials that return one bundle, an entry
    extends the only path by one bundle. *)
Lemma seqtrace_entry_single s rp surfkey surfoptions :
  (forall m b surf, size (refract (material_at m) b surf false) = 1) ->
  rpaths s = [:: rp] -> 0 < size (raybundles rp) ->
  ~~ is_mirror surfoptions ->
  dict_get (surfaces self) surfkey -> dict_get (surf_mat_connection self) surfkey ->
  exists s' l,
    seqtrace_entry false s (surfkey, surfoptions) = Ok s'
    /\ rpaths s' = [:: appendRayBundle rp l].
Proof.
move=> one_bundle rps_def rp_gt0 /negbTE not_mirror.
rewrite /Pyrate.seqtrace_entry /dict_item not_mirror rps_def.
case: (dict_get _ _) => [surf|] // _; case: (dict_get _ _) => [mats|] //= _.
rewrite (getitem_last_ok 0) //=.
set m' := findoutWhichMaterial _ _ _; set st1 := set_nth _ _ _ _.
have := one_bundle m' (deref raybundle st1 (last 0 (raybundles rp))) surf.
case: (refract _ _ _ _) => [|b [|b' bs]] //= _.
by eexists; exists (size st1).
Qed.

Lemma seqtrace_loop_single s rp sequence :
  (forall m b surf, size (refract (material_at m) b surf false) = 1) ->
  rpaths s = [:: rp] -> 0 < size (raybundles rp) ->
  all (fun e => ~~ is_mirror e.2) sequence ->
  all (fun e => dict_get (surfaces self) e.1
                && dict_get (surf_mat_connection self) e.1) sequence ->
  exists s' rp',
    [/\ seqtrace_loop false s sequence = Ok s', rpaths s' = [:: rp']
      & size (raybundles rp') = size (raybundles rp) + size sequence].
Proof.
move=> one_bundle.
elim: sequence s rp => [|[surfkey surfoptions] sequence IHs] s rp rps_def rp_gt0.
  by exists s, rp; rewrite addn0.
case/andP=> not_mirror refr /andP[/andP[surf_in mats_in] regd].
have [s1 [l [Ee rps1_def]]] :=
  seqtrace_entry_single one_bundle rps_def rp_gt0 not_mirror surf_in mats_in.
have [|s' [rp' [El rps'_def sz_rp']]] := IHs s1 _ rps1_def _ refr regd.
  by rewrite size_rcons.
exists s', rp'; rewrite seqtrace_loop_cons Ee /=; split=> //.
by rewrite sz_rp' /= size_rcons addSnnS.
Qed.

(** C1, with the condition it needs: when every surface key of the
    sequence is registered in the element (in its surfaces and in its
    surface-material connections), no entry is a mirror, and [refract]
    with [splitup=false] returns exactly one bundle, [seqtrace] with
    [splitup=false] returns exactly one path, of K+1 bundles for a
    sequence of K entries. *)
Theorem seqtrace_single_path sequence :
  (forall m b surf, size (refract (material_at m) b surf false) = 1) ->
  all (fun e => ~~ is_mirror e.2) sequence ->
  all (fun e => dict_get (surfaces self) e.1
                && dict_get (surf_mat_connection self) e.1) sequence ->
  exists st rp,
    seqtrace false sequence = Ok (st, [:: rp])
    /\ size (raybundles rp) = (size sequence).+1.
Proof.
move=> one_bundle refr regd.
have [//|//|s' [rp' [El rps'_def sz_rp']]] :=
  @seqtrace_loop_single initial_state (mkRayPath [:: 0]) sequence
    one_bundle _ _ refr regd.
by exists (store s'), rp'; rewrite /Pyrate.seqtrace El /= rps'_def sz_rp' add1n.
Qed.

(** An entry whose surface key is not registered stops the trace. *)
Lemma seqtrace_entry_unknown_surface splitup s surfkey surfoptions :
  dict_get (surfaces self) surfkey = None ->
  seqtrace_entry splitup s (surfkey, surfoptions) = Raise KeyError.
Proof. by rewrite /Pyrate.seqtrace_entry /dict_item => ->. Qed.

End SeqTraceTheory.

(** ** The least-squares fit *)

Section BestFit.
Import GRing.Theory.
Local Open Scope ring_scope.

Variable C : fieldType.
Variables (Im : C -> C).
Variable compare_norm : forall m n : nat, 'M[C]_(m, n) -> comparison.

Local Notation bestfit_transfer := (bestfit_transfer Im compare_norm).
Local Notation imag_rows_near_zero := (imag_rows_near_zero compare_norm).
Local Notation norm_lt_tolerance := (norm_lt_tolerance compare_norm).
Local Notation norm_gt_tolerance := (norm_gt_tolerance compare_norm).
Local Notation fit_messages := (fit_messages Im compare_norm).

(** The transposed [einsum] products are the normal matrices: a matrix
    product with the plain transpose. *)
Lemma einsum_ij_kj_tr (r1 r2 n : nat) (A : 'M[C]_(r1, n)) (B : 'M[C]_(r2, n)) :
  (einsum_ij_kj A B)^T = B *m A^T.
Proof.
apply/matrixP=> i k; rewrite !mxE; apply: eq_bigr => j _.
by rewrite !mxE mulrC.
Qed.

Lemma bestfit_transferE (use6x6 : bool) (n : nat) (X Y : 'M[C]_(rows use6x6, n)) :
  let substituted := use6x6 && imag_rows_near_zero X Y in
  let XX := if substituted then set_eye_from_4 (X *m X^T) else X *m X^T in
  let YX := if substituted then set_eye_from_4 (Y *m X^T) else Y *m X^T in
  let warned :=
    if substituted then
      [:: Warning "Start or end matrix contain zero rows: setting them to unity"]
    else [::] in
  bestfit_transfer X Y =
  if XX \in unitmx then
    (warned ++ fit_messages (YX *m invmx XX), Ok (YX *m invmx XX))
  else (warned, Raise LinAlgError).
Proof.
rewrite /Pyrate.bestfit_transfer !einsum_ij_kj_tr /Pyrate.fit_messages /linalg_inv.
case: use6x6 X Y => X Y /=.
  by case: (_ || _) => /=; case: ifP.
by case: ifP => //= _; case: ifP.
Qed.

(** C5: when no sub-block is substituted (4-row mode, or 6-row mode with
    neither [X[4:, :]] nor [Y[4:, :]] below the tolerance) and X X^T is
    invertible, the fit returns (Y X^T)(X X^T)^-1, with the plain
    transpose. Each of the three stages of a hit interval is such a fit
    of its output state Y against its input state X. *)
Theorem bestfit_transfer_normal_equations (use6x6 : bool) (n : nat)
    (X Y : 'M[C]_(rows use6x6, n)) :
  ~~ (use6x6 && imag_rows_near_zero X Y) ->
  X *m X^T \in unitmx ->
  (bestfit_transfer X Y).2 = Ok (Y *m X^T *m invmx (X *m X^T)).
Proof. by rewrite bestfit_transferE => /negbTE -> ->. Qed.

(** C6, as the code has it: in 6-row mode the test is on the two rows of
    imaginary parts only, [X[4:, :]] and [Y[4:, :]]. Exactly when one of
    them has a norm below the tolerance, the warning is logged and the
    entries of X X^T and of Y X^T in rows and columns 4 and 5 are
    replaced by those of the 2x2 identity; the fit then goes on to the
    inversion with these matrices, and returns their quotient when the
    substituted X X^T is invertible. The rows of real parts, [X[2:4, :]]
    and [Y[2:4, :]], are not looked at. *)
Theorem bestfit_transfer_zero_rows (n : nat) (X Y : 'M[C]_(rows true, n)) :
  let near_zero :=
    norm_lt_tolerance (rows_from_4 X) || norm_lt_tolerance (rows_from_4 Y) in
  let XX := if near_zero then set_eye_from_4 (X *m X^T) else X *m X^T in
  let YX := if near_zero then set_eye_from_4 (Y *m X^T) else Y *m X^T in
  let warned :=
    if near_zero then
      [:: Warning "Start or end matrix contain zero rows: setting them to unity"]
    else [::] in
  [/\ bestfit_transfer X Y =
        if XX \in unitmx then (warned ++ [:: Debug], Ok (YX *m invmx XX))
        else (warned, Raise LinAlgError),
      forall A : 'M[C]_(rows true),
        drsubmx (drsubmx (set_eye_from_4 A)) = 1%:M
    & forall (A : 'M[C]_(rows true)) (i j : 'I_(rows true)),
        ~~ ((4 <= i) && (4 <= j))%N -> set_eye_from_4 A i j = A i j].
Proof.
split; first by rewrite bestfit_transferE.
- move=> A; apply/matrixP=> i j; rewrite !mxE /=.
  by rewrite (inj_eq (@rshift_inj 2 (2 + 2))) (inj_eq (@rshift_inj 2 2)).
- by move=> A i j /negbTE; rewrite mxE => ->.
Qed.

End BestFit.

(** ** The paths of a trace all have one bundle per entry, and one more *)

Lemma lbind_ok_inv (A B : Type) (m : logged A) (f : A -> logged B)
    (l : seq log_event) (b : B) :
  lbind m f = (l, Ok b) ->
  exists l1 a l2, [/\ m = (l1, Ok a), f a = (l2, Ok b) & l = l1 ++ l2].
Proof.
case: m => l1 [a|e] //=; case Ef: (f a) => [l2 r] [<- r_def].
by exists l1, a, l2; rewrite Ef r_def.
Qed.

Lemma lift_ok_inv (A : Type) (r : result A) (l : seq log_event) (a : A) :
  lift r = (l, Ok a) -> r = Ok a /\ l = [::].
Proof. by case=> <- ->. Qed.

Lemma lbind_lift_ok (A B : Type) (a : A) (f : A -> logged B) :
  lbind (lift (Ok a)) f = f a.
Proof. by rewrite /lbind /lift; case: (f a). Qed.

Lemma lbind_ok (A B : Type) (l : seq log_event) (a : A) (f : A -> logged B) :
  lbind (l, Ok a) f = (l ++ (f a).1, (f a).2).
Proof. by rewrite /lbind; case: (f a). Qed.

Lemma lbind_emit (B : Type) (ev : log_event) (f : unit -> logged B) :
  lbind (emit ev) f = (ev :: (f tt).1, (f tt).2).
Proof. by rewrite /emit lbind_ok. Qed.

Section PathSizes.

Variables (Bundle Surface : Type).
Variable material_at : MatRef -> Material Bundle Surface.
Variable self : OpticalElement Surface.
Variable raybundle : Bundle.
Variable background_medium : MatRef.
Variable splitup : bool.

Local Notation state := (state Bundle).
Local Notation seqtrace_entry :=
  (seqtrace_entry material_at self raybundle background_medium splitup).
Local Notation seqtrace_loop :=
  (seqtrace_loop material_at self raybundle background_medium splitup).
Local Notation seqtrace :=
  (seqtrace material_at self raybundle background_medium splitup).
Local Notation initial_state := (initial_state raybundle background_medium).

Lemma seqtrace_entry_sizes (s s' : state) entry (k : nat) :
  wf_paths (store s) (rpaths s) ->
  all (fun rp => size (raybundles rp) == k) (rpaths s) ->
  seqtrace_entry s entry = Ok s' ->
  all (fun rp => size (raybundles rp) == k.+1) (rpaths s').
Proof.
case: entry => surfkey surfoptions wf_s sz_s Ee.
have [surf [st1 [heads [_ _ [takeE sz_heads _] [dropE _] _]]]] :=
  seqtrace_entry_branches wf_s Ee.
rewrite -(cat_take_drop (size (rpaths s)) (rpaths s')) all_cat; apply/andP; split.
  rewrite takeE; move: sz_s sz_heads {takeE dropE wf_s Ee}.
  elim: (rpaths s) heads => [|rp rps IHr] [|h hs] //= /andP[/eqP sz_rp sz_rps] [sz].
  by rewrite size_rcons sz_rp eqxx IHr.
have : all (fun c => size c == k.+1)
         [seq path_contents raybundle (store s') q
            | q <- drop (size (rpaths s)) (rpaths s')].
  rewrite dropE all_flatten_all all_map; apply/allP=> rp rp_in /=.
  rewrite all_map; apply/(all_nthP raybundle)=> i _ /=.
  by rewrite size_rcons size_map (eqP (allP sz_s _ rp_in)).
by rewrite all_map; apply: sub_all => q /=; rewrite size_map.
Qed.

Lemma seqtrace_loop_sizes (s s' : state) sequence (k : nat) :
  wf_paths (store s) (rpaths s) ->
  all (fun rp => size (raybundles rp) == k) (rpaths s) ->
  seqtrace_loop s sequence = Ok s' ->
  all (fun rp => size (raybundles rp) == k + size sequence) (rpaths s').
Proof.
elim: sequence s k => [|entry sequence IHs] s k wf_s sz_s.
  by case=> <-; rewrite addn0.
rewrite seqtrace_loop_cons; case Ee: (seqtrace_entry _ _) => [s1|] //= El.
rewrite addnS -addSn; apply: IHs El; last exact: seqtrace_entry_sizes Ee.
by case: entry Ee => surfkey surfoptions Ee;
   have [surf [st1 [heads [_ _ _ _ []]]]] := seqtrace_entry_branches wf_s Ee.
Qed.

(** Every path that [seqtrace] returns, branches included, has K+1
    bundles for a sequence of K entries. *)
Lemma seqtrace_sizes sequence st rps :
  seqtrace sequence = Ok (st, rps) ->
  all (fun rp => size (raybundles rp) == (size sequence).+1) rps.
Proof.
rewrite /Pyrate.seqtrace; case El: (seqtrace_loop _ _) => [s'|] //= [_ <-].
by rewrite -add1n; apply: seqtrace_loop_sizes El.
Qed.

End PathSizes.

(** ** The table of transfer matrices *)

Section TransferTable.
Import GRing.Theory.
Local Open Scope ring_scope.

Variable C : fieldType.
Variables (Re Im : C -> C) (imag_unit : C).
Variable compare_norm : forall m n : nat, 'M[C]_(m, n) -> comparison.
Variables (Surface Frame : Type).
Variable rootcoordinatesystem : Surface -> Frame.
Variable returnGlobalToLocalPoints :
  Frame -> forall N : nat, 'M[C]_(2 + 1, N) -> 'M[C]_(2 + 1, N).
Variable returnGlobalToLocalDirections :
  Frame -> forall N : nat, 'M[C]_(2 + 1, N) -> 'M[C]_(2 + 1, N).
Variable n : nat.
Variable material_at : MatRef -> Material (RayBundle C (1 + n)) Surface.
Variable self : OpticalElement Surface.

Local Notation interval_transfer :=
  (interval_transfer Re Im compare_norm rootcoordinatesystem
     returnGlobalToLocalPoints returnGlobalToLocalDirections self).
Local Notation calculateXYUV_loop :=
  (calculateXYUV_loop Re Im compare_norm rootcoordinatesystem
     returnGlobalToLocalPoints returnGlobalToLocalDirections self).
Local Notation calculateXYUV :=
  (calculateXYUV Re Im compare_norm rootcoordinatesystem
     returnGlobalToLocalPoints returnGlobalToLocalDirections material_at self).

Lemma sequence_to_hitlist_round_trip (a b : string) (opts1 opts2 opts3 : options) :
  a != b ->
  (sequence_to_hitlist [:: (a, opts1); (b, opts2); (a, opts3)]).1 =
  [:: (a, b, 1%N); (b, a, 1%N)].
Proof.
move=> ne_ab; rewrite /sequence_to_hitlist /= /dict_get_default /=.
by rewrite xpair_eqE (negPf ne_ab).
Qed.

Lemma store_transfer_ok_inv (use6x6 : bool)
    (table table' : dict hit 'M[C]_(rows use6x6)) (s1 s2 : string) (numhit : nat)
    (transfer : 'M[C]_(rows use6x6)) :
  store_transfer table (s1, s2, numhit) transfer = Ok table' ->
  table' = dict_set (dict_set table (s1, s2, numhit) transfer)
             (s2, s1, numhit) (invmx transfer).
Proof. by rewrite /store_transfer /linalg_inv; case: ifP => //= _ [<-]. Qed.

Lemma calculateXYUV_loop_cons (use6x6 : bool) (pb1 pb2 : RayBundle C (1 + n))
    (surfhit : hit) (intervals : seq (RayBundle C (1 + n) * RayBundle C (1 + n) * hit))
    (table : dict hit 'M[C]_(rows use6x6)) :
  calculateXYUV_loop ((pb1, pb2, surfhit) :: intervals) table =
  (transfer <== interval_transfer use6x6 pb1 pb2 surfhit ;;
   table' <== lift (store_transfer table surfhit transfer) ;;
   calculateXYUV_loop intervals table').
Proof. by []. Qed.

(** C7 fails on a sequence that crosses from one surface to another and
    back: the hit list of the keys a, b, a is (a, b, 1), (b, a, 1), and
    the second hit writes its transfer T2 under the key (b, a, 1), where
    the first had put the inverse of its own transfer T1, and the inverse
    of T2 under (a, b, 1), where the first had put T1. The table that
    [calculateXYUV] returns holds nothing of T1. *)
Theorem calculateXYUV_round_trip_overwrites (pilotinitbundle : RayBundle C (1 + n))
    (a b : string) (opts1 opts2 opts3 : options) (background_medium : MatRef)
    (pilotraypath_nr : nat) (use6x6 : bool) (log : seq log_event)
    (st : Store (RayBundle C (1 + n))) (pilotraypath : RayPath)
    (table : dict hit 'M[C]_(rows use6x6)) :
  a != b ->
  calculateXYUV pilotinitbundle [:: (a, opts1); (b, opts2); (a, opts3)]
    background_medium pilotraypath_nr use6x6
  = (log, Ok (st, pilotraypath, table)) ->
  exists pb1 pb2 pb3 pb4 l1 l2 (T1 T2 : 'M[C]_(rows use6x6)),
  [/\ path_contents pilotinitbundle st pilotraypath = [:: pb1; pb2; pb3; pb4],
      interval_transfer use6x6 pb1 pb2 (a, b, 1%N) = (l1, Ok T1),
      interval_transfer use6x6 pb2 pb3 (b, a, 1%N) = (l2, Ok T2),
      table = [:: ((a, b, 1%N), invmx T2); ((b, a, 1%N), T2)]
    & dict_get table (a, b, 1%N) = Some (invmx T2)
      /\ dict_get table (b, a, 1%N) = Some T2].
Proof.
move=> ne_ab; rewrite /Pyrate.calculateXYUV.
have := sequence_to_hitlist_round_trip opts1 opts2 opts3 ne_ab.
case: (sequence_to_hitlist _) => hitlist optionshitlistdict.
rewrite [(_, _).1]/= => ->; cbv beta iota.
move=> E; case: (lbind_ok_inv E) => {E} ? [[st0 rps] [l0 [Etrace' E _]]]; have [Etrace _] := lift_ok_inv Etrace'; move: E.
move=> E; case: (lbind_ok_inv E) => {E} ? [? [? [_ E _]]]; move: E.
move=> E; case: (lbind_ok_inv E) => {E} ? [? [? [_ E _]]]; move: E.
move=> E; case: (lbind_ok_inv E) => {E} ? [rp [l3 [Erp' E _]]]; have [Erp _] := lift_ok_inv Erp'; move: E.
move=> E; case: (lbind_ok_inv E) => {E} lt [tbl [? [Eloop [_ <- <- <-] _]]].
have sz_rp : size (path_contents pilotinitbundle st0 rp) = 4.
  have rp_in : rp \in rps.
    move: Erp; rewrite /getitem; case: ifP => // lt_nr.
    case Ed: (drop _ _) => [|rp' rps'] // [<-].
    have -> : rp' = nth rp' rps pilotraypath_nr.
      by rewrite -[pilotraypath_nr in RHS]addn0 -nth_drop Ed.
    exact: mem_nth.
  by rewrite /Pyrate.path_contents size_map (eqP (allP (seqtrace_sizes Etrace) _ rp_in)).
case Ec: (path_contents _ _ _) sz_rp Eloop => [|pb1 [|pb2 [|pb3 [|pb4 [|? ?]]]]] // _.
rewrite /pilot_intervals /all_but_last [size _]/= [take _ _]/= [behead _]/= [zip _ _]/=.
rewrite !calculateXYUV_loop_cons.
move=> E; case: (lbind_ok_inv E) => {E} l1 [T1 [l1' [ET1 E _]]]; move: E.
move=> E; case: (lbind_ok_inv E) => {E} ? [tbl1 [l1'' [Es1 E _]]]; have [/store_transfer_ok_inv Es1' _] := lift_ok_inv Es1; move: E; rewrite {}Es1' {Es1}.
move=> E; case: (lbind_ok_inv E) => {E} l2 [T2 [l2' [ET2 E _]]]; move: E.
move=> E; case: (lbind_ok_inv E) => {E} ? [tbl2 [l2'' [Es2 E _]]]; have [/store_transfer_ok_inv Es2' _] := lift_ok_inv Es2; move: E; rewrite {}Es2' {Es2}.
case=> _ <-.
exists pb1, pb2, pb3, pb4, l1, l2, T1, T2.
have ne_hit : ((a, b, 1%N) == (b, a, 1%N) :> hit) = false.
  by rewrite !xpair_eqE (negPf ne_ab).
have tblE : dict_set (dict_set (dict_set (dict_set [::] (a, b, 1%N) T1)
                (b, a, 1%N) (invmx T1)) (b, a, 1%N) T2) (a, b, 1%N) (invmx T2)
            = [:: ((a, b, 1%N), invmx T2); ((b, a, 1%N), T2)].
  rewrite [dict_set [::] _ _]/= (dict_set_cons [::]) ne_hit [dict_set [::] _ _]/=.
  by rewrite dict_set_cons ne_hit dict_set_cons eqxx dict_set_cons eqxx.
by rewrite tblE !dict_get_cons eqxx ne_hit eqxx.
Qed.

End TransferTable.

(** ** The differential propagator *)

Lemma getitem_last_rcons (T : Type) (s : seq T) (x : T) :
  getitem_last (rcons s x) = Ok x.
Proof. by case: s => [|y s] //=; rewrite last_rcons. Qed.

Lemma getitem_in (T : eqType) (s : seq T) (i : nat) (x : T) :
  getitem s i = Ok x -> x \in s.
Proof.
rewrite /getitem; case: ifP => // lt_i; case Ed: (drop i s) => [|y s'] // [<-].
have -> : y = nth y s i by rewrite -[i in RHS]addn0 -nth_drop Ed.
exact: mem_nth.
Qed.

Lemma size_sequence_to_hitlist (sequence : Sequence) :
  size (sequence_to_hitlist sequence).1 = (size sequence).-1.
Proof.
rewrite -(size_map hit_pair) /sequence_to_hitlist hitlist_loop_pairs /=.
rewrite size_map size_zip /all_but_last size_take size_behead !size_map.
by case: (size sequence) => [|k] //=; rewrite leqnn minnn.
Qed.

Lemma dict_item_ok_inv (K : eqType) (V : Type) (d : dict K V) (k : K) (v : V) :
  dict_item d k = Ok v -> dict_get d k = Some v.
Proof. by rewrite /dict_item; case: (dict_get d k) => [v'|] // [->]. Qed.

(** The last element of a prefix of a list that starts with [x]. *)
Lemma last_take_nth (T : Type) (x : T) (s : seq T) (i : nat) :
  i <= size s -> last x (take i s) = nth x (x :: s) i.
Proof.
elim: s x i => [|y s IHs] x [|i] //= lt_i.
by rewrite IHs //; apply: set_nth_default.
Qed.

Section DifferentialPropagator.
Import GRing.Theory.
Local Open Scope ring_scope.

Variable C : fieldType.
Variables (Re Im : C -> C) (imag_unit : C).
Variable compare_norm : forall m n : nat, 'M[C]_(m, n) -> comparison.
Variables (Surface Frame : Type).
Variable rootcoordinatesystem : Surface -> Frame.
Variable returnGlobalToLocalPoints :
  Frame -> forall N : nat, 'M[C]_(2 + 1, N) -> 'M[C]_(2 + 1, N).
Variable returnGlobalToLocalDirections :
  Frame -> forall N : nat, 'M[C]_(2 + 1, N) -> 'M[C]_(2 + 1, N).
Variable returnLocalToGlobalPoints :
  Frame -> forall N : nat, 'M[C]_(2 + 1, N) -> 'M[C]_(2 + 1, N).
Variable returnLocalToGlobalDirections :
  Frame -> forall N : nat, 'M[C]_(2 + 1, N) -> 'M[C]_(2 + 1, N).
Variable default_Efield : forall N : nat, 'M[C]_(2 + 1, N).
Variable initial_valid : forall N : nat, 'rV[bool]_N.
Variable n : nat.
Variable material_at : MatRef -> Material (RayBundle C (1 + n)) Surface.
Variable self : OpticalElement Surface.

Local Notation PilotBundle := (RayBundle C (1 + n)).
Local Notation calculateXYUV :=
  (calculateXYUV Re Im compare_norm rootcoordinatesystem
     returnGlobalToLocalPoints returnGlobalToLocalDirections material_at self).
Local Notation para_step :=
  (para_step Re Im imag_unit rootcoordinatesystem
     returnGlobalToLocalPoints returnGlobalToLocalDirections
     returnLocalToGlobalPoints returnLocalToGlobalDirections
     default_Efield initial_valid self).
Local Notation para_seqtrace_loop :=
  (para_seqtrace_loop Re Im imag_unit rootcoordinatesystem
     returnGlobalToLocalPoints returnGlobalToLocalDirections
     returnLocalToGlobalPoints returnLocalToGlobalDirections
     default_Efield initial_valid self).
Local Notation para_seqtrace :=
  (para_seqtrace Re Im imag_unit compare_norm rootcoordinatesystem
     returnGlobalToLocalPoints returnGlobalToLocalDirections
     returnLocalToGlobalPoints returnLocalToGlobalDirections
     default_Efield initial_valid material_at self).
Local Notation appended_ok :=
  (appended_ok returnLocalToGlobalPoints returnLocalToGlobalDirections).

(** The row added by [np.vstack((d, np.zeros(...)))] is zero. *)
Lemma vstack_zeros_row2 (N : nat) (d : 'M[C]_(2, N)) (j : 'I_N) :
  vstack_zeros d (rshift 2 ord0) j = 0.
Proof. by rewrite /vstack_zeros col_mxEd mxE. Qed.

Lemma calculateXYUV_ok_inv (pilotinitbundle : PilotBundle) sequence
    background_medium pilotraypath_nr use6x6 log st pilotraypath
    (table : dict hit 'M[C]_(rows use6x6)) :
  calculateXYUV pilotinitbundle sequence background_medium pilotraypath_nr use6x6
  = (log, Ok (st, pilotraypath, table)) ->
  exists2 rps,
    seqtrace material_at self pilotinitbundle background_medium true sequence
    = Ok (st, rps) & pilotraypath \in rps.
Proof.
rewrite /Pyrate.calculateXYUV.
case: (sequence_to_hitlist _) => hitlist optionshitlistdict.
move=> E; case: (lbind_ok_inv E) => {E} ? [[st0 rps] [? [Etrace' E _]]].
have [Etrace _] := lift_ok_inv Etrace'; move: E.
move=> E; case: (lbind_ok_inv E) => {E} ? [? [? [_ E _]]]; move: E.
move=> E; case: (lbind_ok_inv E) => {E} ? [? [? [_ E _]]]; move: E.
move=> E; case: (lbind_ok_inv E) => {E} ? [rp [? [Erp' E _]]].
have [/getitem_in rp_in _] := lift_ok_inv Erp'; move: E.
move=> E; case: (lbind_ok_inv E) => {E} ? [tbl [? [_ [_ st_def rp_def _] _]]].
by exists rps; rewrite -?st_def -?rp_def.
Qed.

(** The intervals of the loop: a pilot path of K+1 bundles against the
    K-1 hits of a sequence of K entries. *)
Lemma pilot_intervals_nth (bundles : seq PilotBundle) (hitlist : seq hit)
    (pb0 : PilotBundle) (h0 : hit) (i : nat) :
  (size hitlist < size bundles)%N -> (i < size hitlist)%N ->
  size (pilot_intervals bundles hitlist) = size hitlist
  /\ nth (pb0, pb0, h0) (pilot_intervals bundles hitlist) i
     = (nth pb0 bundles i, nth pb0 bundles i.+1, nth h0 hitlist i).
Proof.
move=> lt_sz lt_i; rewrite /pilot_intervals /all_but_last.
have sz_zip : size (zip (take (size bundles).-1 bundles) (behead bundles))
              = (size bundles).-1.
  rewrite size_zip size_take size_behead.
  by case: (size bundles) => [|k] //=; rewrite leqnn minnn.
have sz : size (zip (zip (take (size bundles).-1 bundles) (behead bundles)) hitlist)
          = size hitlist.
  rewrite size_zip sz_zip; apply/minn_idPr.
  by case: (size bundles) lt_sz.
split=> //; rewrite nth_zip_cond sz lt_i nth_zip_cond sz_zip.
have lt_i' : (i < (size bundles).-1)%N.
  by case: (size bundles) lt_sz => [|k] //= le_k; apply: leq_trans lt_i le_k.
by rewrite lt_i' nth_take // nth_behead.
Qed.

(** The bundle that one pass of the loop appends: what the pass looks
    up, and the bundle it builds from the transfer matrix of the hit. *)
Lemma para_step_appended (use6x6 : bool) (N : nat)
    (matrices : dict hit 'M[C]_(rows use6x6)) (ps pe : PilotBundle)
    (surfhit : hit) (last_bundle nb : RayBundle C N) :
  para_step matrices ps pe surfhit last_bundle = Ok nb ->
  exists surf_start surf_end matrix x0_glob k0_glob ps_x ps_k pe_x pe_k,
  [/\ [/\ dict_get (surfaces self) surfhit.1.1 = Some surf_start,
          dict_get (surfaces self) surfhit.1.2 = Some surf_end
        & dict_get matrices surfhit = Some matrix],
      [/\ getitem_last (ray_x last_bundle) = Ok x0_glob,
          getitem_last (ray_k last_bundle) = Ok k0_glob,
          getitem_last (ray_x ps) = Ok ps_x,
          getitem_last (ray_k ps) = Ok ps_k
        & getitem_last (ray_x pe) = Ok pe_x /\ getitem_last (ray_k pe) = Ok pe_k]
    & let lcstart := rootcoordinatesystem surf_start in
      let lcend := rootcoordinatesystem surf_end in
      let px0 := returnGlobalToLocalPoints lcstart (col ord0 ps_x) in
      let pk0 := returnGlobalToLocalDirections lcstart (col ord0 ps_k) in
      let px1 := returnGlobalToLocalPoints lcend (col ord0 pe_x) in
      let pk1 := returnGlobalToLocalDirections lcend (col ord0 pe_k) in
      let dx0 := usubmx (minus_column (returnGlobalToLocalPoints lcstart x0_glob) px0) in
      let dk0 := usubmx (minus_column (returnGlobalToLocalDirections lcstart k0_glob) pk0) in
      let DX1 := matrix *m vstack_state use6x6 dx0 dk0 (map_mx Re dk0) (map_mx Im dk0) in
      appended_ok lcend (usubmx DX1) (Pyrate.direction_of_state imag_unit DX1) px1 pk1 nb].
Proof.
case: surfhit => [[surf_start_key surf_end_key] hit_nr]; rewrite /Pyrate.para_step.
case Es1: (dict_item _ _) => [surf_start|] //=.
case Es2: (dict_item _ _) => [surf_end|] //=.
case Ex0: (getitem_last _) => [x0_glob|] //=; case Ek0: (getitem_last _) => [k0_glob|] //=.
case Epsx: (getitem_last _) => [ps_x|] //=; case Epsk: (getitem_last _) => [ps_k|] //=.
case Epex: (getitem_last _) => [pe_x|] //=; case Epek: (getitem_last _) => [pe_k|] //=.
case Em: (dict_item _ _) => [matrix|] //= [<-].
exists surf_start, surf_end, matrix, x0_glob, k0_glob, ps_x, ps_k, pe_x, pe_k.
split; first by split; exact: dict_item_ok_inv.
  by split.
rewrite /Pyrate.appended_ok /= ?getitem_last_rcons /para_local.
set dx1 := usubmx _; set dk1 := Pyrate.direction_of_state _ _.
exists (vstack_zeros dx1), (vstack_zeros dk1).
by split=> //; split=> // [|j]; rewrite /vstack_zeros ?col_mxKu ?vstack_zeros_row2.
Qed.

(** The loop appends one bundle for every interval, each made by
    [para_step] from the last bundle of the output path so far. *)
Lemma para_seqtrace_loop_appended (use6x6 : bool) (N : nat)
    (matrices : dict hit 'M[C]_(rows use6x6))
    (intervals : seq (PilotBundle * PilotBundle * hit))
    (raybundle : RayBundle C N) (rpath rpath' : seq (RayBundle C N))
    (pb0 : PilotBundle) (h0 : hit) :
  para_seqtrace_loop matrices intervals raybundle rpath = Ok rpath' ->
  exists appended,
    [/\ rpath' = rpath ++ appended, size appended = size intervals
      & forall i, (i < size intervals)%N ->
          let itv := nth (pb0, pb0, h0) intervals i in
          para_step matrices itv.1.1 itv.1.2 itv.2
            (last raybundle (rpath ++ take i appended))
          = Ok (nth raybundle appended i)].
Proof.
elim: intervals rpath => [|[[ps pe] surfhit] intervals IHi] rpath /=.
  by case=> <-; exists [::]; rewrite cats0.
case Es: (para_step _ _ _ _ _) => [nb|] //= /IHi [appended [-> sz_app stepE]].
exists (nb :: appended); split; rewrite -?cats1 -?catA //= ?sz_app //.
case=> [_|i lt_i] /=; first by rewrite cats0.
by have := stepE i lt_i; rewrite -cats1 -catA.
Qed.

(** C8: when [para_seqtrace] returns, its output path is the caller's
    bundle followed by one appended bundle per hit of the hit list. The
    appended bundle number [i] belongs to the hit number [i], to the
    pilot bundles [i] and [i+1] of the pilot path and to the transfer
    matrix that the table of [calculateXYUV] holds for this hit. With
    [lcend] the frame of the surface the hit ends on, [px1] and [pk1] the
    pilot ray of pilot bundle [i+1] in that frame, and [DX1] the transfer
    matrix applied to the difference state of the previous bundle of the
    output path, the last position and direction of the appended bundle
    are the global coordinates of DX + px1 and DK + pk1, where the first
    two rows of DX and DK are the position and direction differences of
    [DX1] and their third row is exactly zero. Its last validity mask is
    true for every ray, whatever the geometry: no aperture or validity
    check is made. *)
Theorem para_seqtrace_appended_bundles (N : nat) (pilotbundle : PilotBundle)
    (raybundle : RayBundle C N) (sequence : Sequence) (background_medium : MatRef)
    (pilotraypath_nr : nat) (use6x6 : bool) (log : seq log_event)
    (st : Store PilotBundle) (pilotraypath : RayPath)
    (rpath : seq (RayBundle C N)) :
  para_seqtrace pilotbundle raybundle sequence background_medium
    pilotraypath_nr use6x6 = (log, Ok (st, pilotraypath, rpath)) ->
  let hitlist := (sequence_to_hitlist sequence).1 in
  let bundles := path_contents pilotbundle st pilotraypath in
  exists (table : dict hit 'M[C]_(rows use6x6)) (appended : seq (RayBundle C N)),
    [/\ exists log', calculateXYUV pilotbundle sequence background_medium
                       pilotraypath_nr use6x6
                     = (log', Ok (st, pilotraypath, table)),
        rpath = raybundle :: appended,
        size appended = (size sequence).-1
      & forall i, (i < size appended)%N ->
          let surfhit := nth (""%string, ""%string, 0%N) hitlist i in
          let ps := nth pilotbundle bundles i in
          let pe := nth pilotbundle bundles i.+1 in
          let previous := nth raybundle rpath i in
          exists surf_start surf_end matrix x0_glob k0_glob ps_x ps_k pe_x pe_k,
          [/\ [/\ dict_get (surfaces self) surfhit.1.1 = Some surf_start,
                  dict_get (surfaces self) surfhit.1.2 = Some surf_end
                & dict_get table surfhit = Some matrix],
              [/\ getitem_last (ray_x previous) = Ok x0_glob,
                  getitem_last (ray_k previous) = Ok k0_glob,
                  getitem_last (ray_x ps) = Ok ps_x,
                  getitem_last (ray_k ps) = Ok ps_k
                & getitem_last (ray_x pe) = Ok pe_x
                  /\ getitem_last (ray_k pe) = Ok pe_k]
            & let lcstart := rootcoordinatesystem surf_start in
              let lcend := rootcoordinatesystem surf_end in
              let px0 := returnGlobalToLocalPoints lcstart (col ord0 ps_x) in
              let pk0 := returnGlobalToLocalDirections lcstart (col ord0 ps_k) in
              let px1 := returnGlobalToLocalPoints lcend (col ord0 pe_x) in
              let pk1 := returnGlobalToLocalDirections lcend (col ord0 pe_k) in
              let dx0 :=
                usubmx (minus_column
                          (returnGlobalToLocalPoints lcstart x0_glob) px0) in
              let dk0 :=
                usubmx (minus_column
                          (returnGlobalToLocalDirections lcstart k0_glob) pk0) in
              let DX1 :=
                matrix *m vstack_state use6x6 dx0 dk0
                            (map_mx Re dk0) (map_mx Im dk0) in
              appended_ok lcend (usubmx DX1) (Pyrate.direction_of_state imag_unit DX1)
                px1 pk1 (nth raybundle appended i)]].
Proof.
rewrite /Pyrate.para_seqtrace.
move=> E; case: (lbind_ok_inv E) => {E} l1 [[[st0 rp] matrices] [? [Ecalc E _]]].
move: E; cbv beta iota.
have hitlist_sz := size_sequence_to_hitlist sequence.
case: (sequence_to_hitlist _) hitlist_sz => hitlist optionshitlistdict /= hitlist_sz.
case Eloop: (para_seqtrace_loop _ _ _ _) => [rpath'|] //= [_ st_def rp_def <-].
rewrite -{st}st_def -{pilotraypath}rp_def.
have [appended [-> sz_app stepE]] :=
  para_seqtrace_loop_appended pilotbundle (""%string, ""%string, 0%N) Eloop.
have [rps Etrace rp_in] := calculateXYUV_ok_inv Ecalc.
have /eqP sz_rp := allP (seqtrace_sizes Etrace) _ rp_in.
have lt_sz : (size hitlist < size (path_contents pilotbundle st0 rp))%N.
  by rewrite size_map sz_rp hitlist_sz; case: (size sequence).
have sz_itv : size (pilot_intervals (path_contents pilotbundle st0 rp) hitlist)
              = size hitlist.
  rewrite /pilot_intervals !size_zip /all_but_last size_take size_behead !size_map.
  by rewrite sz_rp hitlist_sz /= leqnn minnn; case: (size sequence) => [|k] //=;
     rewrite (minn_idPr (leqnSn k)).
exists matrices, appended; split=> //; first by exists l1.
  by rewrite sz_app sz_itv.
move=> i lt_i; rewrite sz_app sz_itv in lt_i.
have [_ itvE] := pilot_intervals_nth pilotbundle (""%string, ""%string, 0%N) lt_sz lt_i.
have := stepE i; rewrite sz_itv itvE /= => /(_ lt_i).
rewrite last_take_nth; first by rewrite sz_app sz_itv ltnW.
exact: para_step_appended.
Qed.

End DifferentialPropagator.

(** ** The tracer on two surfaces *)

(** The hit list of a sequence that crosses s1, s2 and comes back. *)
Lemma sequence_to_hitlist_hits_witness :
  let s : Sequence :=
    [:: ("s1"%string, [::]); ("s2"%string, [::]); ("s1"%string, [::]);
        ("s2"%string, [::])] in
  0 < size s
  /\ (sequence_to_hitlist s).1 =
     [:: ("s1"%string, "s2"%string, 1); ("s2"%string, "s1"%string, 1);
         ("s1"%string, "s2"%string, 2)]
  /\ hits_of ("s1"%string, "s2"%string) (sequence_to_hitlist s).1 = [:: 1; 2].
Proof.
move=> s; have s_gt0 : 0 < size s by [].
have [_ _ hitsE] := sequence_to_hitlist_hits s_gt0.
split; [exact: s_gt0 | split; [reflexivity | rewrite hitsE; reflexivity]].
Defined.

(** C1 as stated fails when a surface key is not registered: the
    sequence below has one entry, which is no mirror, and the material
    returns one bundle, but [seqtrace] raises and returns no path. *)
Lemma seqtrace_unknown_surface_counterexample :
  let sequence : Sequence := [:: ("s3"%string, [::])] in
  [/\ all (fun e => ~~ is_mirror e.2) sequence,
      forall m b surf, size (refract (counting_material_at m) b surf false) = 1,
      seqtrace counting_material_at two_surfaces 0 0 false sequence
      = Raise KeyError
    & ~ exists st rp,
          seqtrace counting_material_at two_surfaces 0 0 false sequence
          = Ok (st, [:: rp])
          /\ size (raybundles rp) = (size sequence).+1].
Proof. by split=> // -[st [rp []]]. Qed.

Lemma seqtrace_single_path_witness :
  [/\ forall m b surf, size (refract (counting_material_at m) b surf false) = 1,
      all (fun e => ~~ is_mirror e.2) through_both,
      all (fun e => dict_get (surfaces two_surfaces) e.1
                    && dict_get (surf_mat_connection two_surfaces) e.1)
        through_both
    & exists st rp,
        seqtrace counting_material_at two_surfaces 0 0 false through_both
        = Ok (st, [:: rp])
        /\ size (raybundles rp) = (size through_both).+1].
Proof.
have one_bundle m b surf :
  size (refract (counting_material_at m) b surf false) = 1 by [].
split; [exact: one_bundle | reflexivity | reflexivity |].
apply: (@seqtrace_single_path _ _ counting_material_at two_surfaces 0 0 through_both);
  [exact: one_bundle | reflexivity | reflexivity].
Defined.

Lemma seqtrace_entry_branching_witness :
  [/\ wf_paths (store (initial_state 0 0)) (rpaths (initial_state 0 0)),
      seqtrace_entry counting_material_at two_surfaces 0 0 true
        (initial_state 0 0) ("s1"%string, [::]) = Ok after_first_entry,
      size (rpaths after_first_entry) = 2
    & wf_paths (store after_first_entry) (rpaths after_first_entry)].
Proof.
have wf0 : wf_paths (store (initial_state 0 0)) (rpaths (initial_state 0 0)).
  reflexivity.
have Ee : seqtrace_entry counting_material_at two_surfaces 0 0 true
            (initial_state 0 0) ("s1"%string, [::]) = Ok after_first_entry.
  reflexivity.
have [surf [st1 [heads [_ _ _ _ [wf1 _]]]]] := seqtrace_entry_branching wf0 Ee.
split; [exact: wf0 | exact: Ee | reflexivity | exact: wf1].
Defined.

Lemma seqtrace_entry_material_witness :
  [/\ ~~ is_mirror [::],
      seqtrace_entry counting_material_at two_surfaces 0 0 true
        (initial_state 0 0) ("s1"%string, [::]) = Ok after_first_entry
    & current_material after_first_entry = 7].
Proof.
have not_mirror : ~~ is_mirror [::] by [].
have Ee : seqtrace_entry counting_material_at two_surfaces 0 0 true
            (initial_state 0 0) ("s1"%string, [::]) = Ok after_first_entry.
  reflexivity.
have [key1 [key2 [_ cur_def _ _ _]]] := seqtrace_entry_material not_mirror Ee.
split; [exact: not_mirror | exact: Ee | reflexivity].
Defined.

(** The second surface met by two live paths, one of them a branch made
    at the first surface, once crossed and once as a mirror. The
    materials mark the bundles: both paths are propagated by the glass 7,
    then refracted by the background medium 3, or reflected by the
    glass. *)
Lemma seqtrace_shared_cursor_witness :
  [/\ [/\ seqtrace_loop marking_material_at two_surfaces 0 3 true
            (initial_state 0 3) [:: ("s1"%string, [::])] = Ok marked_first,
          current_material marked_first = 7
        & [seq path_contents 0 (store marked_first) rp
             | rp <- rpaths marked_first] = [:: [:: 30; 730]; [:: 30; 731]]],
      [/\ seqtrace_entry marking_material_at two_surfaces 0 3 true
            marked_first ("s2"%string, [::]) = Ok marked_refracted,
          current_material marked_refracted = 3,
          [seq deref 0 (store marked_refracted) (last_bundle rp)
             | rp <- rpaths marked_first] = [:: 800; 801]
        & [seq path_contents 0 (store marked_refracted) rp
             | rp <- rpaths marked_refracted] =
          [:: [:: 30; 800; 1100]; [:: 30; 801; 1101];
              [:: 30; 800; 1101]; [:: 30; 801; 1102]]]
    & [/\ seqtrace_entry marking_material_at two_surfaces 0 3 true
            marked_first ("s2"%string, as_mirror) = Ok marked_reflected,
          current_material marked_reflected = 7,
          [seq deref 0 (store marked_reflected) (last_bundle rp)
             | rp <- rpaths marked_first] = [:: 800; 801]
        & [seq path_contents 0 (store marked_reflected) rp
             | rp <- rpaths marked_reflected] =
          [:: [:: 30; 800; 7800]; [:: 30; 801; 7801]]]].
Proof.
have El : seqtrace_loop marking_material_at two_surfaces 0 3 true
            (initial_state 0 3) [:: ("s1"%string, [::])] = Ok marked_first.
  reflexivity.
have Er : seqtrace_entry marking_material_at two_surfaces 0 3 true
            marked_first ("s2"%string, [::]) = Ok marked_refracted.
  reflexivity.
have Em : seqtrace_entry marking_material_at two_surfaces 0 3 true
            marked_first ("s2"%string, as_mirror) = Ok marked_reflected.
  reflexivity.
have [k1 [k2 [surf [heads [[_ Es Ec cur_r] [_ moved_r _] _ _]]]]] :=
  seqtrace_shared_cursor El Er.
have [k1' [k2' [surf' [heads' [[_ Es' Ec' cur_m] [_ moved_m _] _ _]]]]] :=
  seqtrace_shared_cursor El Em.
split; first by split; reflexivity.
- split; [exact: Er | reflexivity | | reflexivity].
  move: moved_r; rewrite -map_comp => ->.
  by move: Es => [<-]; reflexivity.
- split; [exact: Em | reflexivity | | reflexivity].
  move: moved_m; rewrite -map_comp => ->.
  by move: Es' => [<-]; reflexivity.
Defined.

(** ** Fits on rational data *)

Section RationalFits.
Import Order.Theory GRing.Theory Num.Theory.
Local Open Scope ring_scope.

Lemma tolerance_sq_of_gt0 (k : nat) : 0 < tolerance_sq_of k.
Proof. by rewrite /tolerance_sq_of invr_gt0 exprn_gt0 // ltr0n. Qed.

Lemma tolerance_sq_of_le1 (k : nat) : tolerance_sq_of k <= 1.
Proof.
rewrite /tolerance_sq_of invf_le1 ?exprn_gt0 ?ltr0n //.
by rewrite exprn_ege1 // ler1n.
Qed.

Lemma not_lt_above_one (t : rat) : t <= 1 -> (2%:R < t) = false.
Proof.
move=> t_le1; apply/negbTE; rewrite -leNgt; apply: le_trans t_le1 _.
by rewrite ler1n.
Qed.

Lemma tolerance_sq_gt0 : 0 < tolerance_sq.
Proof. exact: tolerance_sq_of_gt0. Qed.

Lemma tolerance_sq_lt2 : (2%:R < tolerance_sq) = false.
Proof. exact: (not_lt_above_one (tolerance_sq_of_le1 28)). Qed.

Lemma frobenius_sq0 (m n : nat) : frobenius_sq (0 : 'M[rat]_(m, n)) = 0.
Proof.
rewrite /frobenius_sq big1 // => i _; rewrite big1 // => j _.
by rewrite mxE expr0n.
Qed.

Lemma compare_norm_rat0 (m n : nat) : compare_norm_rat (0 : 'M[rat]_(m, n)) = Lt.
Proof. by rewrite /compare_norm_rat frobenius_sq0 tolerance_sq_gt0. Qed.

(** A matrix with a zero row has no inverse. *)
Lemma zero_row_singular (r : nat) (A : 'M[rat]_r) (i : 'I_r) :
  (forall j, A i j = 0) -> (A \in unitmx) = false.
Proof.
move=> Ai0; apply/negbTE/negP=> A_unit; have /matrixP/(_ i i) := mulmxV A_unit.
have sum0 : \sum_j A i j * invmx A j i = 0.
  by apply: big1 => j _; rewrite Ai0 mul0r.
by rewrite !mxE sum0 eqxx => /eqP; rewrite eq_sym /= mulr1n oner_eq0.
Qed.

Lemma imag_only_real_rows : rows_2_to_4 imag_only = 0.
Proof. by rewrite /rows_2_to_4 /imag_only col_mxKd col_mxKu. Qed.

Lemma imag_only_imag_rows : rows_from_4 imag_only = const_mx 1.
Proof. by rewrite /rows_from_4 /imag_only !col_mxKd. Qed.

Lemma imag_only_not_near_zero :
  norm_lt_tolerance compare_norm_rat (rows_from_4 imag_only) = false.
Proof.
rewrite /norm_lt_tolerance /compare_norm_rat imag_only_imag_rows.
have -> : frobenius_sq (const_mx 1 : 'M[rat]_(2, 1)) = 2%:R.
  have row1 (i : 'I_2) : true ->
      \sum_(j < 1) (const_mx 1 : 'M[rat]_(2, 1)) i j ^+ 2 = 1.
    by rewrite big_ord1 mxE expr1n.
  by rewrite /frobenius_sq (eq_bigr _ row1) sumr_const card_ord.
rewrite tolerance_sq_lt2; case: (_ == _); reflexivity.
Qed.

(** C6 as stated fails: the rows of real parts of the direction of
    [imag_only] are zero, so their norm is below the tolerance, but the
    fit of [imag_only] against itself logs no warning and substitutes
    nothing; it raises on the singular X X^T. *)
Lemma bestfit_transfer_real_rows_counterexample :
  norm_lt_tolerance compare_norm_rat (rows_2_to_4 imag_only)
  /\ bestfit_transfer no_imag compare_norm_rat (use6x6 := true)
       imag_only imag_only = ([::], Raise LinAlgError).
Proof.
split.
  by rewrite imag_only_real_rows /norm_lt_tolerance compare_norm_rat0.
rewrite bestfit_transferE /= imag_only_not_near_zero /=.
rewrite (@zero_row_singular _ _ (lshift _ ord0)) // => j.
rewrite mxE big1 // => k _.
by rewrite /imag_only col_mxEu mxE mul0r.
Qed.

(** An exact fit: the state of four rays that span the four coordinates
    against itself. *)
Lemma bestfit_transfer_normal_equations_witness :
  let X : 'M[rat]_(rows false, 2 + 2) := 1%:M in
  [/\ ~~ (false && imag_rows_near_zero compare_norm_rat (use6x6 := false) X X),
      X *m X^T \in unitmx
    & (bestfit_transfer no_imag compare_norm_rat (use6x6 := false) X X).2
      = Ok (X *m X^T *m invmx (X *m X^T))].
Proof.
move=> X.
have no_subst :
  ~~ (false && imag_rows_near_zero compare_norm_rat (use6x6 := false) X X).
  reflexivity.
have XX_unit : X *m X^T \in unitmx by rewrite mul1mx trmx1 unitmx1.
split; [exact: no_subst | exact: XX_unit |].
exact: (bestfit_transfer_normal_equations no_imag no_subst XX_unit).
Defined.

End RationalFits.

(** ** The linearizer on a round trip through a slab *)

Section RoundTrip.
Import Order.Theory GRing.Theory Num.Theory.
Local Open Scope ring_scope.

Local Notation bestfit4 :=
  (@bestfit_transfer _ no_imag compare_norm_rat false (2 + 2)).
Local Notation interval_transfer4 :=
  (@interval_transfer _ id no_imag compare_norm_rat unit unit id
     global_frame global_frame (2 + 2) slab false).
Local Notation calculateXYUV_loop4 :=
  (@calculateXYUV_loop _ id no_imag compare_norm_rat unit unit id
     global_frame global_frame (2 + 2) slab false).
Local Notation calculateXYUV4 :=
  (@calculateXYUV _ id no_imag compare_norm_rat unit unit id
     global_frame global_frame (2 + 2) (@magnifying_material_at _) slab).

Lemma magnification_mul (c d : rat) :
  magnification c *m magnification d = magnification (c * d).
Proof.
rewrite /magnification mulmx_block !mulmx0 !mul0mx !addr0 add0r mulmx1.
by rewrite -scalar_mxM.
Qed.

Lemma magnification1 : magnification 1 = 1%:M.
Proof. by rewrite /magnification -scalar_mx_block. Qed.

Lemma magnification_tr (c : rat) : (magnification c)^T = magnification c.
Proof. by rewrite /magnification tr_block_mx !tr_scalar_mx !trmx0. Qed.

Lemma magnification_unit (c : rat) : c != 0 -> magnification c \in unitmx.
Proof.
move=> c_neq0; have := magnification_mul c c^-1.
by rewrite divff // magnification1 => /mulmx1_unit[].
Qed.

Lemma magnification_inv (c : rat) :
  c != 0 -> invmx (magnification c) = magnification c^-1.
Proof.
move=> c_neq0; rewrite -[LHS]mulmx1 -magnification1 -(divff c_neq0).
by rewrite -magnification_mul mulmxA mulVmx ?mul1mx // magnification_unit.
Qed.

Lemma map_no_imag (m n : nat) (M : 'M[rat]_(m, n)) : map_mx no_imag M = 0.
Proof. by apply/matrixP=> i j; rewrite !mxE. Qed.

(** The fit of one magnification against another is exact. *)
Lemma bestfit_magnification (c d : rat) :
  c != 0 ->
  bestfit4 (magnification c) (magnification d)
  = ([:: Debug], Ok (magnification (d / c))).
Proof.
move=> c_neq0; rewrite bestfit_transferE /= /Pyrate.fit_messages /=.
rewrite map_no_imag /norm_gt_tolerance compare_norm_rat0 /=.
rewrite magnification_tr !magnification_mul.
have cc_neq0 : c * c != 0 by rewrite mulf_neq0.
rewrite magnification_unit // magnification_inv // magnification_mul.
by rewrite invfM mulrA mulfK.
Qed.

Lemma pilot0_slab_bundle : pilot0 = slab_bundle 1.
Proof. by rewrite /slab_bundle scale1r. Qed.

Lemma magnify_slab_bundle (c : rat) :
  magnify (slab_bundle c) = slab_bundle (2%:R * c).
Proof. by rewrite /magnify /slab_bundle /= scalerA. Qed.

Lemma minus_pilot_pilot_x0 : minus_pilot pilot_x0 = pilot_x0.
Proof.
apply/matrixP=> i j; rewrite mxE.
have -> : (ord0 : 'I_(1 + (2 + 2))) = lshift (2 + 2) ord0 by apply: val_inj.
rewrite [pilot_x0 i (lshift _ _)]mxE; case: splitP => k _.
  by rewrite row_mxEl [X in _ - X]mxE subr0.
by rewrite [X in _ - X]mxE subr0.
Qed.

Lemma minus_pilot_pilot_k0 : minus_pilot pilot_k0 = pilot_k0.
Proof.
apply/matrixP=> i j; rewrite mxE.
have -> : (ord0 : 'I_(1 + (2 + 2))) = lshift (2 + 2) ord0 by apply: val_inj.
rewrite [pilot_k0 i (lshift _ _)]mxE; case: splitP => k _.
  by rewrite row_mxEl [X in _ - X]mxE subr0.
by rewrite [X in _ - X]mxE subr0.
Qed.

Lemma reduce_matrix_x_scale (c : rat) (x : 'M[rat]_(2 + 1, 1 + (2 + 2))) :
  reduce_matrix_x (c *: x) = c *: reduce_matrix_x x.
Proof. by apply/matrixP=> i j; rewrite !mxE mulrBr. Qed.

Lemma reduce_matrix_x_scaled (c : rat) :
  reduce_matrix_x (c *: pilot_x0) = c *: row_mx 1%:M 0.
Proof.
rewrite reduce_matrix_x_scale /reduce_matrix_x minus_pilot_pilot_x0 /pilot_x0.
by rewrite col_mxKu row_mxKr.
Qed.

Lemma reduce_matrix_k_pilot : reduce_matrix_k pilot_k0 = row_mx 0 1%:M.
Proof.
rewrite /reduce_matrix_k /reduce_matrix_x minus_pilot_pilot_k0 /pilot_k0.
by rewrite col_mxKu row_mxKr.
Qed.

(** The reduced 4-row state of a slab bundle is a magnification. *)
Lemma vstack_state_slab (c : rat) (kred_real kred_imag : 'M[rat]_(2, 2 + 2)) :
  vstack_state false (c *: row_mx 1%:M 0) (row_mx 0 1%:M) kred_real kred_imag
  = magnification c.
Proof.
by rewrite /vstack_state /magnification /block_mx scale_row_mx scalemx1 scaler0.
Qed.

Lemma two_neq0 : 2%:R != 0 :> rat.
Proof. by rewrite pnatr_eq0. Qed.

(** One crossing of the slab: the fitted transfer matrix is the
    magnification by two, whatever the two surfaces are. *)
Lemma interval_transfer_slab (c : rat) (s1 s2 : string) (numhit : nat) :
  c != 0 ->
  dict_get (surfaces slab) s1 = Some tt ->
  dict_get (surfaces slab) s2 = Some tt ->
  interval_transfer4 (slab_bundle c) (slab_bundle (2%:R * c)) (s1, s2, numhit)
  = (nseq 12 Debug, Ok (magnification 2%:R)).
Proof.
move=> c_neq0 s1_in s2_in.
have c2_neq0 : 2%:R * c != 0 by rewrite mulf_neq0 ?two_neq0.
rewrite /interval_transfer /dict_item s1_in s2_in.
cbv beta iota zeta.
have E1 : getitem_last (ray_x (slab_bundle c)) = Ok (c *: pilot_x0) by [].
have E2 : getitem_last (ray_k (slab_bundle c)) = Ok pilot_k0 by [].
have E3 : getitem_first (ray_x (slab_bundle (2%:R * c)))
          = Ok ((2%:R * c) *: pilot_x0) by [].
have E4 : getitem_first (ray_k (slab_bundle (2%:R * c))) = Ok pilot_k0 by [].
have E5 : getitem_last (ray_x (slab_bundle (2%:R * c)))
          = Ok ((2%:R * c) *: pilot_x0) by [].
have E6 : getitem_last (ray_k (slab_bundle (2%:R * c))) = Ok pilot_k0 by [].
rewrite ?E1 ?E2 ?E3 ?E4 ?E5 ?E6.
do 8![rewrite lbind_lift_ok; cbv beta].
rewrite /global_frame !reduce_matrix_x_scaled !reduce_matrix_k_pilot !vstack_state_slab.
do 2![rewrite lbind_emit; cbv beta].
rewrite !bestfit_magnification // mulfK // divff //.
rewrite /lbind /emit /lret /=.
by rewrite !magnification_mul !mul1r.
Qed.

Local Notation seqtrace4 :=
  (@seqtrace _ unit (@magnifying_material_at _) slab pilot0 0%N true).

(** The trace of the pilot bundle on the round trip: one path of four
    bundles, each the magnified copy of the one before. *)
Lemma seqtrace_round_trip :
  seqtrace4 round_trip
  = Ok ([:: pilot0; magnify pilot0; magnify (magnify pilot0);
            magnify (magnify (magnify pilot0))],
        [:: mkRayPath [:: 0; 1; 2; 3]%N]).
Proof. reflexivity. Qed.

Lemma store_transfer_slab (table : dict hit 'M[rat]_(rows false))
    (s1 s2 : string) (numhit : nat) :
  store_transfer table (s1, s2, numhit) (magnification 2%:R)
  = Ok (dict_set (dict_set table (s1, s2, numhit) (magnification 2%:R))
          (s2, s1, numhit) (invmx (magnification 2%:R))).
Proof. by rewrite /store_transfer /linalg_inv magnification_unit ?two_neq0. Qed.

Lemma calculateXYUV_loop_round_trip :
  calculateXYUV_loop4
    [:: (slab_bundle 1, slab_bundle (2%:R * 1), ("a"%string, "b"%string, 1%N));
        (slab_bundle (2%:R * 1), slab_bundle (2%:R * (2%:R * 1)),
         ("b"%string, "a"%string, 1%N))] [::]
  = (nseq 24 Debug, Ok round_trip_table).
Proof.
have c2_neq0 : 2%:R * 1 != 0 :> rat by rewrite mulf_neq0 ?two_neq0 ?oner_neq0.
rewrite calculateXYUV_loop_cons interval_transfer_slab ?oner_neq0 // lbind_ok.
cbv beta; rewrite store_transfer_slab lbind_lift_ok; cbv beta.
rewrite calculateXYUV_loop_cons interval_transfer_slab // lbind_ok.
cbv beta; rewrite store_transfer_slab lbind_lift_ok; cbv beta.
rewrite [calculateXYUV_loop _ _ _ _ _ _ _ _ _]/= /lret.
reflexivity.
Qed.

(** The pilot linearizer on the round trip: the table has two entries,
    and both hold the transfer of the second crossing. *)
Lemma calculateXYUV_round_trip :
  calculateXYUV4 pilot0 round_trip 0%N 0%N false
  = (Info :: Info :: nseq 24 Debug,
     Ok ([:: slab_bundle 1; slab_bundle (2%:R * 1);
             slab_bundle (2%:R * (2%:R * 1));
             slab_bundle (2%:R * (2%:R * (2%:R * 1)))],
         mkRayPath [:: 0; 1; 2; 3]%N, round_trip_table)).
Proof.
rewrite /calculateXYUV.
have -> : sequence_to_hitlist round_trip
          = ([:: ("a"%string, "b"%string, 1%N); ("b"%string, "a"%string, 1%N)],
             (sequence_to_hitlist round_trip).2) by reflexivity.
cbv beta iota zeta.
rewrite seqtrace_round_trip lbind_lift_ok; cbv beta iota.
do 2![rewrite lbind_emit; cbv beta].
have -> : getitem [:: mkRayPath [:: 0; 1; 2; 3]%N] 0
          = Ok (mkRayPath [:: 0; 1; 2; 3]%N) by [].
rewrite lbind_lift_ok; cbv beta.
set bundles := path_contents _ _ _.
have -> : pilot_intervals bundles
            [:: ("a"%string, "b"%string, 1%N); ("b"%string, "a"%string, 1%N)]
          = [:: (pilot0, magnify pilot0, ("a"%string, "b"%string, 1%N));
                (magnify pilot0, magnify (magnify pilot0),
                 ("b"%string, "a"%string, 1%N))]
  by reflexivity.
rewrite {}/bundles pilot0_slab_bundle !magnify_slab_bundle.
rewrite calculateXYUV_loop_round_trip lbind_ok; cbv beta.
reflexivity.
Qed.

Local Notation para_seqtrace4 :=
  (@para_seqtrace _ id no_imag 0 compare_norm_rat unit unit id
     global_frame global_frame global_frame global_frame
     (fun N => 0) (fun N => const_mx true) (2 + 2)
     (@magnifying_material_at _) slab (1 + 1)).

(** The differential propagator runs to its end on the round trip. *)
Lemma para_seqtrace_round_trip :
  exists rpath,
    para_seqtrace4 pilot0 two_rays round_trip 0%N 0%N false
    = (Info :: Info :: nseq 24 Debug,
       Ok ([:: slab_bundle 1; slab_bundle (2%:R * 1);
               slab_bundle (2%:R * (2%:R * 1));
               slab_bundle (2%:R * (2%:R * (2%:R * 1)))],
           mkRayPath [:: 0; 1; 2; 3]%N, rpath)).
Proof.
rewrite /para_seqtrace calculateXYUV_round_trip lbind_ok; cbv beta iota zeta.
have -> : sequence_to_hitlist round_trip
          = ([:: ("a"%string, "b"%string, 1%N); ("b"%string, "a"%string, 1%N)],
             (sequence_to_hitlist round_trip).2) by reflexivity.
cbv beta iota zeta.
set loop := (X in lift X).
have [rpath ->] : exists rpath, loop = Ok rpath by eexists; reflexivity.
by exists rpath; rewrite lbind_lift_ok /lret /=.
Qed.

Lemma magnification_inj : injective magnification.
Proof.
move=> c d /(congr1 (@ulsubmx _ 2 2 2 2)); rewrite /magnification !block_mxKul.
by move/matrixP/(_ ord0 ord0); rewrite !mxE eqxx !mulr1n.
Qed.

Lemma half_neq_two : 2%:R^-1 != 2%:R :> rat.
Proof.
apply/eqP=> /(congr1 (fun x : rat => 2%:R * x)).
by rewrite divff ?two_neq0.
Qed.

(** The table of the round trip has lost the transfer of the first
    crossing: that crossing is fitted by the magnification by two, and the
    table answers its hit with the magnification by one half. *)
Lemma calculateXYUV_round_trip_first_transfer_lost :
  [/\ (calculateXYUV4 pilot0 round_trip 0%N 0%N false).2
      = Ok ([:: slab_bundle 1; slab_bundle (2%:R * 1);
                slab_bundle (2%:R * (2%:R * 1));
                slab_bundle (2%:R * (2%:R * (2%:R * 1)))],
            mkRayPath [:: 0; 1; 2; 3]%N, round_trip_table),
      interval_transfer4 (slab_bundle 1) (slab_bundle (2%:R * 1))
        ("a"%string, "b"%string, 1%N) = (nseq 12 Debug, Ok (magnification 2%:R)),
      dict_get round_trip_table ("a"%string, "b"%string, 1%N)
      = Some (magnification 2%:R^-1)
    & magnification 2%:R^-1 != magnification 2%:R].
Proof.
split.
- by rewrite calculateXYUV_round_trip.
- by rewrite interval_transfer_slab ?oner_neq0.
- by rewrite /round_trip_table dict_get_cons eqxx magnification_inv ?two_neq0.
- by rewrite (inj_eq magnification_inj) half_neq_two.
Qed.

(** The third row of the pilot positions and directions is zero. *)
Lemma slab_bundle_row2 (c : rat) (pe_x pe_k : 'M[rat]_(2 + 1, 1 + (2 + 2))) :
  getitem_last (ray_x (slab_bundle c)) = Ok pe_x ->
  getitem_last (ray_k (slab_bundle c)) = Ok pe_k ->
  pe_x (rshift 2 ord0) ord0 = 0 /\ pe_k (rshift 2 ord0) ord0 = 0.
Proof.
move=> [<-] [<-]; rewrite /= [(c *: pilot_x0) _ _]mxE.
by rewrite /pilot_x0 /pilot_k0 !col_mxEd !mxE mulr0.
Qed.

(** Two rays that start off the plane of the pilot ray, with third
    coordinates 1 and 2, are sent along the round trip: both appended
    bundles have the third coordinates of the pilot ray, which are zero,
    in their positions and in their directions, and all their rays are
    valid. *)
Lemma para_seqtrace_appended_bundles_witness :
  exists log st path appended,
    [/\ para_seqtrace4 pilot0 two_rays round_trip 0%N 0%N false
        = (log, Ok (st, path, two_rays :: appended)),
        size appended = 2%N
      & forall i, (i < 2)%N ->
        exists x1 k1 : 'M[rat]_(2 + 1, 1 + 1),
          [/\ getitem_last (ray_x (nth two_rays appended i)) = Ok x1,
              getitem_last (ray_k (nth two_rays appended i)) = Ok k1,
              forall j, x1 (rshift 2 ord0) j = 0 /\ k1 (rshift 2 ord0) j = 0
            & getitem_last (valid (nth two_rays appended i)) = Ok (const_mx true)]].
Proof.
have [rpath E] := para_seqtrace_round_trip.
have [table [appended [_ rpath_def sz_app app_ok]]] :=
  para_seqtrace_appended_bundles E.
exists (Info :: Info :: nseq 24 Debug),
  [:: slab_bundle 1; slab_bundle (2%:R * 1); slab_bundle (2%:R * (2%:R * 1));
      slab_bundle (2%:R * (2%:R * (2%:R * 1)))],
  (mkRayPath [:: 0; 1; 2; 3]%N), appended.
split; [by rewrite -rpath_def | exact: sz_app |].
move=> i lt_i; have := app_ok i; rewrite sz_app => /(_ lt_i).
have pilot_end : exists c,
    nth pilot0
      (path_contents pilot0
         [:: slab_bundle 1; slab_bundle (2%:R * 1);
             slab_bundle (2%:R * (2%:R * 1));
             slab_bundle (2%:R * (2%:R * (2%:R * 1)))]
         (mkRayPath [:: 0; 1; 2; 3]%N)) i.+1 = slab_bundle c.
  by case: i lt_i => [|[|i]] // _; eexists; reflexivity.
have [c ->] := pilot_end.
move=> [s1 [s2 [T [x0 [k0 [psx [psk [pex [pek [_ [_ _ _ _ [Epex Epek]]]]]]]]]]]].
have [px0 pk0] := slab_bundle_row2 Epex Epek.
rewrite /appended_ok /global_frame.
move=> [DX [DK [[_ DX0 ->] [_ DK0 ->] ->]]].
eexists; eexists; split; [reflexivity | reflexivity | | reflexivity].
by move=> j; rewrite !mxE DX0 DK0 px0 pk0 addr0.
Defined.

End RoundTrip.

Lemma calculateXYUV_round_trip_overwrites_witness :
  ("a"%string != "b"%string) /\
  exists pb1 pb2 pb3 pb4 l1 l2 (T1 T2 : 'M[rat]_(rows false)),
  [/\ path_contents pilot0
        [:: slab_bundle 1; slab_bundle (2%:R * 1);
            slab_bundle (2%:R * (2%:R * 1));
            slab_bundle (2%:R * (2%:R * (2%:R * 1)))]%R
        (mkRayPath [:: 0; 1; 2; 3]) = [:: pb1; pb2; pb3; pb4],
      @interval_transfer _ id no_imag compare_norm_rat unit unit id
        global_frame global_frame (2 + 2) slab false pb1 pb2
        ("a"%string, "b"%string, 1) = (l1, Ok T1),
      @interval_transfer _ id no_imag compare_norm_rat unit unit id
        global_frame global_frame (2 + 2) slab false pb2 pb3
        ("b"%string, "a"%string, 1) = (l2, Ok T2),
      round_trip_table
      = [:: (("a"%string, "b"%string, 1), invmx T2);
            (("b"%string, "a"%string, 1), T2)]
    & dict_get round_trip_table ("a"%string, "b"%string, 1) = Some (invmx T2)
      /\ dict_get round_trip_table ("b"%string, "a"%string, 1) = Some T2].
Proof.
split; first by [].
exact: (calculateXYUV_round_trip_overwrites (a := "a"%string) (b := "b"%string)
          (opts1 := [::]) (opts2 := [::]) (opts3 := [::]) (isT : "a"%string != "b"%string)
          calculateXYUV_round_trip).
Defined.

(** ** Hit lists and sequences *)

Section HitlistOptions.

Implicit Types (hl : seq hit) (od : dict hit (options * options)%type).
Implicit Types (d : dict (string * string)%type nat).

Lemma all_but_last_cons (T : Type) (x : T) (s : seq T) :
  all_but_last (x :: s) = belast x s.
Proof.
rewrite /all_but_last /=; elim: s x => [|y s IHs] x //=.
by rewrite -IHs.
Qed.

Lemma sequence_surfnames (s : Sequence) : [seq (e.1, e.2) | e <- s] = s.
Proof. by elim: s => [|[a b] s /= ->]. Qed.

(** The loop of [sequence_to_hitlist] never gives a hit twice, and files
    the options of the two entries of a hit under that hit. *)
Lemma hitlist_loop_lookup pairs d hl od :
  (forall h, h \in hl -> hit_index h <= dict_get_default d (hit_pair h) 0) ->
  let r := hitlist_loop pairs d hl od in
  (uniq hl -> uniq r.1) /\
  [seq dict_get r.2 h | h <- r.1] =
  [seq dict_get od h | h <- hl] ++ [seq Some (e.1.2, e.2.2) | e <- pairs].
Proof.
elim: pairs d hl od => [|[[sb optsb] [se optse]] pairs IHp] d hl od inv /=.
  by rewrite cats0.
set cnt := dict_get_default d (sb, se) 0.
set h0 : hit := (sb, se, cnt.+1).
have h0_notin : h0 \notin hl.
  by apply/negP=> /inv; rewrite /hit_index /hit_pair /= -/cnt ltnn.
have [|uniq' ->] := IHp (dict_set d (sb, se) cnt.+1) (rcons hl h0)
                      (dict_set od h0 (optsb, optse)).
  move=> h; rewrite mem_rcons inE dict_get_default_set => /orP[/eqP ->|h_in].
    by rewrite /hit_pair /= eqxx.
  case: eqP => [pair_eq|_]; last exact: inv.
  by rewrite (leq_trans (inv _ h_in)) // -pair_eq.
split; first by move=> uniq_hl; apply: uniq'; rewrite rcons_uniq h0_notin.
rewrite map_rcons -cats1 -catA /= dict_get_set eqxx; congr (_ ++ _).
apply/eq_in_map => h h_in; rewrite dict_get_set; case: eqP => // h0_eq.
by move: h0_notin; rewrite h0_eq h_in.
Qed.

Lemma sequence_to_hitlist_lookup (s : Sequence) :
  uniq (sequence_to_hitlist s).1 /\
  [seq dict_get (sequence_to_hitlist s).2 h | h <- (sequence_to_hitlist s).1]
  = [seq Some (e.1.2, e.2.2) | e <- zip (all_but_last s) (behead s)].
Proof.
rewrite /sequence_to_hitlist sequence_surfnames.
have [] // := @hitlist_loop_lookup (zip (all_but_last s) (behead s)) [::] [::] [::].
by move=> uniq_hl ->; split=> //; apply: uniq_hl.
Qed.

(** The hits of a hit list are pairwise distinct, however often the
    sequence crosses between the same two surfaces, and the options
    dictionary answers each hit with the options of the two entries the
    hit comes from: no hit overwrites the options of another. *)
Theorem sequence_to_hitlist_distinct_hits (s : Sequence) :
  uniq (sequence_to_hitlist s).1 /\
  [seq dict_get (sequence_to_hitlist s).2 h | h <- (sequence_to_hitlist s).1]
  = [seq Some (e.1.2, e.2.2) | e <- zip (all_but_last s) (behead s)].
Proof. exact: sequence_to_hitlist_lookup. Qed.

Lemma hitlist_to_sequence_loop_ok k hl pairs od
    (acc : seq (string * bool * options)) :
  [seq hit_pair h | h <- hl] = [seq (e.1.1, e.2.1) | e <- pairs] ->
  [seq dict_get od h | h <- hl] = [seq Some (e.1.2, e.2.2) | e <- pairs] ->
  hitlist_to_sequence_loop (k + size hl) (zip (iota k (size hl)) hl) od acc
  = Ok (acc ++ [seq entry_of e.1 | e <- pairs]
          ++ (if pairs is e :: pairs' then [:: entry_of (last e pairs').2]
              else [::])).
Proof.
elim: pairs hl k acc
  => [|[[sb optsb] [se optse]] pairs IHp] [|[[sb' se'] hit] hl] k acc //=.
  by rewrite cats0.
rewrite /hit_pair /= => -[-> -> keys] [lookup lookups].
rewrite /dict_item lookup /= addnS /=.
have := IHp hl k.+1 (rcons acc (sb, true, optsb)) keys lookups.
rewrite addSn => ->.
rewrite -[X in X == _]addn0 eqn_add2l.
case: hl pairs keys lookups {IHp} => [|h hl] [|e pairs] //= _ _.
  by rewrite /entry_of -!cats1 -!catA.
by rewrite /entry_of -!cats1 -!catA.
Qed.

Lemma last_zip_belast (T : Type) (d0 e0 : T) (s : seq T) :
  (last (d0, e0) (zip (belast e0 s) s)).2 = last e0 s.
Proof. by elim: s d0 e0 => [|x s IHs] d0 e0 //=; rewrite IHs. Qed.

(** [hitlist_to_sequence] undoes [sequence_to_hitlist] on every sequence
    of two or more entries, up to the format of an entry, which comes
    back as the triple (key, True, options); a sequence of one entry has
    an empty hit list and comes back empty. *)
Theorem hitlist_to_sequence_round_trip (s : Sequence) :
  hitlist_to_sequence (sequence_to_hitlist s)
  = Ok (if size s <= 1 then [::] else [seq entry_of e | e <- s]).
Proof.
have [_ lookups] := sequence_to_hitlist_lookup s.
have keys : [seq hit_pair h | h <- (sequence_to_hitlist s).1]
            = [seq (e.1.1, e.2.1) | e <- zip (all_but_last s) (behead s)].
  by rewrite /sequence_to_hitlist hitlist_loop_pairs sequence_surfnames.
case: (sequence_to_hitlist s) lookups keys => hl od /= lookups keys.
rewrite -[size hl]add0n (hitlist_to_sequence_loop_ok _ _ keys lookups) /=.
case: s {keys lookups} => [|e0 [|e1 s]] //.
rewrite all_but_last_cons [behead _]/= [size _ <= 1]/=.
set s' := e1 :: s; congr Ok.
have -> : [seq entry_of e.1 | e <- zip (belast e0 s') s']
          = [seq entry_of e | e <- belast e0 s'].
  by rewrite (map_comp entry_of fst) -/(unzip1 _) unzip1_zip // size_belast.
rewrite [in RHS](lastI e0 s') map_rcons -cats1 /s' /=.
by rewrite last_zip_belast.
Qed.

(** [hitlist_to_sequence] returns exactly when the options dictionary has
    an entry for every hit of the hit list; otherwise it raises KeyError. *)
Theorem hitlist_to_sequence_missing_options hl od :
  if all (fun h => dict_get od h) hl
  then is_ok (hitlist_to_sequence (hl, od)) : Prop
  else hitlist_to_sequence (hl, od) = Raise KeyError.
Proof.
rewrite /hitlist_to_sequence.
suff gen len k acc :
    if all (fun h => dict_get od h) hl
    then is_ok (hitlist_to_sequence_loop len (zip (iota k (size hl)) hl) od acc)
         : Prop
    else hitlist_to_sequence_loop len (zip (iota k (size hl)) hl) od acc
         = Raise KeyError by exact: gen.
elim: hl k acc => [|[[sb se] hit] hl IHhl] k acc //=.
rewrite /dict_item; case: (dict_get od _) => [opts|] //=.
by case: (k == _) => /=; apply: IHhl.
Qed.

End HitlistOptions.

(** ** Whole runs of the tracer *)

Section SeqTraceRuns.

Variables (Bundle Surface : Type).
Variable material_at : MatRef -> Material Bundle Surface.
Variable self : OpticalElement Surface.
Variable raybundle : Bundle.
Variable background_medium : MatRef.

Local Notation state := (state Bundle).
Local Notation seqtrace_entry :=
  (seqtrace_entry material_at self raybundle background_medium).
Local Notation seqtrace_loop :=
  (seqtrace_loop material_at self raybundle background_medium).
Local Notation seqtrace :=
  (seqtrace material_at self raybundle background_medium).
Local Notation initial_state := (initial_state raybundle background_medium).

Implicit Types (s : state) (sequence : Sequence) (splitup : bool).

Lemma seqtrace_loop_paths_kept splitup s sequence s' :
  wf_paths (store s) (rpaths s) -> seqtrace_loop splitup s sequence = Ok s' ->
  size (rpaths s) <= size (rpaths s').
Proof.
elim: sequence s => [|[surfkey surfoptions] sequence IHs] s wf_s.
  by case=> <-.
rewrite seqtrace_loop_cons.
case Ee: (seqtrace_entry _ _ _) => [s1|] // El.
have [surf [st1 [heads [_ sz1 _ _ [wf1 _]]]]] := seqtrace_entry_branches wf_s Ee.
by apply: leq_trans (IHs _ wf1 El); rewrite sz1 leq_addr.
Qed.

Lemma seqtrace_paths_nonempty splitup sequence st rps :
  seqtrace splitup sequence = Ok (st, rps) -> 0 < size rps.
Proof.
rewrite /Pyrate.seqtrace.
case El: (seqtrace_loop _ _ _) => [s'|] //= [_ <-].
exact: (seqtrace_loop_paths_kept (wf_paths_initial _ _) El).
Qed.

(** [seqtrace] never returns an empty list of paths, and every path it
    returns, the branches of a split included, has K+1 bundles for a
    sequence of K entries. *)
Theorem seqtrace_returns_full_paths splitup sequence st rps :
  seqtrace splitup sequence = Ok (st, rps) ->
  0 < size rps
  /\ all (fun rp => size (raybundles rp) == (size sequence).+1) rps.
Proof.
move=> Etrace; split; last exact: seqtrace_sizes Etrace.
exact: seqtrace_paths_nonempty Etrace.
Qed.

(** In the paths [seqtrace] returns, each path is a non-empty list of
    distinct bundle objects of the store, and no object belongs to two
    paths: assigning to a bundle of one path changes no other path. *)
Theorem seqtrace_paths_share_no_bundle splitup sequence st rps :
  seqtrace splitup sequence = Ok (st, rps) ->
  all (path_ok st) rps
  /\ forall (i j : nat) (l : loc) (b : Bundle),
       i < size rps -> j < size rps -> i != j ->
       l \in raybundles (nth (mkRayPath [::]) rps i) ->
       l \notin raybundles (nth (mkRayPath [::]) rps j)
       /\ path_contents raybundle (set_nth raybundle st l b)
            (nth (mkRayPath [::]) rps j)
          = path_contents raybundle st (nth (mkRayPath [::]) rps j).
Proof.
move=> Etrace; have wf_rps := seqtrace_wf Etrace.
split; first exact: wf_paths_path_ok.
move=> i j l b lt_i lt_j ne_ij l_in; split; last exact: wf_paths_independent l_in.
have /and3P[Urps _ _] := wf_rps; apply/negP=> l_in'.
suff /eqP : i = j by rewrite (negPf ne_ij).
move: lt_i lt_j l_in l_in' Urps {ne_ij wf_rps Etrace}; rewrite /locs_of.
elim: (rps) i j => [|rp rps' IHr] [|i] [|j] //= lt_i lt_j l_i l_j;
  rewrite cat_uniq => /and3P[_ /hasPn disj Urps'].
- have /disj : l \in flatten [seq raybundles rp | rp <- rps'].
    by apply/flattenP; exists (raybundles (nth (mkRayPath [::]) rps' j));
       rewrite ?map_f ?mem_nth.
  by rewrite l_i.
- have /disj : l \in flatten [seq raybundles rp | rp <- rps'].
    by apply/flattenP; exists (raybundles (nth (mkRayPath [::]) rps' i));
       rewrite ?map_f ?mem_nth.
  by rewrite l_j.
- by congr _.+1; exact: (IHr i j).
Qed.

(** [seqtrace] returns only if every surface key of the sequence is
    registered in the element, both among its surfaces and among its
    surface-material connections. *)
Theorem seqtrace_ok_keys_registered splitup sequence st rps :
  seqtrace splitup sequence = Ok (st, rps) ->
  all (fun e => dict_get (surfaces self) e.1
                && dict_get (surf_mat_connection self) e.1) sequence.
Proof.
rewrite /Pyrate.seqtrace.
case El: (seqtrace_loop _ _ _) => [s'|] //= _.
elim: sequence (initial_state) El => [|[surfkey surfoptions] sequence IHs] s //.
rewrite seqtrace_loop_cons.
case Ee: (seqtrace_entry _ _ _) => [s1|] //= /IHs ->; rewrite andbT.
move: Ee; rewrite /Pyrate.seqtrace_entry /dict_item.
by case: (dict_get (surfaces _) _) => [surf|] //=; case: (dict_get _ _).
Qed.

Lemma findoutWhichMaterial_twice (mat1 mat2 current_mat : MatRef) :
  (mat1 != mat2 -> current_mat \in [:: mat1; mat2] ->
   findoutWhichMaterial mat1 mat2 current_mat != current_mat
   /\ findoutWhichMaterial mat1 mat2
        (findoutWhichMaterial mat1 mat2 current_mat) = current_mat)
  /\ (current_mat \notin [:: mat1; mat2] ->
      findoutWhichMaterial mat1 mat2 current_mat = mat1
      /\ findoutWhichMaterial mat1 mat2
           (findoutWhichMaterial mat1 mat2 current_mat) = mat2).
Proof.
rewrite /findoutWhichMaterial !inE negb_or.
split=> [ne_12 /orP[/eqP c_def|/eqP c_def]|/andP[ne_1 ne_2]].
- by rewrite c_def eqxx (negPf ne_12) eq_sym ne_12.
- by rewrite c_def (negPf ne_12) eqxx ne_12.
- by rewrite eq_sym (negPf ne_1) eqxx.
Qed.

(** Two refractions in a row at the same surface: when the two adjacent
    materials are different objects and the current material is one of
    them, the cursor is back on it after the second; when the current
    material is neither, the cursor is on the first adjacent material
    after the first refraction and on the second after the second. *)
Theorem seqtrace_same_surface_twice splitup s surfkey opts1 opts2 s1 s2 :
  ~~ is_mirror opts1 -> ~~ is_mirror opts2 ->
  seqtrace_entry splitup s (surfkey, opts1) = Ok s1 ->
  seqtrace_entry splitup s1 (surfkey, opts2) = Ok s2 ->
  exists key1 key2,
  let mat1 := dict_get_default (materials self) key1 background_medium in
  let mat2 := dict_get_default (materials self) key2 background_medium in
  [/\ dict_get (surf_mat_connection self) surfkey = Some (key1, key2),
      mat1 != mat2 -> current_material s \in [:: mat1; mat2] ->
        current_material s1 != current_material s
        /\ current_material s2 = current_material s
    & current_material s \notin [:: mat1; mat2] ->
        current_material s1 = mat1 /\ current_material s2 = mat2].
Proof.
move=> /negbTE not_mirror1 /negbTE not_mirror2 Ee1 Ee2.
have [[key1 key2] [mats_def]] := seqtrace_entry_calls Ee1.
have [[key1' key2'] []] := seqtrace_entry_calls Ee2.
rewrite mats_def not_mirror1 not_mirror2 /= => -[<- <-] -> _ -> _.
exists key1, key2; split=> //.
  by move=> ne_12 cur_in; have [/(_ ne_12 cur_in)] := findoutWhichMaterial_twice
       (dict_get_default (materials self) key1 background_medium)
       (dict_get_default (materials self) key2 background_medium)
       (current_material s).
by move=> cur_notin; have [_ /(_ cur_notin)] := findoutWhichMaterial_twice
     (dict_get_default (materials self) key1 background_medium)
     (dict_get_default (materials self) key2 background_medium)
     (current_material s).
Qed.

(** A material that returns no bundle stops the trace: at an entry whose
    surface key is registered, reached with at least one live path, if
    [refract] (or [reflect], at a mirror) of the material it is called on
    returns the empty list, the entry raises IndexError. *)
Theorem seqtrace_entry_no_bundle_returned splitup s surfkey surfoptions
    (surf : Surface) (mats : string * string) :
  let op := if is_mirror surfoptions then Reflection else Refraction in
  let m :=
    if is_mirror surfoptions then current_material s
    else findoutWhichMaterial
           (dict_get_default (materials self) mats.1 background_medium)
           (dict_get_default (materials self) mats.2 background_medium)
           (current_material s) in
  wf_paths (store s) (rpaths s) -> 0 < size (rpaths s) ->
  dict_get (surfaces self) surfkey = Some surf ->
  dict_get (surf_mat_connection self) surfkey = Some mats ->
  (forall b, interact op (material_at m) b surf splitup = [::]) ->
  seqtrace_entry splitup s (surfkey, surfoptions) = Raise IndexError.
Proof.
move=> op m wf_s rps_gt0 surf_def mats_def no_bundle.
rewrite /Pyrate.seqtrace_entry /dict_item surf_def mats_def /=.
have /and3P[_ in_s gt0_s] := wf_s.
have [st1 -> _] := propagate_allP material_at raybundle (current_material s)
                     surf (calls s) gt0_s in_s.
rewrite /=; case: (rpaths s) rps_gt0 gt0_s => [|rp rps] //= _ /andP[rp_gt0 _].
move: no_bundle; rewrite /op /m; case: (is_mirror surfoptions) => /= no_bundle.
  by rewrite (getitem_last_ok 0) //= no_bundle.
by rewrite (getitem_last_ok 0) //= no_bundle.
Qed.

End SeqTraceRuns.

Lemma seqtrace_returns_full_paths_witness :
  seqtrace counting_material_at two_surfaces 0 0 true through_both
  = Ok traced_both
  /\ 0 < size traced_both.2
  /\ all (fun rp => size (raybundles rp) == (size through_both).+1)
       traced_both.2.
Proof.
have Etrace : seqtrace counting_material_at two_surfaces 0 0 true through_both
              = Ok (traced_both.1, traced_both.2) by reflexivity.
split; [reflexivity | exact: (seqtrace_returns_full_paths Etrace)].
Defined.

Lemma seqtrace_paths_share_no_bundle_witness :
  seqtrace counting_material_at two_surfaces 0 0 true through_both
  = Ok traced_both
  /\ all (path_ok traced_both.1) traced_both.2
  /\ path_contents 0 (set_nth 0 traced_both.1 4 9)
       (nth (mkRayPath [::]) traced_both.2 1)
     = path_contents 0 traced_both.1 (nth (mkRayPath [::]) traced_both.2 1).
Proof.
have Etrace : seqtrace counting_material_at two_surfaces 0 0 true through_both
              = Ok (traced_both.1, traced_both.2) by reflexivity.
have [paths_ok indep] := seqtrace_paths_share_no_bundle Etrace.
split; [reflexivity | split; [exact: paths_ok |]].
have [_ ->] := indep 0 1 4 9 isT isT isT isT.
reflexivity.
Defined.

Lemma seqtrace_ok_keys_registered_witness :
  seqtrace counting_material_at two_surfaces 0 0 true through_both
  = Ok traced_both
  /\ all (fun e => dict_get (surfaces two_surfaces) e.1
                   && dict_get (surf_mat_connection two_surfaces) e.1)
       through_both.
Proof.
have Etrace : seqtrace counting_material_at two_surfaces 0 0 true through_both
              = Ok (traced_both.1, traced_both.2) by reflexivity.
split; [reflexivity | exact: (seqtrace_ok_keys_registered Etrace)].
Defined.

Lemma seqtrace_same_surface_twice_witness :
  [/\ ~~ is_mirror [::],
      seqtrace_entry counting_material_at two_surfaces 0 0 true
        (initial_state 0 0) ("s1"%string, [::]) = Ok after_first_entry,
      seqtrace_entry counting_material_at two_surfaces 0 0 true
        after_first_entry ("s1"%string, [::]) = Ok after_second_crossing,
      current_material after_first_entry != current_material (initial_state 0 0)
    & current_material after_second_crossing
      = current_material (initial_state 0 0)].
Proof.
have not_mirror : ~~ is_mirror [::] by [].
have Ee1 : seqtrace_entry counting_material_at two_surfaces 0 0 true
             (initial_state 0 0) ("s1"%string, [::]) = Ok after_first_entry.
  reflexivity.
have Ee2 : seqtrace_entry counting_material_at two_surfaces 0 0 true
             after_first_entry ("s1"%string, [::]) = Ok after_second_crossing.
  reflexivity.
have [key1 [key2 [mats_def back _]]] :=
  seqtrace_same_surface_twice not_mirror not_mirror Ee1 Ee2.
have [key1_def key2_def] : key1 = "air"%string /\ key2 = "glass"%string.
  by case: mats_def => <- <-.
have [] // := back; first by rewrite key1_def key2_def.
by rewrite key1_def key2_def.
Defined.

Lemma seqtrace_entry_no_bundle_returned_witness :
  [/\ wf_paths (store (initial_state 0 0)) (rpaths (initial_state 0 0)),
      0 < size (rpaths (initial_state 0 0)),
      dict_get (surfaces two_surfaces) "s1"%string = Some 1,
      dict_get (surf_mat_connection two_surfaces) "s1"%string
      = Some ("air"%string, "glass"%string)
    & seqtrace_entry absorbing_material_at two_surfaces 0 0 false
        (initial_state 0 0) ("s1"%string, [::]) = Raise IndexError].
Proof.
have wf0 : wf_paths (store (initial_state 0 0)) (rpaths (initial_state 0 0)).
  reflexivity.
have gt0 : 0 < size (rpaths (initial_state 0 0)) by reflexivity.
have surf_def : dict_get (surfaces two_surfaces) "s1"%string = Some 1.
  reflexivity.
have mats_def : dict_get (surf_mat_connection two_surfaces) "s1"%string
                = Some ("air"%string, "glass"%string) by reflexivity.
split; [exact: wf0 | exact: gt0 | exact: surf_def | exact: mats_def |].
exact: (@seqtrace_entry_no_bundle_returned _ _ absorbing_material_at
          two_surfaces 0 0 false (initial_state 0 0) "s1"%string [::] 1
          ("air"%string, "glass"%string) wf0 gt0 surf_def mats_def
          (fun b => erefl)).
Defined.

(** ** The pilot linearizer and the differential propagator *)

Section LinearizerRuns.
Import GRing.Theory.
Local Open Scope ring_scope.

Variable C : fieldType.
Variables (Re Im : C -> C) (imag_unit : C).
Variable compare_norm : forall m n : nat, 'M[C]_(m, n) -> comparison.
Variables (Surface Frame : Type).
Variable rootcoordinatesystem : Surface -> Frame.
Variable returnGlobalToLocalPoints :
  Frame -> forall N : nat, 'M[C]_(2 + 1, N) -> 'M[C]_(2 + 1, N).
Variable returnGlobalToLocalDirections :
  Frame -> forall N : nat, 'M[C]_(2 + 1, N) -> 'M[C]_(2 + 1, N).
Variable returnLocalToGlobalPoints :
  Frame -> forall N : nat, 'M[C]_(2 + 1, N) -> 'M[C]_(2 + 1, N).
Variable returnLocalToGlobalDirections :
  Frame -> forall N : nat, 'M[C]_(2 + 1, N) -> 'M[C]_(2 + 1, N).
Variable default_Efield : forall N : nat, 'M[C]_(2 + 1, N).
Variable initial_valid : forall N : nat, 'rV[bool]_N.
Variable n : nat.
Variable material_at : MatRef -> Material (RayBundle C (1 + n)) Surface.
Variable self : OpticalElement Surface.

Local Notation PilotBundle := (RayBundle C (1 + n)).
Local Notation interval_transfer :=
  (interval_transfer Re Im compare_norm rootcoordinatesystem
     returnGlobalToLocalPoints returnGlobalToLocalDirections self).
Local Notation calculateXYUV_loop :=
  (calculateXYUV_loop Re Im compare_norm rootcoordinatesystem
     returnGlobalToLocalPoints returnGlobalToLocalDirections self).
Local Notation calculateXYUV :=
  (calculateXYUV Re Im compare_norm rootcoordinatesystem
     returnGlobalToLocalPoints returnGlobalToLocalDirections material_at self).
Local Notation para_local :=
  (para_local Re Im imag_unit returnGlobalToLocalPoints
     returnGlobalToLocalDirections).
Local Notation para_step :=
  (para_step Re Im imag_unit rootcoordinatesystem
     returnGlobalToLocalPoints returnGlobalToLocalDirections
     returnLocalToGlobalPoints returnLocalToGlobalDirections
     default_Efield initial_valid self).
Local Notation para_seqtrace_loop :=
  (para_seqtrace_loop Re Im imag_unit rootcoordinatesystem
     returnGlobalToLocalPoints returnGlobalToLocalDirections
     returnLocalToGlobalPoints returnLocalToGlobalDirections
     default_Efield initial_valid self).
Local Notation para_seqtrace :=
  (para_seqtrace Re Im imag_unit compare_norm rootcoordinatesystem
     returnGlobalToLocalPoints returnGlobalToLocalDirections
     returnLocalToGlobalPoints returnLocalToGlobalDirections
     default_Efield initial_valid material_at self).
Local Notation seqtrace := (seqtrace material_at self).

(** [calculateXYUV] step by step: the trace with splitting, the choice of
    the pilot path, the loop over the hits. *)
Lemma calculateXYUVE (pilotinitbundle : PilotBundle) sequence
    background_medium pilotraypath_nr use6x6 :
  calculateXYUV pilotinitbundle sequence background_medium pilotraypath_nr use6x6
  = match seqtrace pilotinitbundle background_medium true sequence with
    | Ok (st, rps) =>
        match getitem rps pilotraypath_nr with
        | Ok rp =>
            let r := calculateXYUV_loop
                       (pilot_intervals (path_contents pilotinitbundle st rp)
                          (sequence_to_hitlist sequence).1) [::] in
            (Info :: Info :: r.1,
             match r.2 with
             | Ok table => Ok (st, rp, table)
             | Raise e => Raise e
             end)
        | Raise e => ([:: Info; Info], Raise e)
        end
    | Raise e => ([::], Raise e)
    end.
Proof.
rewrite /Pyrate.calculateXYUV.
case: (sequence_to_hitlist _) => hitlist optionshitlistdict /=.
case: (Pyrate.seqtrace _ _ _ _ _ _) => [[st rps]|e] //=.
case: (getitem _ _) => [rp|e] //=.
by case: (Pyrate.calculateXYUV_loop _ _ _ _ _ _ _ _ _) => l [table|e] //=;
   rewrite cats0.
Qed.

(** A pilot path number beyond the paths of the trace: [calculateXYUV]
    raises IndexError after its two info messages, before any fit. *)
Theorem calculateXYUV_pilot_index_out_of_range (pilotinitbundle : PilotBundle)
    sequence background_medium pilotraypath_nr use6x6 st rps :
  seqtrace pilotinitbundle background_medium true sequence = Ok (st, rps) ->
  (size rps <= pilotraypath_nr)%N ->
  calculateXYUV pilotinitbundle sequence background_medium pilotraypath_nr use6x6
  = ([:: Info; Info], Raise IndexError).
Proof.
by move=> Etrace le_nr; rewrite calculateXYUVE Etrace /getitem ltnNge le_nr.
Qed.

Lemma reverse_hitK : involutive reverse_hit.
Proof. by case=> [[s1 s2] k]. Qed.

Lemma store_transfer_unit (use6x6 : bool)
    (table table' : dict hit 'M[C]_(rows use6x6)) (surfhit : hit)
    (transfer : 'M[C]_(rows use6x6)) :
  store_transfer table surfhit transfer = Ok table' ->
  transfer \in unitmx
  /\ table' = dict_set (dict_set table surfhit transfer)
                (reverse_hit surfhit) (invmx transfer).
Proof.
case: surfhit => [[s1 s2] k]; rewrite /store_transfer /linalg_inv.
by case: ifP => //= _ [<-].
Qed.

(** The loop of [calculateXYUV] on hits of which none is the reversed key
    of one of them: every hit keeps its transfer, and its reversed key
    the inverse; other keys are not touched. *)
Lemma calculateXYUV_loop_table (use6x6 : bool)
    (intervals : seq (PilotBundle * PilotBundle * hit))
    (table0 table : dict hit 'M[C]_(rows use6x6)) (log : seq log_event)
    (pb0 : PilotBundle) (h0 : hit) :
  calculateXYUV_loop intervals table0 = (log, Ok table) ->
  let hits := [seq itv.2 | itv <- intervals] in
  uniq hits -> all (fun h => reverse_hit h \notin hits) hits ->
  (forall k, k \notin hits -> reverse_hit k \notin hits ->
     dict_get table k = dict_get table0 k)
  /\ forall i, (i < size intervals)%N ->
       let itv := nth (pb0, pb0, h0) intervals i in
       exists l T,
         [/\ interval_transfer use6x6 itv.1.1 itv.1.2 itv.2 = (l, Ok T),
             T \in unitmx, dict_get table itv.2 = Some T
           & dict_get table (reverse_hit itv.2) = Some (invmx T)].
Proof.
elim: intervals table0 log => [|[[pb1 pb2] h] intervals IHi] table0 log.
  by case=> _ <-.
rewrite calculateXYUV_loop_cons.
move=> E; case: (lbind_ok_inv E) => {E} l1 [T [l1' [ET E _]]]; move: E.
move=> E; case: (lbind_ok_inv E) => {E} ? [table1 [l2 [Es Eloop _]]].
have [/store_transfer_unit[T_unit table1_def] _] := lift_ok_inv Es.
move=> /= /andP[h_notin uniq_hits] /andP[].
rewrite inE negb_or => /andP[rev_neq rev_notin] no_rev.
have no_rev' : all (fun h' => reverse_hit h' \notin [seq itv.2 | itv <- intervals])
                 [seq itv.2 | itv <- intervals].
  apply/allP=> h' h'_in; have := allP no_rev _ h'_in.
  by rewrite inE negb_or => /andP[].
have [frame hits_ok] := IHi _ _ Eloop uniq_hits no_rev'.
have get1 k : dict_get table1 k =
    if reverse_hit h == k then Some (invmx T)
    else if h == k then Some T else dict_get table0 k.
  by rewrite table1_def !dict_get_set.
split=> [k|[_|i lt_i]] /=.
- rewrite !inE !negb_or => /andP[k_neq k_notin] /andP[rev_k_neq rev_k_notin].
  rewrite frame // get1.
  have -> : (reverse_hit h == k) = false.
    by rewrite -(inj_eq (can_inj reverse_hitK)) reverse_hitK eq_sym (negPf rev_k_neq).
  by rewrite eq_sym (negPf k_neq).
- exists l1, T; split=> //.
    by rewrite frame // get1 (negPf rev_neq) eqxx.
  by rewrite frame ?reverse_hitK // get1 eqxx.
- by apply: hits_ok.
Qed.

Lemma calculateXYUV_inv (pilotinitbundle : PilotBundle) sequence
    background_medium pilotraypath_nr use6x6 log st pilotraypath
    (table : dict hit 'M[C]_(rows use6x6)) :
  calculateXYUV pilotinitbundle sequence background_medium pilotraypath_nr use6x6
  = (log, Ok (st, pilotraypath, table)) ->
  exists rps lt,
    [/\ seqtrace pilotinitbundle background_medium true sequence = Ok (st, rps),
        getitem rps pilotraypath_nr = Ok pilotraypath,
        calculateXYUV_loop
          (pilot_intervals (path_contents pilotinitbundle st pilotraypath)
             (sequence_to_hitlist sequence).1) [::] = (lt, Ok table)
      & log = Info :: Info :: lt].
Proof.
rewrite calculateXYUVE.
case: (Pyrate.seqtrace _ _ _ _ _ _) => [[st0 rps]|e] //.
case Erp: (getitem _ _) => [rp|e] //.
case Eloop: (Pyrate.calculateXYUV_loop _ _ _ _ _ _ _ _ _) => [lt [tbl|e]] //=.
by case=> <- st_def rp_def tbl_def; exists rps, lt;
   rewrite -st_def -rp_def -tbl_def Erp Eloop.
Qed.

(** When no hit of the hit list has its reversed key in the hit list, the
    table [calculateXYUV] returns is as intended: every hit is answered
    with the composed transfer fitted on its own interval, and its
    reversed key with what [np.linalg.inv] returned for that transfer. *)
Theorem calculateXYUV_table_without_reversals (pilotinitbundle : PilotBundle)
    sequence background_medium pilotraypath_nr use6x6 log st pilotraypath
    (table : dict hit 'M[C]_(rows use6x6)) (i : nat) :
  let hitlist := (sequence_to_hitlist sequence).1 in
  let bundles := path_contents pilotinitbundle st pilotraypath in
  let surfhit := nth (EmptyString, EmptyString, 0%N) hitlist i in
  calculateXYUV pilotinitbundle sequence background_medium pilotraypath_nr use6x6
  = (log, Ok (st, pilotraypath, table)) ->
  all (fun h => reverse_hit h \notin hitlist) hitlist ->
  (i < size hitlist)%N ->
  exists l T Tinv,
    [/\ interval_transfer use6x6 (nth pilotinitbundle bundles i)
          (nth pilotinitbundle bundles i.+1) surfhit = (l, Ok T),
        linalg_inv T = Ok Tinv,
        dict_get table surfhit = Some T
      & dict_get table (reverse_hit surfhit) = Some Tinv].
Proof.
move=> hitlist bundles surfhit Ecalc no_rev lt_i.
have [rps [lt [Etrace Erp Eloop _]]] := calculateXYUV_inv Ecalc.
have sz_bundles : size bundles = (size sequence).+1.
  rewrite /bundles /Pyrate.path_contents size_map.
  exact: (eqP (allP (seqtrace_sizes Etrace) _ (getitem_in Erp))).
have sz_hitlist : size hitlist = (size sequence).-1.
  exact: size_sequence_to_hitlist.
have lt_sz : (size hitlist < size bundles)%N.
  by rewrite sz_bundles sz_hitlist; case: (size sequence) => [|k] //=; rewrite ltnS leqW.
have [sz_itv nth_itv] :=
  pilot_intervals_nth pilotinitbundle (EmptyString, EmptyString, 0%N) lt_sz lt_i.
have hitsE : [seq itv.2 | itv <- pilot_intervals bundles hitlist] = hitlist.
  rewrite /pilot_intervals -/(unzip2 _) unzip2_zip // size_zip /all_but_last.
  rewrite size_take size_behead.
  by case: (size bundles) lt_sz => [|k] //=; rewrite leqnn minnn ltnS.
have [uniq_hits _] := sequence_to_hitlist_lookup sequence.
have [] := calculateXYUV_loop_table pilotinitbundle
             (EmptyString, EmptyString, 0%N) Eloop; rewrite ?hitsE //.
move=> _ /(_ i); rewrite sz_itv nth_itv /= => /(_ lt_i) [l [T [ET T_unit getT getR]]].
by exists l, T, (invmx T); split=> //; rewrite /linalg_inv T_unit.
Qed.

(** Two entries in a row on the same surface: the hit is its own reversed
    key, and the table answers it with the inverse of the transfer fitted
    on its interval; the transfer itself is overwritten. *)
Theorem calculateXYUV_same_surface_twice (pilotinitbundle : PilotBundle)
    (a : string) (opts1 opts2 : options) background_medium pilotraypath_nr
    use6x6 log st pilotraypath (table : dict hit 'M[C]_(rows use6x6)) :
  let bundles := path_contents pilotinitbundle st pilotraypath in
  calculateXYUV pilotinitbundle [:: (a, opts1); (a, opts2)] background_medium
    pilotraypath_nr use6x6 = (log, Ok (st, pilotraypath, table)) ->
  exists l T,
    [/\ interval_transfer use6x6 (nth pilotinitbundle bundles 0)
          (nth pilotinitbundle bundles 1) (a, a, 1%N) = (l, Ok T),
        T \in unitmx,
        table = [:: ((a, a, 1%N), invmx T)]
      & dict_get table (a, a, 1%N) = Some (invmx T)].
Proof.
move=> bundles Ecalc.
have [rps [lt [Etrace Erp Eloop _]]] := calculateXYUV_inv Ecalc.
have sz_bundles : size bundles = 3.
  rewrite /bundles /Pyrate.path_contents size_map.
  exact: (eqP (allP (seqtrace_sizes Etrace) _ (getitem_in Erp))).
move: Eloop; rewrite -/bundles.
have -> : (sequence_to_hitlist [:: (a, opts1); (a, opts2)]).1 = [:: (a, a, 1%N)].
  by [].
case: (bundles) sz_bundles => [|pb1 [|pb2 [|pb3 [|? ?]]]] // _.
rewrite /pilot_intervals /all_but_last [zip _ _]/= calculateXYUV_loop_cons.
move=> E; case: (lbind_ok_inv E) => {E} l [T [? [ET E _]]]; move: E.
move=> E; case: (lbind_ok_inv E) => {E} ? [table1 [? [Es [_ <-] _]]].
have [/store_transfer_unit[T_unit ->] _] := lift_ok_inv Es.
exists l, T; split=> //.
  by rewrite /reverse_hit /= eqxx.
by rewrite /reverse_hit /= eqxx /= eqxx.
Qed.

(** A sequence of fewer than two entries has no hit: once its trace has
    returned, [calculateXYUV] makes no fit and returns the first path
    with an empty table, and [para_seqtrace] returns the caller's bundle
    alone. *)
Theorem calculateXYUV_short_sequence (N : nat) (pilotinitbundle : PilotBundle)
    (raybundle : RayBundle C N) sequence background_medium use6x6 st rps :
  (size sequence <= 1)%N ->
  seqtrace pilotinitbundle background_medium true sequence = Ok (st, rps) ->
  exists rp,
    [/\ getitem rps 0 = Ok rp,
        calculateXYUV pilotinitbundle sequence background_medium 0 use6x6
        = ([:: Info; Info], Ok (st, rp, [::]))
      & para_seqtrace pilotinitbundle raybundle sequence background_medium 0
          use6x6 = ([:: Info; Info], Ok (st, rp, [:: raybundle]))].
Proof.
move=> le_sz Etrace; have := seqtrace_paths_nonempty Etrace.
case: rps Etrace => [|rp rps] // Etrace _; exists rp.
have hitlistE : (sequence_to_hitlist sequence).1 = [::].
  apply: size0nil; rewrite size_sequence_to_hitlist.
  by case: (size sequence) le_sz => [|[|k]].
have zips0 (S T : Type) (s : seq S) : zip s ([::] : seq T) = [::] by case: s.
have EcalcE :
    calculateXYUV pilotinitbundle sequence background_medium 0 use6x6
    = ([:: Info; Info], Ok (st, rp, [::])).
  by rewrite calculateXYUVE Etrace /= hitlistE /pilot_intervals zips0.
split=> //; rewrite /Pyrate.para_seqtrace EcalcE lbind_ok; cbv beta iota.
by case: (sequence_to_hitlist sequence) hitlistE => hl od /= ->;
   rewrite /pilot_intervals zips0.
Qed.

Lemma interval_transfer_ok_inv (use6x6 : bool) (pb1 pb2 : PilotBundle)
    (surfhit : hit) (l : seq log_event) (T : 'M[C]_(rows use6x6)) :
  interval_transfer use6x6 pb1 pb2 surfhit = (l, Ok T) ->
  [/\ dict_get (surfaces self) surfhit.1.1 /\ dict_get (surfaces self) surfhit.1.2,
      (0 < size (ray_x pb1))%N, (0 < size (ray_k pb1))%N,
      (0 < size (ray_x pb2))%N & (0 < size (ray_k pb2))%N].
Proof.
case: surfhit => [[s1 s2] k]; rewrite /Pyrate.interval_transfer /dict_item /=.
case: (dict_get _ s1) => [surf1|] //=; case: (dict_get _ s2) => [surf2|] //=.
case: (ray_x pb1) => [|x1 xs1] //=; case: (ray_k pb1) => [|k1 ks1] //=.
by case: (ray_x pb2) => [|x2 xs2] //=; case: (ray_k pb2) => [|k2 ks2].
Qed.

Lemma calculateXYUV_loop_keys (use6x6 : bool)
    (intervals : seq (PilotBundle * PilotBundle * hit))
    (table0 table : dict hit 'M[C]_(rows use6x6)) (log : seq log_event) :
  calculateXYUV_loop intervals table0 = (log, Ok table) ->
  forall k, dict_get table0 k -> dict_get table k.
Proof.
elim: intervals table0 log => [|[[pb1 pb2] h] intervals IHi] table0 log.
  by case=> _ <-.
rewrite calculateXYUV_loop_cons.
move=> E; case: (lbind_ok_inv E) => {E} l1 [T [l1' [ET E _]]]; move: E.
move=> E; case: (lbind_ok_inv E) => {E} ? [table1 [l2 [Es Eloop _]]].
have [/store_transfer_unit[_ table1_def] _] := lift_ok_inv Es.
move=> k k_in; apply: (IHi _ _ Eloop).
by rewrite table1_def !dict_get_set; do 2!case: ifP => // _.
Qed.

Lemma para_step_ok (use6x6 : bool) (N : nat)
    (matrices : dict hit 'M[C]_(rows use6x6)) (ps pe : PilotBundle)
    (surfhit : hit) (last_bundle : RayBundle C N) :
  dict_get (surfaces self) surfhit.1.1 -> dict_get (surfaces self) surfhit.1.2 ->
  (0 < size (ray_x last_bundle))%N -> (0 < size (ray_k last_bundle))%N ->
  (0 < size (ray_x ps))%N -> (0 < size (ray_k ps))%N ->
  (0 < size (ray_x pe))%N -> (0 < size (ray_k pe))%N ->
  dict_get matrices surfhit ->
  exists nb,
    [/\ para_step matrices ps pe surfhit last_bundle = Ok nb,
        (0 < size (ray_x nb))%N & (0 < size (ray_k nb))%N].
Proof.
case: surfhit => [[s1 s2] k]; rewrite /Pyrate.para_step /dict_item /=.
case: (dict_get _ s1) => [surf1|] //= _; case: (dict_get _ s2) => [surf2|] //= _.
case: (ray_x last_bundle) => [|x0 xs0] //= _.
case: (ray_k last_bundle) => [|k0 ks0] //= _.
case: (ray_x ps) => [|x1 xs1] //= _; case: (ray_k ps) => [|k1 ks1] //= _.
case: (ray_x pe) => [|x2 xs2] //= _; case: (ray_k pe) => [|k2 ks2] //= _.
case: (dict_get matrices _) => [matrix|] //= _.
by eexists; split; first reflexivity.
Qed.

Lemma para_seqtrace_loop_total (use6x6 : bool) (N : nat)
    (intervals : seq (PilotBundle * PilotBundle * hit))
    (table0 table matrices : dict hit 'M[C]_(rows use6x6)) (log : seq log_event)
    (raybundle : RayBundle C N) (rpath : seq (RayBundle C N)) :
  calculateXYUV_loop intervals table0 = (log, Ok table) ->
  (forall k, dict_get table k -> dict_get matrices k) ->
  (0 < size (ray_x (last raybundle rpath)))%N ->
  (0 < size (ray_k (last raybundle rpath)))%N ->
  exists rpath', para_seqtrace_loop matrices intervals raybundle rpath = Ok rpath'.
Proof.
elim: intervals table0 log rpath
  => [|[[pb1 pb2] h] intervals IHi] table0 log rpath.
  by move=> _ _ _ _; exists rpath.
rewrite calculateXYUV_loop_cons.
move=> E; case: (lbind_ok_inv E) => {E} l1 [T [l1' [ET E _]]]; move: E.
move=> E; case: (lbind_ok_inv E) => {E} ? [table1 [l2 [Es Eloop _]]].
have [/store_transfer_unit[_ table1_def] _] := lift_ok_inv Es.
move=> sub_matrices x_gt0 k_gt0.
have [[s1_in s2_in] x1_gt0 k1_gt0 x2_gt0 k2_gt0] := interval_transfer_ok_inv ET.
have h_in : dict_get matrices h.
  apply/sub_matrices/(calculateXYUV_loop_keys Eloop).
  by rewrite table1_def !dict_get_set eqxx; case: ifP.
have [nb [Estep nbx_gt0 nbk_gt0]] :=
  para_step_ok (ps := pb1) (pe := pb2)
    s1_in s2_in x_gt0 k_gt0 x1_gt0 k1_gt0 x2_gt0 k2_gt0 h_in.
rewrite [Pyrate.para_seqtrace_loop _ _ _ _ _ _ _ _ _ _ _ _ _ _ _]/= Estep /=.
by apply: (IHi _ _ _ Eloop) => //; rewrite last_rcons.
Qed.

(** The differential propagator does not fail on its own: whenever
    [calculateXYUV] returns for the pilot bundle and the bundle to
    propagate holds a position and a direction, [para_seqtrace] returns,
    with the log and the pilot path of [calculateXYUV]; in particular it
    finds a matrix for every hit. *)
Theorem para_seqtrace_returns_when_linearized (N : nat)
    (pilotbundle : PilotBundle) (raybundle : RayBundle C N) sequence
    background_medium pilotraypath_nr use6x6 log st pilotraypath
    (table : dict hit 'M[C]_(rows use6x6)) :
  calculateXYUV pilotbundle sequence background_medium pilotraypath_nr use6x6
  = (log, Ok (st, pilotraypath, table)) ->
  (0 < size (ray_x raybundle))%N -> (0 < size (ray_k raybundle))%N ->
  exists rpath,
    para_seqtrace pilotbundle raybundle sequence background_medium
      pilotraypath_nr use6x6 = (log, Ok (st, pilotraypath, rpath)).
Proof.
move=> Ecalc x_gt0 k_gt0.
have [rps [lt [Etrace Erp Eloop _]]] := calculateXYUV_inv Ecalc.
rewrite /Pyrate.para_seqtrace Ecalc lbind_ok; cbv beta iota.
case: (sequence_to_hitlist sequence) Eloop => hitlist optionshitlistdict /= Eloop.
have [rpath' ->] :=
  @para_seqtrace_loop_total use6x6 N _ _ _ table _ raybundle [:: raybundle]
    Eloop (fun k k_in => k_in) x_gt0 k_gt0.
by exists rpath'; rewrite /= cats0.
Qed.

Lemma minus_column_self (r : nat) (p : 'M[C]_(r, 1)) : minus_column p p = 0.
Proof. by apply/matrixP=> i j; rewrite !mxE (ord1 j) subrr. Qed.

Lemma plus_column0 (r : nat) (p : 'M[C]_(r, 1)) : plus_column 0 p = p.
Proof. by apply/matrixP=> i j; rewrite !mxE (ord1 j) add0r. Qed.

Lemma vstack_state0 (use6x6 : bool) (N : nat) :
  Re 0 = 0 -> Im 0 = 0 ->
  vstack_state use6x6 (0 : 'M[C]_(2, N)) 0 (map_mx Re 0) (map_mx Im 0) = 0.
Proof.
move=> Re0 Im0; rewrite /vstack_state.
have -> : map_mx Re (0 : 'M[C]_(2, N)) = 0 by apply/matrixP=> i j; rewrite !mxE.
have -> : map_mx Im (0 : 'M[C]_(2, N)) = 0 by apply/matrixP=> i j; rewrite !mxE.
by case: use6x6; rewrite !col_mx0.
Qed.

Lemma direction_of_state0 (use6x6 : bool) (N : nat) :
  direction_of_state imag_unit (0 : 'M[C]_(rows use6x6, N)) = 0.
Proof.
by case: use6x6; rewrite /direction_of_state ?linear0 ?scaler0 ?addr0.
Qed.

Lemma para_local_pilot (use6x6 : bool) (matrix : 'M[C]_(rows use6x6))
    (lcstart lcend : Frame) (ps_x ps_k pe_x pe_k : 'M[C]_(2 + 1, 1 + n)) :
  Re 0 = 0 -> Im 0 = 0 ->
  para_local matrix lcstart lcend ps_x ps_k pe_x pe_k (col ord0 ps_x)
    (col ord0 ps_k)
  = (returnGlobalToLocalPoints lcend (col ord0 pe_x),
     returnGlobalToLocalDirections lcend (col ord0 pe_k)).
Proof.
move=> Re0 Im0; rewrite /Pyrate.para_local !minus_column_self !linear0.
rewrite vstack_state0 // mulmx0 direction_of_state0 linear0.
by rewrite /vstack_zeros !col_mx0 !plus_column0.
Qed.

(** A ray that starts on the pilot ray stays on it: if the bundle to
    propagate holds one ray with the position and direction of the pilot
    ray at the start of a hit, the bundle the loop of [para_seqtrace]
    appends holds the position and direction of the pilot ray at the end
    of the hit (taken to the local frame of the end surface and back),
    whatever matrix the table gives for the hit. *)
Theorem para_step_keeps_pilot_ray (use6x6 : bool)
    (matrices : dict hit 'M[C]_(rows use6x6)) (ps pe : PilotBundle)
    (surfhit : hit) (last_bundle nb : RayBundle C 1)
    (ps_x ps_k : 'M[C]_(2 + 1, 1 + n)) :
  Re 0 = 0 -> Im 0 = 0 ->
  getitem_last (ray_x ps) = Ok ps_x -> getitem_last (ray_k ps) = Ok ps_k ->
  getitem_last (ray_x last_bundle) = Ok (col ord0 ps_x) ->
  getitem_last (ray_k last_bundle) = Ok (col ord0 ps_k) ->
  para_step matrices ps pe surfhit last_bundle = Ok nb ->
  exists surf_end pe_x pe_k,
    let lcend := rootcoordinatesystem surf_end in
    [/\ dict_get (surfaces self) surfhit.1.2 = Some surf_end,
        getitem_last (ray_x pe) = Ok pe_x,
        getitem_last (ray_k pe) = Ok pe_k,
        getitem_last (ray_x nb)
        = Ok (returnLocalToGlobalPoints lcend
                (returnGlobalToLocalPoints lcend (col ord0 pe_x)))
      & getitem_last (ray_k nb)
        = Ok (returnLocalToGlobalDirections lcend
                (returnGlobalToLocalDirections lcend (col ord0 pe_k)))].
Proof.
move=> Re0 Im0 Eps_x Eps_k Ex Ek.
case: surfhit => [[s1 s2] k]; rewrite /Pyrate.para_step /dict_item Ex Ek Eps_x Eps_k.
case: (dict_get _ s1) => [surf1|] //=; case: (dict_get _ s2) => [surf2|] //=.
case: (getitem_last (ray_x pe)) => [pe_x|] //=.
case: (getitem_last (ray_k pe)) => [pe_k|] //=.
case: (dict_get matrices _) => [matrix|] //= [<-].
exists surf2, pe_x, pe_k; split=> //=.
  rewrite !minus_column_self !linear0 vstack_state0 // mulmx0 linear0.
  by rewrite /vstack_zeros col_mx0 plus_column0.
rewrite !minus_column_self !linear0 vstack_state0 // mulmx0.
by rewrite direction_of_state0 /vstack_zeros col_mx0 plus_column0.
Qed.

End LinearizerRuns.

(** ** The linearizer on the slab *)

Section SlabRuns.
Import Order.Theory GRing.Theory Num.Theory.
Local Open Scope ring_scope.

Local Notation interval_transfer4 :=
  (@interval_transfer _ id no_imag compare_norm_rat unit unit id
     global_frame global_frame (2 + 2) slab false).
Local Notation calculateXYUV_loop4 :=
  (@calculateXYUV_loop _ id no_imag compare_norm_rat unit unit id
     global_frame global_frame (2 + 2) slab false).
Local Notation calculateXYUV4 :=
  (@calculateXYUV _ id no_imag compare_norm_rat unit unit id
     global_frame global_frame (2 + 2) (@magnifying_material_at _) slab).
Local Notation seqtrace4 :=
  (@seqtrace _ unit (@magnifying_material_at _) slab pilot0 0%N true).
Local Notation para_seqtrace4 :=
  (@para_seqtrace _ id no_imag 0 compare_norm_rat unit unit id
     global_frame global_frame global_frame global_frame
     (fun N => 0) (fun N => const_mx true) (2 + 2)
     (@magnifying_material_at _) slab 1).
Local Notation para_step4 :=
  (@para_step _ id no_imag 0 unit unit id
     global_frame global_frame global_frame global_frame
     (fun N => 0) (fun N => const_mx true) (2 + 2) slab false 1).

Lemma calculateXYUV_pilot_index_out_of_range_witness :
  seqtrace4 round_trip
  = Ok ([:: pilot0; magnify pilot0; magnify (magnify pilot0);
            magnify (magnify (magnify pilot0))],
        [:: mkRayPath [:: 0; 1; 2; 3]%N])
  /\ calculateXYUV4 pilot0 round_trip 0%N 1%N false
     = ([:: Info; Info], Raise IndexError).
Proof.
split; first exact: seqtrace_round_trip.
apply: calculateXYUV_pilot_index_out_of_range;
  [exact: seqtrace_round_trip | reflexivity].
Defined.

Lemma calculateXYUV_loop_slab (s1 s2 : string) :
  dict_get (surfaces slab) s1 = Some tt ->
  dict_get (surfaces slab) s2 = Some tt ->
  calculateXYUV_loop4
    [:: (slab_bundle 1, slab_bundle (2%:R * 1), (s1, s2, 1%N))] [::]
  = (nseq 12 Debug,
     Ok (dict_set [:: ((s1, s2, 1%N), magnification 2%:R)] (s2, s1, 1%N)
           (invmx (magnification 2%:R)))).
Proof.
move=> s1_in s2_in.
rewrite calculateXYUV_loop_cons interval_transfer_slab ?oner_neq0 // lbind_ok.
cbv beta; rewrite store_transfer_slab lbind_lift_ok; cbv beta.
rewrite [Pyrate.calculateXYUV_loop _ _ _ _ _ _ _ _ _]/= /lret.
reflexivity.
Qed.

Lemma calculateXYUV_two_entries (s1 s2 : string) :
  dict_get (surfaces slab) s1 = Some tt ->
  dict_get (surfaces slab) s2 = Some tt ->
  seqtrace4 [:: (s1, [::]); (s2, [::])]
  = Ok ([:: pilot0; magnify pilot0; magnify (magnify pilot0)],
        [:: mkRayPath [:: 0; 1; 2]%N]) ->
  calculateXYUV4 pilot0 [:: (s1, [::]); (s2, [::])] 0%N 0%N false
  = (Info :: Info :: nseq 12 Debug,
     Ok ([:: pilot0; magnify pilot0; magnify (magnify pilot0)],
         mkRayPath [:: 0; 1; 2]%N,
         dict_set [:: ((s1, s2, 1%N), magnification 2%:R)] (s2, s1, 1%N)
           (invmx (magnification 2%:R)))).
Proof.
move=> s1_in s2_in Etrace; rewrite calculateXYUVE Etrace.
have -> : getitem [:: mkRayPath [:: 0; 1; 2]%N] 0 = Ok (mkRayPath [:: 0; 1; 2]%N).
  by [].
have -> : (sequence_to_hitlist [:: (s1, [::]); (s2, [::])]).1 = [:: (s1, s2, 1%N)].
  by [].
have -> : pilot_intervals
            (path_contents pilot0
               [:: pilot0; magnify pilot0; magnify (magnify pilot0)]
               (mkRayPath [:: 0; 1; 2]%N)) [:: (s1, s2, 1%N)]
          = [:: (slab_bundle 1, slab_bundle (2%:R * 1), (s1, s2, 1%N))].
  by rewrite -magnify_slab_bundle -pilot0_slab_bundle.
by rewrite calculateXYUV_loop_slab.
Qed.

Lemma calculateXYUV_one_crossing :
  calculateXYUV4 pilot0 one_crossing 0%N 0%N false
  = (Info :: Info :: nseq 12 Debug,
     Ok ([:: pilot0; magnify pilot0; magnify (magnify pilot0)],
         mkRayPath [:: 0; 1; 2]%N,
         [:: (("a"%string, "b"%string, 1%N), magnification 2%:R);
             (("b"%string, "a"%string, 1%N), invmx (magnification 2%:R))])).
Proof. by rewrite /one_crossing calculateXYUV_two_entries. Qed.

Lemma calculateXYUV_twice_a :
  calculateXYUV4 pilot0 twice_a 0%N 0%N false
  = (Info :: Info :: nseq 12 Debug,
     Ok ([:: pilot0; magnify pilot0; magnify (magnify pilot0)],
         mkRayPath [:: 0; 1; 2]%N,
         [:: (("a"%string, "a"%string, 1%N), invmx (magnification 2%:R))])).
Proof. by rewrite /twice_a calculateXYUV_two_entries. Qed.

Lemma calculateXYUV_table_without_reversals_witness :
  [/\ calculateXYUV4 pilot0 one_crossing 0%N 0%N false
      = (Info :: Info :: nseq 12 Debug,
         Ok ([:: pilot0; magnify pilot0; magnify (magnify pilot0)],
             mkRayPath [:: 0; 1; 2]%N,
             [:: (("a"%string, "b"%string, 1%N), magnification 2%:R);
                 (("b"%string, "a"%string, 1%N), invmx (magnification 2%:R))])),
      all (fun h => reverse_hit h \notin (sequence_to_hitlist one_crossing).1)
        (sequence_to_hitlist one_crossing).1,
      (0 < size (sequence_to_hitlist one_crossing).1)%N
    & exists l T Tinv,
        [/\ interval_transfer4 pilot0 (magnify pilot0)
              ("a"%string, "b"%string, 1%N) = (l, Ok T),
            linalg_inv T = Ok Tinv,
            dict_get [:: (("a"%string, "b"%string, 1%N), magnification 2%:R);
                         (("b"%string, "a"%string, 1%N),
                          invmx (magnification 2%:R))]
              ("a"%string, "b"%string, 1%N) = Some T
          & dict_get [:: (("a"%string, "b"%string, 1%N), magnification 2%:R);
                         (("b"%string, "a"%string, 1%N),
                          invmx (magnification 2%:R))]
              ("b"%string, "a"%string, 1%N) = Some Tinv]].
Proof.
split; [exact: calculateXYUV_one_crossing | reflexivity | reflexivity |].
exact: (calculateXYUV_table_without_reversals (i := 0)
          calculateXYUV_one_crossing isT isT).
Defined.

Lemma calculateXYUV_same_surface_twice_witness :
  calculateXYUV4 pilot0 twice_a 0%N 0%N false
  = (Info :: Info :: nseq 12 Debug,
     Ok ([:: pilot0; magnify pilot0; magnify (magnify pilot0)],
         mkRayPath [:: 0; 1; 2]%N,
         [:: (("a"%string, "a"%string, 1%N), invmx (magnification 2%:R))]))
  /\ exists l T,
       [/\ interval_transfer4 pilot0 (magnify pilot0)
             ("a"%string, "a"%string, 1%N) = (l, Ok T),
           T \in unitmx,
           [:: (("a"%string, "a"%string, 1%N), invmx (magnification 2%:R))]
           = [:: (("a"%string, "a"%string, 1%N), invmx T)]
         & dict_get
             [:: (("a"%string, "a"%string, 1%N), invmx (magnification 2%:R))]
             ("a"%string, "a"%string, 1%N) = Some (invmx T)].
Proof.
split; first exact: calculateXYUV_twice_a.
exact: (calculateXYUV_same_surface_twice calculateXYUV_twice_a).
Defined.

Lemma seqtrace_only_a :
  seqtrace4 only_a
  = Ok ([:: pilot0; magnify pilot0], [:: mkRayPath [:: 0; 1]%N]).
Proof. reflexivity. Qed.

Lemma calculateXYUV_short_sequence_witness :
  [/\ (size only_a <= 1)%N,
      seqtrace4 only_a
      = Ok ([:: pilot0; magnify pilot0], [:: mkRayPath [:: 0; 1]%N])
    & exists rp,
        [/\ getitem [:: mkRayPath [:: 0; 1]%N] 0 = Ok rp,
            calculateXYUV4 pilot0 only_a 0%N 0%N false
            = ([:: Info; Info], Ok ([:: pilot0; magnify pilot0], rp, [::]))
          & para_seqtrace4 pilot0 one_ray only_a 0%N 0%N false
            = ([:: Info; Info],
               Ok ([:: pilot0; magnify pilot0], rp, [:: one_ray]))]].
Proof.
split; [reflexivity | exact: seqtrace_only_a |].
apply: calculateXYUV_short_sequence; [reflexivity | exact: seqtrace_only_a].
Defined.

Lemma para_seqtrace_returns_when_linearized_witness :
  [/\ calculateXYUV4 pilot0 round_trip 0%N 0%N false
      = (Info :: Info :: nseq 24 Debug,
         Ok ([:: slab_bundle 1; slab_bundle (2%:R * 1);
                 slab_bundle (2%:R * (2%:R * 1));
                 slab_bundle (2%:R * (2%:R * (2%:R * 1)))],
             mkRayPath [:: 0; 1; 2; 3]%N, round_trip_table)),
      (0 < size (ray_x one_ray))%N, (0 < size (ray_k one_ray))%N
    & exists rpath,
        para_seqtrace4 pilot0 one_ray round_trip 0%N 0%N false
        = (Info :: Info :: nseq 24 Debug,
           Ok ([:: slab_bundle 1; slab_bundle (2%:R * 1);
                   slab_bundle (2%:R * (2%:R * 1));
                   slab_bundle (2%:R * (2%:R * (2%:R * 1)))],
               mkRayPath [:: 0; 1; 2; 3]%N, rpath))].
Proof.
split; [exact: calculateXYUV_round_trip | reflexivity | reflexivity |].
apply: para_seqtrace_returns_when_linearized;
  [exact: calculateXYUV_round_trip | reflexivity | reflexivity].
Defined.

Lemma para_step_keeps_pilot_ray_witness :
  exists nb,
    [/\ id (0 : rat) = 0 /\ no_imag 0 = 0,
        getitem_last (ray_x pilot0) = Ok pilot_x0
        /\ getitem_last (ray_k pilot0) = Ok pilot_k0,
        getitem_last (ray_x pilot_ray) = Ok (col ord0 pilot_x0)
        /\ getitem_last (ray_k pilot_ray) = Ok (col ord0 pilot_k0),
        para_step4 round_trip_table pilot0 (magnify pilot0)
          ("a"%string, "b"%string, 1%N) pilot_ray = Ok nb
      & getitem_last (ray_x nb) = Ok (col ord0 (2%:R *: pilot_x0))
        /\ getitem_last (ray_k nb) = Ok (col ord0 pilot_k0)].
Proof.
have [nb Estep] :
    exists nb, para_step4 round_trip_table pilot0 (magnify pilot0)
                 ("a"%string, "b"%string, 1%N) pilot_ray = Ok nb.
  eexists; reflexivity.
have Re0 : id (0 : rat) = 0 by reflexivity.
have Im0 : no_imag 0 = 0 by reflexivity.
have Eps_x : getitem_last (ray_x pilot0) = Ok pilot_x0 by reflexivity.
have Eps_k : getitem_last (ray_k pilot0) = Ok pilot_k0 by reflexivity.
have Ex : getitem_last (ray_x pilot_ray) = Ok (col ord0 pilot_x0) by reflexivity.
have Ek : getitem_last (ray_k pilot_ray) = Ok (col ord0 pilot_k0) by reflexivity.
have [surf_end [pe_x [pe_k [_ Epe_x Epe_k nb_x nb_k]]]] :=
  para_step_keeps_pilot_ray Re0 Im0 Eps_x Eps_k Ex Ek Estep.
exists nb; split=> //.
move: Epe_x Epe_k nb_x nb_k; rewrite /global_frame.
by move=> [<-] [<-] -> ->.
Defined.

End SlabRuns.

(** ** Building the element *)

Section RegistrationTheory.

Variables (Surface : eqType) (Frame : Type).
Variable rootcoordinatesystem : Surface -> Frame.
Variable lc : MatRef -> Frame.
Variable checkForRootConnection : Frame -> bool.

Local Notation add_surface :=
  (addSurface rootcoordinatesystem checkForRootConnection).
Local Notation add_material := (addMaterial lc checkForRootConnection).

Implicit Types (self : element_state Surface) (key : string).

(** A material key is given once: after [addMaterial] has returned for a
    key, the key holds the material it held before the call, or else the
    material of the call, and a further [addMaterial] under that key
    changes nothing: it logs the warning when the new material is
    connected to the root, and raises when it is not. *)
Theorem addMaterial_first_material_stays self key (m1 m2 : MatRef)
    (c1 c2 : string) (l1 : seq log_event) (s1 : element_state Surface) :
  add_material self key m1 c1 = (l1, Registered s1) ->
  dict_get (materials (element s1)) key
  = Some (if dict_get (materials (element self)) key is Some m0 then m0 else m1)
  /\ add_material s1 key m2 c2
     = if checkForRootConnection (lc m2) then
         ([:: Warning ("Material key " ++ key
                       ++ " already taken. Material will not be added.")],
          Registered s1)
       else
         ([::],
          RaiseException
            "material coordinate system should be connected to OpticalElement root coordinate system").
Proof.
rewrite /addMaterial; case: (checkForRootConnection (lc m1)) => //.
case E: (dict_get _ key) => [m0|] [_ <-] /=.
  by rewrite E.
by rewrite dict_get_set eqxx.
Qed.

(** After [addSurface] has returned, the key holds the surface object and
    its pair of material keys, replacing what the key held, the object
    carries the name, and no other key and no material is changed. *)
Theorem addSurface_registers_key self key (surface_object : Surface)
    (materialkeys : string * string) (name : string)
    (s1 : element_state Surface) :
  add_surface self key surface_object materialkeys name = Registered s1 ->
  [/\ dict_get (surfaces (element s1)) key = Some surface_object,
      dict_get (surf_mat_connection (element s1)) key = Some materialkeys,
      dict_get (surface_name s1) surface_object = Some name,
      materials (element s1) = materials (element self)
    & forall key', key' != key ->
        dict_get (surfaces (element s1)) key'
        = dict_get (surfaces (element self)) key'
        /\ dict_get (surf_mat_connection (element s1)) key'
           = dict_get (surf_mat_connection (element self)) key'].
Proof.
rewrite /addSurface; case: materialkeys => minusNmat_key plusNmat_key.
case: (checkForRootConnection _) => // -[<-] /=.
split; rewrite ?dict_get_set ?eqxx // => key' ne_key.
by rewrite !dict_get_set eq_sym (negPf ne_key).
Qed.

(** The name is an attribute of the surface object, not of the key: when
    one surface object is added under a second key with another name,
    the first key still holds the object, which now carries the second
    name. *)
Theorem addSurface_shared_object_renamed self (key1 key2 : string)
    (surface_object : Surface) (materialkeys1 materialkeys2 : string * string)
    (name1 name2 : string) (s1 s2 : element_state Surface) :
  key1 != key2 ->
  add_surface self key1 surface_object materialkeys1 name1 = Registered s1 ->
  add_surface s1 key2 surface_object materialkeys2 name2 = Registered s2 ->
  [/\ dict_get (surfaces (element s2)) key1 = Some surface_object,
      dict_get (surfaces (element s2)) key2 = Some surface_object
    & dict_get (surface_name s2) surface_object = Some name2].
Proof.
rewrite /addSurface => ne_12.
case: materialkeys1 => minus1 plus1; case: materialkeys2 => minus2 plus2.
case: (checkForRootConnection _) => // -[<-] /= [<-] /=.
by rewrite !dict_get_set !eqxx eq_sym (negPf ne_12).
Qed.

End RegistrationTheory.

Lemma addMaterial_first_material_stays_witness :
  addMaterial (fun _ => tt) connected empty_element "glass" 7 "first"
  = ([::], Registered with_glass)
  /\ dict_get (materials (element with_glass)) "glass"%string = Some 7
  /\ addMaterial (fun _ => tt) connected with_glass "glass" 8 "second"
     = ([:: Warning "Material key glass already taken. Material will not be added."],
        Registered with_glass).
Proof.
have E1 : addMaterial (fun _ => tt) connected empty_element "glass" 7 "first"
          = ([::], Registered with_glass) by reflexivity.
have [get1 E2] := addMaterial_first_material_stays 8 "second" E1.
split; [exact: E1 | split; [exact: get1 | exact: E2]].
Defined.

Lemma addSurface_registers_key_witness :
  addSurface (fun _ => tt) connected empty_element "front" 1
    ("air"%string, "glass"%string) "entrance" = Registered with_front
  /\ dict_get (surfaces (element with_front)) "front"%string = Some 1
  /\ dict_get (surf_mat_connection (element with_front)) "front"%string
     = Some ("air"%string, "glass"%string).
Proof.
have E1 : addSurface (fun _ => tt) connected empty_element "front" 1
            ("air"%string, "glass"%string) "entrance" = Registered with_front.
  reflexivity.
have [get_surf get_mats _ _ _] := addSurface_registers_key E1.
split; [exact: E1 | split; [exact: get_surf | exact: get_mats]].
Defined.

Lemma addSurface_shared_object_renamed_witness :
  [/\ "front"%string != "back"%string,
      addSurface (fun _ => tt) connected empty_element "front" 1
        ("air"%string, "glass"%string) "entrance" = Registered with_front,
      addSurface (fun _ => tt) connected with_front "back" 1
        ("glass"%string, "air"%string) "exit" = Registered with_front_and_back,
      dict_get (surfaces (element with_front_and_back)) "front"%string = Some 1
    & dict_get (surface_name with_front_and_back) 1 = Some "exit"%string].
Proof.
have ne_keys : "front"%string != "back"%string by reflexivity.
have E1 : addSurface (fun _ => tt) connected empty_element "front" 1
            ("air"%string, "glass"%string) "entrance" = Registered with_front.
  reflexivity.
have E2 : addSurface (fun _ => tt) connected with_front "back" 1
            ("glass"%string, "air"%string) "exit"
          = Registered with_front_and_back.
  reflexivity.
have [get1 _ get_name] := addSurface_shared_object_renamed ne_keys E1 E2.
split; [exact: ne_keys | exact: E1 | exact: E2 | exact: get1 | exact: get_name].
Defined.

(** ** [list2dict] *)

Section List2DictTheory.

Variable V : eqType.
Implicit Types (x : dict string V) (yaml_list : seq (dict string V)).
Implicit Types (namekey : string) (newdict : dict V (dict string V)).

Lemma dict_get_pop x namekey : dict_get (dict_pop x namekey) namekey = None.
Proof.
elim: x => [|[k v] x IHx] //=; case: ifP => //= ne_k.
by rewrite (negPf ne_k).
Qed.

Lemma dict_pop_absent x namekey :
  dict_get x namekey = None -> dict_pop x namekey = x.
Proof.
elim: x => [|[k v] x IHx] //=; case: eqP => //= _ /IHx.
by rewrite /dict_pop => ->.
Qed.

Lemma list2dict_loop_fst yaml_list namekey newdict (v : V) :
  dict_get (list2dict_loop yaml_list namekey newdict).1 v
  = if [seq x <- yaml_list | dict_get x namekey == Some v] is x :: named
    then Some (dict_pop (last x named) namekey) else dict_get newdict v.
Proof.
elim: yaml_list newdict => [|x yaml_list IHl] newdict //=.
case Ex: (dict_get x namekey) => [xname|] /=.
  case El: (list2dict_loop _ _ _) (IHl (dict_set newdict xname
                                            (dict_pop x namekey)))
    => [newdict' rest] /= ->.
  rewrite dict_get_set (inj_eq Some_inj).
  by case: eqP => _; case: [seq _ <- _ | _].
by case El: (list2dict_loop _ _ _) (IHl newdict) => [newdict' rest] /= ->.
Qed.

Lemma list2dict_loop_snd yaml_list namekey newdict :
  (list2dict_loop yaml_list namekey newdict).2
  = [seq dict_pop x namekey | x <- yaml_list].
Proof.
elim: yaml_list newdict => [|x yaml_list IHl] newdict //=.
case Ex: (dict_get x namekey) => [xname|] /=.
  by case El: (list2dict_loop _ _ _) (IHl (dict_set newdict xname
                                               (dict_pop x namekey)))
       => [newdict' rest] /= ->.
case El: (list2dict_loop _ _ _) (IHl newdict) => [newdict' rest] /= ->.
by rewrite dict_pop_absent.
Qed.

Lemma all_dict_set (K : eqType) (W : Type) (p : pred W) (d : dict K W)
    (k : K) (w : W) :
  p w -> all (fun kv => p kv.2) d -> all (fun kv => p kv.2) (dict_set d k w).
Proof.
move=> p_w; elim: d => [|[k0 w0] d IHd] /=; first by rewrite p_w.
by case: ifP => _ /andP[p_w0 p_d] /=; rewrite ?p_w ?p_w0 ?IHd.
Qed.

Lemma list2dict_loop_values yaml_list namekey newdict :
  all (fun kv => dict_get kv.2 namekey == None) newdict ->
  all (fun kv => dict_get kv.2 namekey == None)
    (list2dict_loop yaml_list namekey newdict).1.
Proof.
elim: yaml_list newdict => [|x yaml_list IHl] newdict //= inv.
case Ex: (dict_get x namekey) => [xname|] /=.
  case El: (list2dict_loop _ _ _) (IHl (dict_set newdict xname
                                            (dict_pop x namekey)))
    => [newdict' rest] /=; apply.
  by apply: (@all_dict_set _ _ (fun x => dict_get x namekey == None));
     rewrite ?dict_get_pop.
by case El: (list2dict_loop _ _ _) (IHl newdict) => [newdict' rest] /=; apply.
Qed.

(** The dictionary [list2dict] builds answers a name with the last entry
    of the list that carries this name under [namekey], without its
    [namekey] binding; earlier entries of the same name are lost, and so
    are the entries without [namekey]. A name no entry carries is no key. *)
Theorem list2dict_last_entry_wins yaml_list namekey (v : V) :
  dict_get (list2dict yaml_list namekey).1 v
  = if [seq x <- yaml_list | dict_get x namekey == Some v] is x :: named
    then Some (dict_pop (last x named) namekey) else None.
Proof. by rewrite /list2dict list2dict_loop_fst. Qed.

(** [list2dict] changes the list it is given: when it returns, every
    dictionary of the caller's list has lost its [namekey] binding (the
    dictionaries without one are as they were), and no dictionary filed
    in the result has one. *)
Theorem list2dict_strips_namekey yaml_list namekey :
  (list2dict yaml_list namekey).2 = [seq dict_pop x namekey | x <- yaml_list]
  /\ all (fun x => dict_get x namekey == None) (list2dict yaml_list namekey).2
  /\ all (fun kv => dict_get kv.2 namekey == None)
       (list2dict yaml_list namekey).1.
Proof.
rewrite /list2dict list2dict_loop_snd; split=> //; split.
  by rewrite all_map; apply/allP=> x _ /=; rewrite dict_get_pop.
exact: list2dict_loop_values.
Qed.

End List2DictTheory.

(** ** More on the dispersion-formula container *)

Section GlassCatalogMore.
Import GlassCatalog.

Variables (num coeffs : Type) (len : coeffs -> nat) (milli : num -> num).
Variable numpy_formula : n_func -> coeffs -> num -> result num.
Variable interp1d : coeffs -> result unit.
Variable interp1d_k_value : coeffs -> num -> result num.
Variable zero : num.

Local Notation init := (@init coeffs len interp1d).
Local Notation set_n_function := (@set_n_function coeffs len interp1d).
Local Notation get_n := (@get_n num coeffs milli numpy_formula).
Local Notation get_k := (@get_k num coeffs milli interp1d_k_value zero).

(** A formula name that [set_n_function] does not know is not refused:
    the constructor returns (it fails only when tabulated extinction data
    is rejected), and the object has no [n_function], so that [get_n]
    raises AttributeError for every wavelength. *)
Theorem unknown_formula_get_n_raises (n_typ : string) (nc : coeffs)
    (kt : option string) (kc : coeffs) (wavelength : num) :
  n_typ \notin known_n_types ->
  match init n_typ nc kt kc with
  | Ok c => get_n c wavelength = Raise AttributeError
  | Raise _ => kt = Some "tabulated k"%string /\ raises (interp1d kc)
  end.
Proof.
rewrite /known_n_types !inE !negb_or.
rewrite /GlassCatalog.init /GlassCatalog.set_n_function.
do 9![case/andP=> /negPf ->]; move=> /negPf -> /=.
by rewrite /set_k_function; case: eqP => [->|_] //=; case: (interp1d kc).
Qed.

(** Setting "formula  8" on an object that already has a formula does not
    replace it: [get_n] goes on computing the previous formula, now on the
    new coefficients. *)
Theorem formula_8_keeps_previous_formula (self : IndexFormulaContainer coeffs)
    (f : n_func) (nc : coeffs) (wavelength : num) :
  n_function self = Some f -> reads_n_coeff f ->
  exists self',
    [/\ set_n_function self "formula  8" nc = Ok self',
        n_function self' = Some f
      & get_n self' wavelength = numpy_formula f nc (milli wavelength)].
Proof.
move=> f_def reads; rewrite /GlassCatalog.set_n_function /=.
eexists; split; first reflexivity; rewrite /GlassCatalog.get_n /= f_def //.
by case: f reads {f_def}.
Qed.

(** Unless the extinction is tabulated, a constructed object is lossless:
    [get_k] returns 0 for every wavelength, whatever extinction
    coefficients were given. *)
Theorem get_k_lossless_unless_tabulated (n_typ : string) (nc : coeffs)
    (kt : option string) (kc : coeffs) (wavelength : num)
    (self : IndexFormulaContainer coeffs) :
  kt != Some "tabulated k"%string ->
  init n_typ nc kt kc = Ok self ->
  get_k self wavelength = Ok zero.
Proof.
move=> /negPf k_def; rewrite /GlassCatalog.init.
case: (GlassCatalog.set_n_function _ _ _ _ _) => [self0|] //=.
by rewrite /set_k_function k_def => -[<-].
Qed.

End GlassCatalogMore.

Lemma unknown_formula_get_n_raises_witness :
  [/\ "formula 1"%string \notin known_n_types,
      toy_init "formula 1" [:: 1; 2; 3] = Ok misspelt_container
    & toy_get_n misspelt_container 500 = Raise AttributeError].
Proof.
have unknown : "formula 1"%string \notin known_n_types by reflexivity.
have Einit : GlassCatalog.init size (fun _ => Ok tt) "formula 1" [:: 1; 2; 3]
               None [::] = Ok misspelt_container by reflexivity.
split; [exact: unknown | exact: Einit |].
exact: (@unknown_formula_get_n_raises nat (seq nat) size id toy_formula
          (fun _ => Ok tt) "formula 1" [:: 1; 2; 3] None [::] 500 unknown).
Defined.

Lemma formula_8_keeps_previous_formula_witness :
  [/\ GlassCatalog.n_function sellmeier_container = Some GlassCatalog.Sellmeier,
      reads_n_coeff GlassCatalog.Sellmeier
    & exists self',
        [/\ GlassCatalog.set_n_function size (fun _ => Ok tt)
              sellmeier_container "formula  8" [:: 10] = Ok self',
            GlassCatalog.n_function self' = Some GlassCatalog.Sellmeier
          & toy_get_n self' 5 = Ok 15]].
Proof.
have f_def : GlassCatalog.n_function sellmeier_container
             = Some GlassCatalog.Sellmeier by reflexivity.
have reads : reads_n_coeff GlassCatalog.Sellmeier by reflexivity.
split; [exact: f_def | exact: reads |].
exact: (@formula_8_keeps_previous_formula nat (seq nat) size id toy_formula
          (fun _ => Ok tt) sellmeier_container GlassCatalog.Sellmeier [:: 10] 5
          f_def reads).
Defined.

Lemma get_k_lossless_unless_tabulated_witness :
  [/\ (None : option string) != Some "tabulated k"%string,
      toy_init "formula  1" [:: 1; 2; 3] = Ok sellmeier_container
    & toy_get_k sellmeier_container 500 = Ok 0].
Proof.
have k_def : (None : option string) != Some "tabulated k"%string by reflexivity.
have Einit : toy_init "formula  1" [:: 1; 2; 3] = Ok sellmeier_container.
  reflexivity.
split; [exact: k_def | exact: Einit |].
exact: (@get_k_lossless_unless_tabulated nat (seq nat) size id (fun _ => Ok tt)
          (fun _ w => Ok w) 0 "formula  1" [:: 1; 2; 3] None [::] 500
          sellmeier_container k_def Einit).
Defined.
